(** * Page-replacement simulator: the simulation engine and the playback
      controller of [app.js], embedded in Rocq.

    [SimulationLogic] (run, createState, runFIFO, runLRU, runOptimal) and
    [Animator] (play, pause, nextStep, stepForward, stepBackward,
    drawCurrentState, setSpeed) are translated method by method.  The
    later parts add the event handlers of [PageReplacementSimulator]
    (module [App], and [startSimulation] with the parsing of its inputs),
    what [Renderer] draws for the frames and the reference string, and
    the controls [UIManager] enables and disables (module [Ui]).

    Conventions of the embedding:
    - a JavaScript number that holds a page, an index or a counter is the
      [Z] it equals (the caller builds the pages with [parseInt] and drops
      [NaN]; a page that is [Infinity] is outside the embedding); where a
      number is printed or used as a property key, [Js.toString] gives its
      text, and [Input.parseInt] reads a text back as a double;
    - the values a frame slot or [pageToEvict] can hold are [value]:
      [null], [undefined] or a number;
    - an array is a [list]; [frames[i] = x] is [array_set];
    - an exception is a [Throw] in the [result] type;
    - the DOM node [executionLog] is the string of its [textContent]. *)

From stdpp Require Import list sorting strings pretty gmap.
From Stdlib Require Import ZArith Lia.

Local Open Scope Z_scope.

(** ** JavaScript values and arrays *)

Inductive value : Type :=
  | Null
  | Undefined
  | Num (z : Z).

#[global] Instance value_eq_dec : EqDecision value.
Proof. solve_decision. Defined.

Inductive exn : Type :=
  | Error (msg : string)
  | RangeError
  | TypeError.

Inductive result (A : Type) : Type :=
  | Ok (a : A)
  | Throw (e : exn).

Arguments Ok {A} a.
Arguments Throw {A} e.

#[global] Instance result_bind : MBind result := λ A B k r,
  match r with
  | Ok a => k a
  | Throw e => Throw e
  end.

Module Js.

(** ** Numbers

    A number that holds a page is an integer-valued double, held as the
    integer it equals.  [round_pos v] is the double nearest to the integer
    [v > 0], a tie going to the even significand, and [None] where that is
    [Infinity]. *)
Definition round_pos (v : Z) : option Z :=
  let e := Z.log2 v - 52 in
  if decide (e ≤ 0) then Some v
  else
    let m := v / 2 ^ e in
    let r := v mod 2 ^ e in
    let half := 2 ^ (e - 1) in
    let m' := if decide (r < half) then m
              else if decide (half < r) then m + 1
              else if Z.even m then m else m + 1 in
    if decide (m' * 2 ^ e < 2 ^ 1024) then Some (m' * 2 ^ e) else None.

(** [Number.isSafeInteger(z)] *)
Definition safe_integer (z : Z) : Prop := Z.abs z < 2 ^ 53.

#[global] Instance safe_integer_dec z : Decision (safe_integer z).
Proof. unfold safe_integer. apply _. Defined.

(** The number of decimal digits of [v > 0]. *)
Definition digits_of (v : Z) : Z := Z.of_nat (String.length (pretty v)).

(** [c × 10^t] is a decimal that reads back as the double [x]. *)
Definition reads_as (x : Z) (ct : Z * Z) : Prop :=
  round_pos (ct.1 * 10 ^ ct.2) = Some x.

#[global] Instance reads_as_dec x ct : Decision (reads_as x ct).
Proof. unfold reads_as. apply _. Defined.

(** The decimals of [j] digits next to [x], the closer first, the even one
    first when both are as close. *)
Definition candidates (x j : Z) : list (Z * Z) :=
  let t := digits_of x - j in
  if decide (t ≤ 0) then [(x, 0)]
  else
    let lo := x / 10 ^ t in
    let below := x - lo * 10 ^ t in
    let above := (lo + 1) * 10 ^ t - x in
    if decide (below < above) then [(lo, t); (lo + 1, t)]
    else if decide (above < below) then [(lo + 1, t); (lo, t)]
    else if Z.even lo then [(lo, t); (lo + 1, t)]
    else [(lo + 1, t); (lo, t)].

(** The digits [Number::toString] prints for the double [x > 0]: of the
    decimals that read back as [x], one with the fewest digits (17 always
    suffice), and of those the closest to [x], as the language recommends
    and the engines do. *)
Definition shortest (x : Z) : Z * Z :=
  default (x, 0) (head (filter (reads_as x) (seqZ 1 17 ≫= candidates x))).

(** The digits of a numeral without its trailing zeros. *)
Fixpoint strip_zeros (s : string) : string :=
  match s with
  | "" => ""
  | String a rest =>
      let rest := strip_zeros rest in
      if decide (String a rest = "0") then "" else String a rest
  end.

(** [String(x)] for an integer [x > 0]: the decimal numeral below [10^21],
    the exponent notation from there on. *)
Definition toString_pos (x : Z) : string :=
  let '(c, t) := shortest x in
  let v := c * 10 ^ t in
  if decide (v < 10 ^ 21) then pretty v
  else
    let e := pretty (digits_of v - 1) in
    match strip_zeros (pretty c) with
    | "" => ""
    | String a "" => String a ("e+" +:+ e)
    | String a b => String a ("." +:+ b +:+ "e+" +:+ e)
    end.

(** [String(z)], as a template literal and a property key render a
    number. *)
Definition toString (z : Z) : string :=
  match z with
  | 0 => "0"
  | Z.pos _ => toString_pos z
  | Z.neg p => "-" +:+ toString_pos (Z.pos p)
  end.

(** [String(v)], as a template literal renders it. *)
Definition show (v : value) : string :=
  match v with
  | Null => "null"
  | Undefined => "undefined"
  | Num z => toString z
  end.

Section Arrays.
Context {A : Type} `{EqDecision A}.

(** [arr.includes(x)] *)
Definition includes (x : A) (arr : list A) : bool :=
  bool_decide (x ∈ arr).

(** [arr.indexOf(x)]: the first index holding [x], or [-1]. *)
Definition indexOf (x : A) (arr : list A) : Z :=
  match list_find (λ y, y = x) arr with
  | Some (i, _) => Z.of_nat i
  | None => -1
  end.

(** [arr.push(x)] *)
Definition push (x : A) (arr : list A) : list A := arr ++ [x].

(** [arr.unshift(x)] *)
Definition unshift (x : A) (arr : list A) : list A := x :: arr.

(** [arr.slice(start)] for [start >= 0]. *)
Definition slice (start : Z) (arr : list A) : list A :=
  drop (Z.to_nat start) arr.

(** [arr.splice(start, 1)]: a negative [start] counts from the end, so
    [splice(-1, 1)] removes the last element. *)
Definition splice1 (start : Z) (arr : list A) : list A :=
  let len := Z.of_nat (length arr) in
  let from := if decide (start < 0) then Z.max (len + start) 0
              else Z.min start len in
  delete (Z.to_nat from) arr.
End Arrays.

(** [new Array(n).fill(null)]; an invalid length is a [RangeError]. *)
Definition new_Array_fill_null (n : Z) : result (list value) :=
  if decide (0 ≤ n < 2 ^ 32) then Ok (replicate (Z.to_nat n) Null)
  else Throw RangeError.

(** [arr[i] = x].  A negative [i] names a property that is not an
    element: the elements stay as they are.  Past the end the array is
    extended, the skipped slots reading as [undefined]. *)
Definition array_set (arr : list value) (i : Z) (x : value) : list value :=
  if decide (i < 0) then arr
  else if decide (i < Z.of_nat (length arr)) then <[Z.to_nat i := x]> arr
  else arr ++ replicate (Z.to_nat i - length arr) Undefined ++ [x].

(** [queue.shift()] and [stack.pop()] on an array of pages: the removed
    element ([undefined] on an empty array) and the array left. *)
Definition shift (arr : list Z) : value * list Z :=
  match arr with
  | [] => (Undefined, [])
  | x :: rest => (Num x, rest)
  end.

Definition pop (arr : list Z) : value * list Z :=
  match last arr with
  | None => (Undefined, [])
  | Some x => (Num x, removelast arr)
  end.

(** [arr.forEach((x, i) => ...)], the callback threading the variables
    it closes over and possibly throwing. *)
Fixpoint forEach_from {A S : Type} (f : S → A → Z → result S)
    (arr : list A) (i : Z) (s : S) : result S :=
  match arr with
  | [] => Ok s
  | x :: rest => s' ← f s x i; forEach_from f rest (i + 1) s'
  end.

Definition forEach {A S : Type} (f : S → A → Z → result S)
    (arr : list A) (s : S) : result S :=
  forEach_from f arr 0 s.

(** [arr.reduce(f)] with no initial value: the first element starts the
    accumulator, and an empty array is a [TypeError]. *)
Definition reduce {A : Type} (f : A → A → A) (arr : list A) : result A :=
  match arr with
  | [] => Throw TypeError
  | x :: rest => Ok (fold_left f rest x)
  end.

(** The numbers stored in [futureUses]: an index or [Infinity]. *)
Inductive num : Type :=
  | Fin (z : Z)
  | Infinity.

(** [a > b], where a missing property reads [undefined] and compares
    false. *)
Definition gt (a b : option num) : bool :=
  match a, b with
  | Some (Fin x), Some (Fin y) => bool_decide (y < x)
  | Some Infinity, Some (Fin _) => true
  | _, _ => false
  end.

End Js.

(** ** Strings read as numbers

    The text of an input field, or a property key, is a JavaScript string:
    the list of its UTF-16 code units. *)
Module Input.

(** The code units of an ASCII text. *)
Definition code_units (s : string) : list N :=
  Ascii.N_of_ascii <$> String.list_ascii_of_string s.

(** White space and line terminators, as [trim] and [parseInt] skip
    them. *)
Definition white_space : list N :=
  [9; 10; 11; 12; 13; 32; 160; 5760; 8192; 8193; 8194; 8195; 8196; 8197;
   8198; 8199; 8200; 8201; 8202; 8232; 8233; 8239; 8287; 12288; 65279]%N.

Definition is_space (c : N) : Prop := c ∈ white_space.

#[global] Instance is_space_dec c : Decision (is_space c).
Proof. unfold is_space. apply _. Defined.

Definition is_digit (c : N) : Prop := (48 ≤ c ≤ 57)%N.

#[global] Instance is_digit_dec c : Decision (is_digit c).
Proof. unfold is_digit. apply _. Defined.

Fixpoint trimStart (s : list N) : list N :=
  match s with
  | c :: rest => if decide (is_space c) then trimStart rest else s
  | [] => []
  end.

Definition trimEnd (s : list N) : list N :=
  reverse (trimStart (reverse s)).

(** [s.trim()] *)
Definition trim (s : list N) : list N := trimEnd (trimStart s).

(** [s.split(sep)] for a separator of one code unit: the fields between
    the separators, one field for a text without separator. *)
Fixpoint split (sep : N) (s : list N) : list (list N) :=
  match s with
  | [] => [[]]
  | c :: rest =>
      if decide (c = sep) then [] :: split sep rest
      else match split sep rest with
           | field :: fields => (c :: field) :: fields
           | [] => [[c]]
           end
  end.

(** The longest prefix of decimal digits, and its value. *)
Fixpoint digits (s : list N) : list N :=
  match s with
  | c :: rest => if decide (is_digit c) then c :: digits rest else []
  | [] => []
  end.

Definition value_from (acc : Z) (ds : list N) : Z :=
  fold_left (λ acc d, acc * 10 + (Z.of_N d - 48)) ds acc.

(** What [parseInt] returns: [NaN], an integer-valued double, or
    [Infinity] with its sign. *)
Inductive number : Type :=
  | NaN
  | Int (z : Z)
  | Inf (negative : bool).

#[global] Instance number_eq_dec : EqDecision number.
Proof. solve_decision. Defined.

(** The number of value [sign × v], for [v >= 0]: the nearest double, as
    the engines compute it (for a numeral of more than 20 digits the
    language would also allow a less exact result). *)
Definition to_number (sign v : Z) : number :=
  if decide (v = 0) then Int 0
  else match Js.round_pos v with
       | Some w => Int (sign * w)
       | None => Inf (bool_decide (sign < 0))
       end.

(** [parseInt(s, 10)] *)
Definition parseInt (s : list N) : number :=
  let s := trimStart s in
  let '(sign, s) :=
    match s with
    | c :: rest =>
        if decide (c = 45%N) then (-1, rest)
        else if decide (c = 43%N) then (1, rest)
        else (1, s)
    | [] => (1, s)
    end in
  match digits s with
  | [] => NaN
  | ds => to_number sign (value_from 0 ds)
  end.

(** [parseInt(String(z), 10)].  [String(z)] starts with a digit, after a
    minus sign for a negative [z], and has at most 21 digits before
    anything else, so that the result is an integer (lemma
    [parseInt_String_Int]). *)
Definition parseInt_String (z : Z) : Z :=
  match parseInt (code_units (Js.toString z)) with
  | Int w => w
  | NaN | Inf _ => 0
  end.

(** The pages of [startSimulation]:
    [split(',').map(trim).filter(p => p !== '').map(parseInt)
     .filter(p => !isNaN(p))]. *)
Definition parse_pages (refString : list N) : list number :=
  filter (λ p, p ≠ NaN)
    (parseInt <$> filter (λ p, p ≠ []) (trim <$> split 44 refString)).

End Input.

(** ** A plain object keyed by pages

    [futureUses[p]] is keyed by [String(p)].  A key is held as the page
    [p] itself: [String] is injective on the doubles, so two pages name
    the same property exactly when they are equal.  What the key reads
    back as is another matter: see [Input.parseInt_String].  The entries
    are kept in creation order; [keys] lists them as [Object.keys] does,
    array indices (the keys of the integers from [0] to [2^32 - 2]) first
    in ascending order, then the other keys in creation order. *)
Module Obj.

Definition t : Type := list (Z * Js.num).

(** [o[k]] *)
Fixpoint get (o : t) (k : Z) : option Js.num :=
  match o with
  | [] => None
  | (k', v) :: rest => if decide (k' = k) then Some v else get rest k
  end.

(** [o[k] = v]: an existing property keeps its place, a new one is
    created last. *)
Fixpoint set (o : t) (k : Z) (v : Js.num) : t :=
  match o with
  | [] => [(k, v)]
  | (k', v') :: rest =>
      if decide (k' = k) then (k, v) :: rest else (k', v') :: set rest k v
  end.

Definition is_array_index (k : Z) : Prop := 0 ≤ k < 2 ^ 32 - 1.

#[global] Instance is_array_index_dec k : Decision (is_array_index k).
Proof. unfold is_array_index. apply _. Defined.

(** [Object.keys(o)] *)
Definition keys (o : t) : list Z :=
  merge_sort Z.le (filter is_array_index o.*1)
    ++ filter (λ k, ¬ is_array_index k) o.*1.

End Obj.

(** ** The state objects of the history *)

Record Stats : Type := mkStats {
  hits : Z;
  faults : Z;
  total : Z
}.

Record State : Type := mkState {
  step : Z;
  page : Z;
  frames : list value;
  isHit : bool;
  pageToEvict : value;
  helperQueue : list Z;
  message : string;
  stats : Stats
}.

Abbreviation History := (list State).

Module SimulationLogic.

(** [createState]: the spreads copy [frames], [helperQueue] and [stats],
    so a state does not alias the variables of the loop. *)
Definition createState (step page : Z) (frames : list value) (isHit : bool)
    (pageToEvict : value) (helperQueue : list Z) (message : string)
    (stats : Stats) : State :=
  mkState step page frames isHit pageToEvict helperQueue message stats.

(** The variables the callback of [runFIFO] and [runLRU] closes over. *)
Record Loop : Type := mkLoop {
  l_frames : list value;
  l_queue : list Z;
  l_history : History;
  l_stats : Stats
}.

(** Every number of a template literal is printed as [Js.toString] has
    it. *)
Definition msg_prefix (step page : Z) : string :=
  "Step " +:+ Js.toString (step + 1) +:+ " (Page " +:+ Js.toString page
    +:+ "): ".

Definition msg_hit (page : Z) : string :=
  "Page " +:+ Js.toString page +:+ " is already in memory. (HIT)".

Definition msg_load (page emptyIndex : Z) : string :=
  "Page " +:+ Js.toString page +:+ " caused a FAULT. Loaded into empty Frame "
    +:+ Js.toString emptyIndex +:+ ".".

Definition msg_evict (page : Z) (pageToEvict : value) (policy : string)
    (evictIndex : Z) : string :=
  "Page " +:+ Js.toString page +:+ " caused a FAULT. Page "
    +:+ Js.show pageToEvict
    +:+ " (" +:+ policy +:+ ") was evicted from Frame "
    +:+ Js.toString evictIndex +:+ ".".

Definition count_total (st : Stats) : Stats :=
  mkStats (hits st) (faults st) (total st + 1).
Definition count_hit (st : Stats) : Stats :=
  mkStats (hits st + 1) (faults st) (total st).
Definition count_fault (st : Stats) : Stats :=
  mkStats (hits st) (faults st + 1) (total st).

(** *** FIFO *)

Definition fifo_callback (l : Loop) (page step : Z) : result Loop :=
  let stats := count_total (l_stats l) in
  let isHit := Js.includes (Num page) (l_frames l) in
  let message := msg_prefix step page in
  if isHit then
    let stats := count_hit stats in
    let message := message +:+ msg_hit page in
    Ok (mkLoop (l_frames l) (l_queue l)
          (Js.push (createState step page (l_frames l) isHit Null
                      (l_queue l) message stats) (l_history l))
          stats)
  else
    let stats := count_fault stats in
    if Js.includes Null (l_frames l) then
      let emptyIndex := Js.indexOf Null (l_frames l) in
      let frames := Js.array_set (l_frames l) emptyIndex (Num page) in
      let fifoQueue := Js.push page (l_queue l) in
      let message := message +:+ msg_load page emptyIndex in
      Ok (mkLoop frames fifoQueue
            (Js.push (createState step page frames isHit Null fifoQueue
                        message stats) (l_history l))
            stats)
    else
      let '(pageToEvict, fifoQueue) := Js.shift (l_queue l) in
      let evictIndex := Js.indexOf pageToEvict (l_frames l) in
      let frames := Js.array_set (l_frames l) evictIndex (Num page) in
      let fifoQueue := Js.push page fifoQueue in
      let message :=
        message +:+ msg_evict page pageToEvict "FIFO" evictIndex in
      Ok (mkLoop frames fifoQueue
            (Js.push (createState step page frames isHit pageToEvict
                        fifoQueue message stats) (l_history l))
            stats).

Definition runFIFO (pages : list Z) (frameCount : Z) : result History :=
  frames ← Js.new_Array_fill_null frameCount;
  l ← Js.forEach fifo_callback pages
        (mkLoop frames [] [] (mkStats 0 0 0));
  Ok (l_history l).

(** *** LRU *)

Definition lru_callback (l : Loop) (page step : Z) : result Loop :=
  let stats := count_total (l_stats l) in
  let isHit := Js.includes (Num page) (l_frames l) in
  let message := msg_prefix step page in
  if isHit then
    let stats := count_hit stats in
    let lruStack :=
      Js.splice1 (Js.indexOf page (l_queue l)) (l_queue l) in
    let lruStack := Js.unshift page lruStack in
    let message := message +:+ msg_hit page in
    Ok (mkLoop (l_frames l) lruStack
          (Js.push (createState step page (l_frames l) isHit Null
                      lruStack message stats) (l_history l))
          stats)
  else
    let stats := count_fault stats in
    if Js.includes Null (l_frames l) then
      let emptyIndex := Js.indexOf Null (l_frames l) in
      let frames := Js.array_set (l_frames l) emptyIndex (Num page) in
      let lruStack := Js.unshift page (l_queue l) in
      let message := message +:+ msg_load page emptyIndex in
      Ok (mkLoop frames lruStack
            (Js.push (createState step page frames isHit Null lruStack
                        message stats) (l_history l))
            stats)
    else
      let '(pageToEvict, lruStack) := Js.pop (l_queue l) in
      let evictIndex := Js.indexOf pageToEvict (l_frames l) in
      let frames := Js.array_set (l_frames l) evictIndex (Num page) in
      let lruStack := Js.unshift page lruStack in
      let message :=
        message +:+ msg_evict page pageToEvict "LRU" evictIndex in
      Ok (mkLoop frames lruStack
            (Js.push (createState step page frames isHit pageToEvict
                        lruStack message stats) (l_history l))
            stats).

Definition runLRU (pages : list Z) (frameCount : Z) : result History :=
  frames ← Js.new_Array_fill_null frameCount;
  l ← Js.forEach lru_callback pages
        (mkLoop frames [] [] (mkStats 0 0 0));
  Ok (l_history l).

(** *** OPTIMAL *)

(** The variables the callback of [runOptimal] closes over. *)
Record OLoop : Type := mkOLoop {
  o_frames : list value;
  o_history : History;
  o_stats : Stats
}.

(** [frames.filter(p => p !== null)]: every write to [frames] stores a
    page, so the slots that are not [null] are numbers. *)
Definition pagesInFrames (frames : list value) : list Z :=
  omap (λ v, match v with Num z => Some z | _ => None end) frames.

(** The inner [forEach], filling [futureUses]. *)
Definition futureUses (pages : list Z) (step : Z) (resident : list Z)
    : Obj.t :=
  fold_left
    (λ o p,
       let nextUse := Js.indexOf p (Js.slice (step + 1) pages) in
       Obj.set o p (if decide (nextUse = -1) then Js.Infinity
                    else Js.Fin nextUse))
    resident [].

Definition optimal_callback (pages : list Z) (l : OLoop) (page step : Z)
    : result OLoop :=
  let stats := count_total (o_stats l) in
  let isHit := Js.includes (Num page) (o_frames l) in
  let message := msg_prefix step page in
  if isHit then
    let stats := count_hit stats in
    let message := message +:+ msg_hit page in
    let future := Js.slice (step + 1) pages in
    Ok (mkOLoop (o_frames l)
          (Js.push (createState step page (o_frames l) isHit Null future
                      message stats) (o_history l))
          stats)
  else
    let stats := count_fault stats in
    if Js.includes Null (o_frames l) then
      let emptyIndex := Js.indexOf Null (o_frames l) in
      let frames := Js.array_set (o_frames l) emptyIndex (Num page) in
      let message := message +:+ msg_load page emptyIndex in
      let future := Js.slice (step + 1) pages in
      Ok (mkOLoop frames
            (Js.push (createState step page frames isHit Null future
                        message stats) (o_history l))
            stats)
    else
      let fu := futureUses pages step (pagesInFrames (o_frames l)) in
      key ← Js.reduce
              (λ a b, if Js.gt (Obj.get fu a) (Obj.get fu b) then a else b)
              (Obj.keys fu);
      (* pageToEvict = parseInt(pageToEvict, 10) *)
      let pageToEvict := Num (Input.parseInt_String key) in
      let evictIndex := Js.indexOf pageToEvict (o_frames l) in
      let frames := Js.array_set (o_frames l) evictIndex (Num page) in
      let message :=
        message +:+ msg_evict page pageToEvict "Optimal" evictIndex in
      let future := Js.slice (step + 1) pages in
      Ok (mkOLoop frames
            (Js.push (createState step page frames isHit pageToEvict future
                        message stats) (o_history l))
            stats).

Definition runOptimal (pages : list Z) (frameCount : Z) : result History :=
  frames ← Js.new_Array_fill_null frameCount;
  l ← Js.forEach (optimal_callback pages) pages
        (mkOLoop frames [] (mkStats 0 0 0));
  Ok (o_history l).

(** *** The dispatcher *)

Definition UnsupportedPolicy : exn := Error "Unknown algorithm selected.".

Definition run (pages : list Z) (frameCount : Z) (algorithm : string)
    : result History :=
  if decide (algorithm = "FIFO") then runFIFO pages frameCount
  else if decide (algorithm = "LRU") then runLRU pages frameCount
  else if decide (algorithm = "OPTIMAL") then runOptimal pages frameCount
  else Throw UnsupportedPolicy.

End SimulationLogic.

(** ** The playback controller *)

Module Animator.

(** The fields of an [Animator], with the two text nodes of the
    [UIManager] it writes: [executionLog.textContent] and
    [statusMessage.textContent].  [timer] tells whether a timeout set by
    [nextStep] is pending.  The renderer and the buttons only read the
    fields; they keep no state of the playback. *)
Record t : Type := mk {
  stateHistory : History;
  currentIndex : Z;
  isPlaying : bool;
  animationSpeed : Z;
  timer : bool;
  lastLoggedIndex : Z;
  executionLog : string;
  statusMessage : string
}.

Definition newline : string := String (Ascii.ascii_of_nat 10) "".

(** [new Animator(...)], the log and the status as [resetUI] leaves them. *)
Definition new (stateHistory : History) : t :=
  mk stateHistory 0 false 1000 false (-1) "" "Simulation started.".

Definition length_of (a : t) : Z := Z.of_nat (length (stateHistory a)).

(** [uiManager.addLogMessage(message)] *)
Definition addLogMessage (msg : string) (a : t) : t :=
  mk (stateHistory a) (currentIndex a) (isPlaying a) (animationSpeed a)
     (timer a) (lastLoggedIndex a)
     (executionLog a +:+ (msg +:+ newline)) (statusMessage a).

Definition setStatusMessage (msg : string) (a : t) : t :=
  mk (stateHistory a) (currentIndex a) (isPlaying a) (animationSpeed a)
     (timer a) (lastLoggedIndex a) (executionLog a) msg.

Definition set_currentIndex (i : Z) (a : t) : t :=
  mk (stateHistory a) i (isPlaying a) (animationSpeed a)
     (timer a) (lastLoggedIndex a) (executionLog a) (statusMessage a).

Definition set_lastLoggedIndex (i : Z) (a : t) : t :=
  mk (stateHistory a) (currentIndex a) (isPlaying a) (animationSpeed a)
     (timer a) i (executionLog a) (statusMessage a).

Definition set_isPlaying (b : bool) (a : t) : t :=
  mk (stateHistory a) (currentIndex a) b (animationSpeed a)
     (timer a) (lastLoggedIndex a) (executionLog a) (statusMessage a).

Definition set_timer (b : bool) (a : t) : t :=
  mk (stateHistory a) (currentIndex a) (isPlaying a) (animationSpeed a)
     b (lastLoggedIndex a) (executionLog a) (statusMessage a).

Definition clear_log (a : t) : t :=
  mk (stateHistory a) (currentIndex a) (isPlaying a) (animationSpeed a)
     (timer a) (lastLoggedIndex a) "" (statusMessage a).

Definition drawCurrentState (suppressLog : bool) (a : t) : t :=
  if decide (currentIndex a < 0 ∨ currentIndex a >= length_of a) then a
  else
    match stateHistory a !! Z.to_nat (currentIndex a) with
    | None => a
    | Some state =>
        let a := setStatusMessage (message state) a in
        if negb suppressLog
           && bool_decide (currentIndex a > lastLoggedIndex a)
        then set_lastLoggedIndex (currentIndex a)
               (addLogMessage (message state) a)
        else a
    end.

Definition pause (a : t) : t :=
  if negb (isPlaying a) then a
  else set_timer false (set_isPlaying false a).

Definition nextStep (a : t) : t :=
  let a := drawCurrentState false a in
  if decide (currentIndex a >= length_of a - 1) then
    setStatusMessage "Simulation finished." (pause a)
  else if isPlaying a then
    set_timer true (set_currentIndex (currentIndex a + 1) a)
  else a.

Definition play (a : t) : t :=
  if isPlaying a then a
  else
    let a :=
      if decide (currentIndex a >= length_of a - 1) then
        clear_log (set_lastLoggedIndex (-1) (set_currentIndex 0 a))
      else a in
    nextStep (set_isPlaying true a).

Definition stepForward (a : t) : t :=
  if decide (currentIndex a >= length_of a - 1) then a
  else drawCurrentState false (set_currentIndex (currentIndex a + 1) a).

Definition stepBackward (a : t) : t :=
  if decide (currentIndex a <= 0) then a
  else drawCurrentState true (set_currentIndex (currentIndex a - 1) a).

Definition setSpeed (value : Z) (a : t) : t :=
  mk (stateHistory a) (currentIndex a) (isPlaying a) (2100 - value)
     (timer a) (lastLoggedIndex a) (executionLog a) (statusMessage a).

(** The pending timeout fires: [() => this.nextStep()]. *)
Definition timeout (a : t) : t :=
  if timer a then nextStep (set_timer false a) else a.

(** The calls the application makes on a controller. *)
Inductive op : Type :=
  | Play
  | Pause
  | Timeout
  | StepForward
  | StepBackward
  | SetSpeed (value : Z)
  | Draw (suppressLog : bool).

Definition exec (a : t) (o : op) : t :=
  match o with
  | Play => play a
  | Pause => pause a
  | Timeout => timeout a
  | StepForward => stepForward a
  | StepBackward => stepBackward a
  | SetSpeed v => setSpeed v a
  | Draw b => drawCurrentState b a
  end.

Definition exec_all (ops : list op) (a : t) : t := fold_left exec ops a.

(** [startSimulation] draws the first state once the controller is
    built. *)
Definition start (stateHistory : History) : t :=
  drawCurrentState false (new stateHistory).

End Animator.

Import SimulationLogic.

(** * Properties of the array primitives *)

Example indexOf_first : Js.indexOf 3 [5; 3; 7; 3] = 1.
Proof. reflexivity. Qed.

Example indexOf_absent : Js.indexOf 4 [5; 3; 7; 3] = -1.
Proof. reflexivity. Qed.

Example splice1_inside : Js.splice1 1 [5; 3; 7] = [5; 7].
Proof. reflexivity. Qed.

Example splice1_minus_one : Js.splice1 (-1) [5; 3; 7] = [5; 3].
Proof. reflexivity. Qed.

Example array_set_inside :
  Js.array_set [Num 5; Null; Null] 1 (Num 3) = [Num 5; Num 3; Null].
Proof. reflexivity. Qed.

Example array_set_minus_one :
  Js.array_set [Num 5; Num 3] (-1) (Num 7) = [Num 5; Num 3].
Proof. reflexivity. Qed.

Example pop_last : Js.pop [5; 3; 7] = (Num 7, [5; 3]).
Proof. reflexivity. Qed.

Example shift_empty : Js.shift [] = (Undefined, []).
Proof. reflexivity. Qed.

(** Keys that are array indices come first, in ascending order; the
    others follow in creation order. *)
Example keys_order :
  Obj.keys
    (Obj.set (Obj.set (Obj.set (Obj.set [] 5 Js.Infinity) (-1) (Js.Fin 0))
                3 (Js.Fin 2)) 4294967295 (Js.Fin 1))
  = [3; 5; -1; 4294967295].
Proof. by vm_compute. Qed.

(** Among keys of equal value the comparison of [runOptimal] keeps the
    later one. *)
Example reduce_tie :
  let fu := Obj.set (Obj.set (Obj.set [] 2 Js.Infinity) 0 (Js.Fin 1))
              9 Js.Infinity in
  Js.reduce (λ a b, if Js.gt (Obj.get fu a) (Obj.get fu b) then a else b)
    (Obj.keys fu)
  = Ok 9.
Proof. by vm_compute. Qed.

Example run_without_frames_throws :
  run [5; 7] 0 "OPTIMAL" = Throw TypeError
  ∧ run [5; 7] (-1) "FIFO" = Throw RangeError
  ∧ run [5; 7] 3 "fifo" = Throw UnsupportedPolicy.
Proof. by vm_compute. Qed.

Section ArrayFacts.
Context {A : Type} `{EqDecision A}.
Implicit Types (x : A) (arr : list A).

Lemma includes_true x arr : Js.includes x arr = true ↔ x ∈ arr.
Proof. unfold Js.includes. apply bool_decide_eq_true. Qed.

Lemma includes_false x arr : Js.includes x arr = false ↔ x ∉ arr.
Proof. unfold Js.includes. apply bool_decide_eq_false. Qed.

Lemma indexOf_elem x arr :
  x ∈ arr →
  ∃ k : nat, Js.indexOf x arr = Z.of_nat k ∧ arr !! k = Some x
             ∧ ∀ j : nat, (j < k)%nat → arr !! j ≠ Some x.
Proof.
  intros Hin. unfold Js.indexOf.
  destruct (list_find (λ y, y = x) arr) as [[k y]|] eqn:Hf.
  - apply list_find_Some in Hf as (Hk & -> & Hmin).
    exists k. split_and!; [done..|].
    intros j Hj Hl. by apply (Hmin j x).
  - apply list_find_None in Hf. rewrite Forall_forall in Hf.
    by destruct (Hf x Hin).
Qed.

Lemma indexOf_not_elem x arr : x ∉ arr → Js.indexOf x arr = -1.
Proof.
  intros Hin. unfold Js.indexOf.
  destruct (list_find (λ y, y = x) arr) as [[k y]|] eqn:Hf; [|done].
  apply list_find_Some in Hf as (Hk & -> & _).
  destruct Hin. by eapply list_elem_of_lookup_2.
Qed.

Lemma indexOf_range x arr :
  -1 ≤ Js.indexOf x arr < Z.of_nat (length arr).
Proof.
  destruct (decide (x ∈ arr)) as [Hin|Hin].
  - destruct (indexOf_elem _ _ Hin) as (k & -> & Hk & _).
    apply lookup_lt_Some in Hk. lia.
  - rewrite indexOf_not_elem by done. lia.
Qed.

Lemma indexOf_minus_one x arr : Js.indexOf x arr = -1 ↔ x ∉ arr.
Proof.
  split; [|apply indexOf_not_elem].
  intros Hi Hin. destruct (indexOf_elem _ _ Hin) as (k & Hk & _). lia.
Qed.
End ArrayFacts.

Lemma array_set_insert (arr : list value) (k : nat) (x : value) :
  (k < length arr)%nat → Js.array_set arr (Z.of_nat k) x = <[k := x]> arr.
Proof.
  intros Hk. unfold Js.array_set.
  rewrite decide_False by lia. rewrite decide_True by lia.
  by rewrite Nat2Z.id.
Qed.

(** * Numbers and their numerals *)

(** The decimal numeral of an integer. *)
Definition numeral (z : Z) : list N := Input.code_units (pretty z).

Definition blank (s : list N) : Prop := Forall Input.is_space s.

Lemma code_units_String c s :
  Input.code_units (String c s) = Ascii.N_of_ascii c :: Input.code_units s.
Proof. done. Qed.

Lemma code_units_app s1 s2 :
  Input.code_units (s1 +:+ s2) = Input.code_units s1 ++ Input.code_units s2.
Proof.
  induction s1 as [|c s1 IH]; [done|].
  change (String c s1 +:+ s2) with (String c (s1 +:+ s2)).
  rewrite !code_units_String, IH. done.
Qed.

Lemma pretty_N_char_unit (d : N) :
  (d < 10)%N → Ascii.N_of_ascii (pretty_N_char d) = (48 + d)%N.
Proof.
  intros Hd.
  assert (d = 0 ∨ d = 1 ∨ d = 2 ∨ d = 3 ∨ d = 4 ∨ d = 5 ∨ d = 6 ∨ d = 7
          ∨ d = 8 ∨ d = 9)%N as Hc by lia.
  repeat (destruct Hc as [-> | Hc]; [done|]). by subst.
Qed.

Lemma value_from_app acc ds1 ds2 :
  Input.value_from acc (ds1 ++ ds2)
  = Input.value_from (Input.value_from acc ds1) ds2.
Proof. apply fold_left_app. Qed.

(** The digits [pretty_N_go] puts before [s] are digits, and their value
    is the number. *)
Lemma pretty_N_go_units (x : N) (s : string) :
  ∃ ds, Input.code_units (pretty_N_go x s) = ds ++ Input.code_units s
    ∧ Forall Input.is_digit ds
    ∧ (∀ acc, Input.value_from acc ds
              = acc * 10 ^ Z.of_nat (length ds) + Z.of_N x)
    ∧ (0 < x → ds ≠ [])%N.
Proof.
  revert s. induction (N.lt_wf_0 x) as [x _ IH]; intros s.
  assert (x = 0 ∨ 0 < x)%N as [-> | Hx] by lia.
  { exists []. rewrite pretty_N_go_0. split_and!; try done.
    intros acc. simpl. lia. }
  rewrite pretty_N_go_step by done.
  set (d := (x `mod` 10)%N).
  assert (d < 10)%N as Hd by (apply N.mod_lt; lia).
  destruct (IH (x `div` 10)%N (N.div_lt x 10 Hx eq_refl)
              (String (pretty_N_char d) s)) as (ds & Hds & Hdig & Hval & _).
  exists (ds ++ [(48 + d)%N]).
  rewrite Hds, code_units_String, pretty_N_char_unit, <- app_assoc by done.
  split_and!; try done.
  - apply Forall_app. split; [done|].
    apply Forall_singleton. unfold Input.is_digit. lia.
  - intros acc. rewrite value_from_app, Hval, length_app. simpl.
    rewrite Nat2Z.inj_add, Z.pow_add_r by lia.
    pose proof (N.div_mod x 10 ltac:(done)) as Hx10. fold d in Hx10.
    lia.
  - intros _. by destruct ds.
Qed.

Lemma digit_not_space c : Input.is_digit c → ¬ Input.is_space c.
Proof.
  unfold Input.is_digit, Input.is_space, Input.white_space.
  rewrite !elem_of_cons, elem_of_nil. lia.
Qed.

Lemma space_not_comma c : Input.is_space c → c ≠ 44%N.
Proof.
  unfold Input.is_space, Input.white_space.
  rewrite !elem_of_cons, elem_of_nil. lia.
Qed.

(** A numeral is an optional minus sign and a non-empty run of digits
    whose value is the absolute value. *)
Lemma numeral_shape (z : Z) :
  ∃ d ds, Input.is_digit d ∧ Forall Input.is_digit ds
    ∧ Input.value_from 0 (d :: ds) = Z.abs z
    ∧ (0 ≤ z ∧ numeral z = d :: ds ∨ z < 0 ∧ numeral z = 45%N :: d :: ds).
Proof.
  assert (∀ p : positive, ∃ d ds, Input.is_digit d
            ∧ Forall Input.is_digit ds
            ∧ Input.value_from 0 (d :: ds) = Z.pos p
            ∧ Input.code_units (pretty (N.pos p)) = d :: ds) as Hpos.
  { intros p.
    destruct (pretty_N_go_units (N.pos p) "")
      as (ds & Hds & Hdig & Hval & Hne).
    destruct ds as [|d ds]; [by destruct Hne|].
    apply Forall_cons in Hdig as [Hd Hdig].
    exists d, ds. split_and!; try done.
    change (Input.code_units "") with (@nil N) in Hds.
    rewrite app_nil_r in Hds. exact Hds. }
  destruct z as [|p|p].
  - exists 48%N, []. split_and!; try done. by left.
  - destruct (Hpos p) as (d & ds & Hd & Hds & Hval & Hnum).
    exists d, ds. split_and!; try done. by left.
  - destruct (Hpos p) as (d & ds & Hd & Hds & Hval & Hnum).
    exists d, ds. split_and!; try done. right. split; [lia|].
    unfold numeral.
    change (pretty (Z.neg p)) with ("-" +:+ pretty (N.pos p)).
    by rewrite code_units_app, Hnum.
Qed.

Lemma digits_all (ds : list N) :
  Forall Input.is_digit ds → Input.digits ds = ds.
Proof.
  induction 1 as [|d ds Hd _ IH]; [done|].
  simpl. by rewrite decide_True, IH.
Qed.

Lemma trimStart_blank ws s :
  blank ws → Input.trimStart (ws ++ s) = Input.trimStart s.
Proof.
  induction 1 as [|c ws Hc _ IH]; [done|].
  simpl. by rewrite decide_True.
Qed.

Lemma trimStart_head c s :
  ¬ Input.is_space c → Input.trimStart (c :: s) = c :: s.
Proof. intros Hc. simpl. by rewrite decide_False. Qed.

(** [parseInt] reads a numeral as the double nearest to its value. *)
Lemma parseInt_numeral_rounds (z : Z) :
  Input.parseInt (numeral z)
  = Input.to_number (if decide (z < 0) then -1 else 1) (Z.abs z).
Proof.
  destruct (numeral_shape z)
    as (d & ds & Hd & Hds & Hval & [[Hz ->] | [Hz ->]]).
  - unfold Input.parseInt.
    rewrite trimStart_head by by apply digit_not_space.
    unfold Input.is_digit in Hd.
    rewrite !decide_False by lia.
    rewrite (digits_all (d :: ds)) by by constructor.
    by rewrite Hval.
  - unfold Input.parseInt.
    rewrite trimStart_head.
    2:{ unfold Input.is_space, Input.white_space.
        rewrite !elem_of_cons, elem_of_nil. lia. }
    rewrite !decide_True by done.
    rewrite (digits_all (d :: ds)) by by constructor.
    by rewrite Hval.
Qed.

(** Below [2^53] every integer is a double. *)
Lemma round_pos_small (v : Z) : v < 2 ^ 53 → Js.round_pos v = Some v.
Proof.
  intros Hv. unfold Js.round_pos. cbn zeta.
  rewrite decide_True; [done|].
  destruct (decide (0 < v)) as [Hpos | Hneg].
  - apply (Z.log2_lt_pow2 v 53 Hpos) in Hv. lia.
  - rewrite Z.log2_nonpos by lia. lia.
Qed.

(** And nothing else rounds to it. *)
Lemma round_pos_below (v x : Z) :
  Js.round_pos v = Some x → x < 2 ^ 53 → v = x.
Proof.
  unfold Js.round_pos. cbn zeta. intros Hr Hx.
  destruct (decide (Z.log2 v - 52 ≤ 0)) as [He | He]; [congruence|].
  exfalso.
  assert (0 < v) as Hpos.
  { destruct (decide (0 < v)); [done|].
    rewrite Z.log2_nonpos in He by lia. lia. }
  set (e := Z.log2 v - 52) in *.
  pose proof (Z.log2_spec v Hpos) as [Hlo _].
  assert (Z.log2 v = 52 + e) as Hlog by lia.
  rewrite Hlog, Z.pow_add_r in Hlo by lia.
  assert (0 < 2 ^ e) as He2 by (apply Z.pow_pos_nonneg; lia).
  assert (2 ^ 52 ≤ v / 2 ^ e) as Hm.
  { apply Z.div_le_lower_bound; lia. }
  assert (2 ≤ 2 ^ e) as He1.
  { change 2 with (2 ^ 1) at 1. apply Z.pow_le_mono_r; lia. }
  assert (∀ m', v / 2 ^ e ≤ m' → 2 ^ 53 ≤ m' * 2 ^ e) as Hbig.
  { intros m' Hm'. change (2 ^ 53) with (2 ^ 52 * 2). nia. }
  destruct (decide (_ * 2 ^ e < 2 ^ 1024)); [|done].
  injection Hr as Hr.
  assert (∃ m', v / 2 ^ e ≤ m' ∧ x = m' * 2 ^ e) as (m' & Hm' & ->).
  { eexists. split; [|symmetry; exact Hr].
    repeat case_decide; try lia. destruct (Z.even _); lia. }
  specialize (Hbig m' Hm'). lia.
Qed.

Lemma parseInt_numeral (z : Z) :
  Js.safe_integer z → Input.parseInt (numeral z) = Input.Int z.
Proof.
  intros Hz. rewrite parseInt_numeral_rounds. unfold Input.to_number.
  unfold Js.safe_integer in Hz.
  case_decide as H0; [f_equal; lia|].
  rewrite round_pos_small by done. f_equal. case_decide; lia.
Qed.

Lemma shortest_reads (x c t : Z) :
  Js.shortest x = (c, t) → (c, t) = (x, 0) ∨ Js.reads_as x (c, t).
Proof.
  unfold Js.shortest. intros Hs.
  destruct (head _) as [ct|] eqn:Hhead; simpl in Hs; [|by left].
  right. subst ct. apply head_Some_elem_of in Hhead.
  by apply list_elem_of_filter in Hhead as [? _].
Qed.

(** A safe integer prints as its decimal numeral. *)
Lemma toString_safe (z : Z) : Js.safe_integer z → Js.toString z = pretty z.
Proof.
  assert (∀ p : positive, Z.pos p < 2 ^ 53 →
            Js.toString_pos (Z.pos p) = pretty (Z.pos p)) as Hpos.
  { intros p Hp. unfold Js.toString_pos.
    destruct (Js.shortest (Z.pos p)) as [c t] eqn:Hs.
    assert (c * 10 ^ t = Z.pos p) as ->.
    { destruct (shortest_reads _ _ _ Hs) as [[= -> ->] | Hr]; [lia|].
      by apply round_pos_below in Hr. }
    rewrite decide_True; [done|].
    assert (2 ^ 53 < 10 ^ 21) by done. lia. }
  unfold Js.safe_integer. intros Hz. destruct z as [|p|p]; [done| |].
  - apply Hpos. lia.
  - unfold Js.toString. rewrite Hpos by lia. done.
Qed.

(** ** What a key reads back as *)

Lemma round_pos_finite (v : Z) :
  0 < v < 2 ^ 1023 → ∃ w, Js.round_pos v = Some w ∧ 0 < w.
Proof.
  intros [Hpos Hv]. unfold Js.round_pos. cbn zeta.
  destruct (decide (Z.log2 v - 52 ≤ 0)) as [He | He]; [by exists v|].
  set (e := Z.log2 v - 52) in *.
  pose proof (Z.log2_spec v Hpos) as [Hlo _].
  assert (0 < 2 ^ e) as He2 by (apply Z.pow_pos_nonneg; lia).
  assert (2 ^ e ≤ v) as Hev.
  { etrans; [|exact Hlo]. apply Z.pow_le_mono_r; lia. }
  pose proof (Z.div_mod v (2 ^ e) ltac:(lia)) as Hdm.
  pose proof (Z.mod_pos_bound v (2 ^ e) He2) as Hmod.
  assert (0 < v / 2 ^ e) as Hm by (apply Z.div_str_pos; lia).
  set (m := v / 2 ^ e) in *.
  assert (∀ m', m ≤ m' ≤ m + 1 →
            ∃ w, (if decide (m' * 2 ^ e < 2 ^ 1024) then Some (m' * 2 ^ e)
                  else None) = Some w ∧ 0 < w) as Hfit.
  { intros m' Hm'. rewrite decide_True.
    - eexists. split; [done|]. nia.
    - assert (m' * 2 ^ e ≤ 2 * v) by nia.
      assert (2 * 2 ^ 1023 = 2 ^ 1024) by done. lia. }
  match goal with
  | |- context [decide (?x * 2 ^ e < 2 ^ 1024)] =>
      assert (m ≤ x ≤ m + 1) as Hx; [|by apply Hfit]
  end.
  repeat case_decide; try lia. destruct (Z.even m); lia.
Qed.

Lemma to_number_Int (sign v : Z) :
  0 ≤ v < 2 ^ 1023 → ∃ w, Input.to_number sign v = Input.Int w.
Proof.
  intros Hv. unfold Input.to_number. case_decide; [by eexists|].
  destruct (round_pos_finite v) as (w & -> & _); [lia|by eexists].
Qed.

Lemma digits_prefix (ds rest : list N) :
  Forall Input.is_digit ds →
  match rest with c :: _ => ¬ Input.is_digit c | [] => True end →
  Input.digits (ds ++ rest) = ds.
Proof.
  intros Hds Hrest. induction Hds as [|d ds Hd _ IH]; simpl.
  - destruct rest as [|c rest]; [done|]. simpl. by rewrite decide_False.
  - by rewrite decide_True, IH.
Qed.

(** A text that starts with digits, after a minus sign or not, reads as
    the number of those digits. *)
Lemma parseInt_digits (d : N) (ds rest : list N) :
  Input.is_digit d → Forall Input.is_digit ds →
  match rest with c :: _ => ¬ Input.is_digit c | [] => True end →
  Input.parseInt (d :: ds ++ rest)
  = Input.to_number 1 (Input.value_from 0 (d :: ds))
  ∧ Input.parseInt (45%N :: d :: ds ++ rest)
    = Input.to_number (-1) (Input.value_from 0 (d :: ds)).
Proof.
  intros Hd Hds Hrest.
  assert (Input.digits (d :: ds ++ rest) = d :: ds) as Hdig.
  { apply (digits_prefix (d :: ds)); [by constructor|done]. }
  split; unfold Input.parseInt.
  - rewrite trimStart_head by by apply digit_not_space.
    unfold Input.is_digit in Hd.
    rewrite !decide_False by lia.
    rewrite Hdig. done.
  - rewrite trimStart_head.
    2:{ unfold Input.is_space, Input.white_space.
        rewrite !elem_of_cons, elem_of_nil. lia. }
    rewrite decide_True by done. rewrite Hdig. done.
Qed.

Lemma strip_zeros_empty (s : string) :
  Js.strip_zeros s = "" →
  ∀ acc, Input.value_from acc (Input.code_units s)
         = acc * 10 ^ Z.of_nat (String.length s).
Proof.
  induction s as [|a s IH]; intros Hs acc.
  { unfold Input.value_from. simpl. lia. }
  simpl in Hs. case_decide as H0; [|done].
  injection H0 as -> Hstrip.
  rewrite code_units_String.
  change (Ascii.N_of_ascii _) with 48%N.
  unfold Input.value_from in *. cbn [fold_left].
  rewrite (IH Hstrip). cbn [String.length].
  rewrite Nat2Z.inj_succ, Z.pow_succ_r by lia. lia.
Qed.

Lemma shortest_nonneg (x c t : Z) :
  0 < x → Js.shortest x = (c, t) → 0 ≤ c ∧ 0 ≤ t.
Proof.
  intros Hx. unfold Js.shortest. intros Hs.
  destruct (head _) as [ct|] eqn:Hhead; simpl in Hs;
    [|injection Hs as <- <-; lia].
  subst ct. apply head_Some_elem_of in Hhead.
  apply list_elem_of_filter in Hhead as [_ Hin].
  apply list_elem_of_bind in Hin as (j & Hin & _).
  unfold Js.candidates in Hin. cbn zeta in Hin.
  set (t' := Js.digits_of x - j) in *.
  assert (0 < t' → 0 ≤ x / 10 ^ t') as Hlo.
  { intros Ht. apply Z.div_pos; [lia|]. apply Z.pow_pos_nonneg; lia. }
  repeat case_decide;
    try destruct (Z.even _);
    repeat (apply elem_of_cons in Hin as [[= -> ->] | Hin]; [lia|]);
    by apply elem_of_nil in Hin.
Qed.

(** [String] of a positive integer starts with digits that spell a finite
    number, ends there or goes on with a point or an [e]. *)
Lemma toString_pos_shape (p : positive) :
  ∃ d ds rest,
    Input.code_units (Js.toString_pos (Z.pos p)) = d :: ds ++ rest
    ∧ Input.is_digit d ∧ Forall Input.is_digit ds
    ∧ match rest with c :: _ => ¬ Input.is_digit c | [] => True end
    ∧ 0 ≤ Input.value_from 0 (d :: ds) < 2 ^ 1023.
Proof.
  unfold Js.toString_pos.
  destruct (Js.shortest (Z.pos p)) as [c t] eqn:Hs.
  destruct (shortest_nonneg _ _ _ (Pos2Z.is_pos p) Hs) as [Hc Ht].
  assert (0 < 10 ^ t) as H10 by (apply Z.pow_pos_nonneg; lia).
  case_decide as Hv.
  - destruct (numeral_shape (c * 10 ^ t))
      as (d & ds & Hd & Hds & Hval & [[_ Hnum] | [Hneg _]]); [|nia].
    exists d, ds, []. unfold numeral in Hnum.
    rewrite app_nil_r, Hnum, Hval. split_and!; try done; [lia|].
    assert (10 ^ 21 < 2 ^ 1023) by done. lia.
  - assert (0 < c) as Hcpos by nia.
    destruct (numeral_shape c)
      as (d & ds & Hd & Hds & Hval & [[_ Hnum] | [Hneg _]]); [|lia].
    unfold numeral in Hnum.
    destruct (pretty c) as [|a s] eqn:Hpc; [done|].
    rewrite code_units_String in Hnum. injection Hnum as Ha Hsds.
    simpl. case_decide as H0.
    { exfalso. injection H0 as -> Hstrip.
      pose proof (strip_zeros_empty s Hstrip 0) as Hz.
      rewrite Hsds in Hz. rewrite <- Ha in Hval.
      change (Ascii.N_of_ascii _) with 48%N in Hval.
      unfold Input.value_from in *. cbn [fold_left] in Hval.
      change (0 * 10 + (Z.of_N 48 - 48)) with 0 in Hval. lia. }
    assert (0 ≤ Input.value_from 0 [d] < 2 ^ 1023) as Hone.
    { unfold Input.value_from, Input.is_digit in *. simpl.
      assert (2 ^ 4 < 2 ^ 1023) by done. lia. }
    destruct (Js.strip_zeros s) as [|b s'] eqn:Hstrip.
    + exists d, [], (Input.code_units
                      ("e+" +:+ pretty (Js.digits_of (c * 10 ^ t) - 1))).
      rewrite code_units_String, Ha.
      do 3 (split; [done|]). split; [|exact Hone].
      rewrite code_units_app. simpl. unfold Input.is_digit. lia.
    + exists d, [], (Input.code_units
                      ("." +:+ String b s' +:+ "e+"
                       +:+ pretty (Js.digits_of (c * 10 ^ t) - 1))).
      rewrite code_units_String, Ha.
      do 3 (split; [done|]). split; [|exact Hone].
      rewrite code_units_app. simpl. unfold Input.is_digit. lia.
Qed.

(** The key of a page never reads as [NaN] or as [Infinity]. *)
Lemma parseInt_String_Int (z : Z) :
  ∃ w, Input.parseInt (Input.code_units (Js.toString z)) = Input.Int w.
Proof.
  destruct z as [|p|p].
  - by exists 0.
  - destruct (toString_pos_shape p)
      as (d & ds & rest & Hs & Hd & Hds & Hrest & Hval).
    unfold Js.toString. rewrite Hs.
    rewrite (proj1 (parseInt_digits d ds rest Hd Hds Hrest)).
    by apply to_number_Int.
  - destruct (toString_pos_shape p)
      as (d & ds & rest & Hs & Hd & Hds & Hrest & Hval).
    unfold Js.toString. rewrite code_units_app, Hs.
    change (Input.code_units "-") with [45%N]. simpl.
    rewrite (proj2 (parseInt_digits d ds rest Hd Hds Hrest)).
    by apply to_number_Int.
Qed.

(** * Resident pages *)

Lemma pagesInFrames_elem (F : list value) (z : Z) :
  z ∈ pagesInFrames F ↔ Num z ∈ F.
Proof.
  unfold pagesInFrames. rewrite list_elem_of_omap. split.
  - intros ([| |y] & Hy & Heq); simplify_eq. done.
  - intros Hin. by exists (Num z).
Qed.

Lemma pagesInFrames_app (F G : list value) :
  pagesInFrames (F ++ G) = pagesInFrames F ++ pagesInFrames G.
Proof. apply omap_app. Qed.

(** Writing [x] over slot [k] splits the resident pages around it. *)
Lemma insert_split (F : list value) (k : nat) (old x : value) :
  F !! k = Some old →
  F = take k F ++ old :: drop (S k) F
  ∧ <[k := x]> F = take k F ++ x :: drop (S k) F.
Proof.
  intros Hk. split.
  - by rewrite take_drop_middle.
  - apply insert_take_drop. by eapply lookup_lt_Some.
Qed.

(** The frames hold [null] or pages, and no page twice. *)
Definition frames_ok (F : list value) : Prop :=
  Forall (λ v, v ≠ Undefined) F ∧ NoDup (pagesInFrames F).

Lemma frames_ok_replicate (n : nat) : frames_ok (replicate n Null).
Proof.
  split.
  - apply Forall_replicate. done.
  - replace (pagesInFrames (replicate n Null)) with (@nil Z); [constructor|].
    induction n as [|n IH]; simpl; [done|]. exact IH.
Qed.

Lemma pagesInFrames_tail (old : value) (G : list value) (z : Z) :
  z ∈ pagesInFrames G → z ∈ pagesInFrames (old :: G).
Proof. destruct old; simpl; rewrite ?elem_of_cons; auto. Qed.

Lemma pagesInFrames_tail_NoDup (old : value) (G : list value) :
  NoDup (pagesInFrames (old :: G)) → NoDup (pagesInFrames G).
Proof. destruct old; simpl; rewrite ?NoDup_cons; tauto. Qed.

Lemma frames_ok_insert (F : list value) (k : nat) (old : value) (p : Z) :
  frames_ok F → F !! k = Some old → Num p ∉ F →
  frames_ok (<[k := Num p]> F).
Proof.
  intros [Hu Hnd] Hk Hp.
  destruct (insert_split F k old (Num p) Hk) as [HF ->].
  split.
  - rewrite HF in Hu. apply Forall_app in Hu as [Hu1 Hu2].
    apply Forall_cons in Hu2 as [_ Hu2].
    apply Forall_app. split; [done|]. by apply Forall_cons.
  - assert (p ∉ pagesInFrames F) as Hp' by by rewrite pagesInFrames_elem.
    rewrite HF in Hnd, Hp'. revert Hnd Hp'.
    rewrite !pagesInFrames_app. simpl.
    rewrite !NoDup_app. intros (HA & HAB & HB) Hp'.
    split_and!; [done| |].
    + intros z Hz. rewrite elem_of_cons. intros [->|Hz'].
      * apply Hp'. apply elem_of_app. by left.
      * by apply (HAB z Hz), pagesInFrames_tail.
    + apply NoDup_cons. split; [|by eapply pagesInFrames_tail_NoDup].
      intros Hz. apply Hp'. apply elem_of_app. right.
      by apply pagesInFrames_tail.
Qed.

Lemma frames_ok_full (F : list value) :
  frames_ok F → Null ∉ F → length (pagesInFrames F) = length F.
Proof.
  intros [Hu _] Hn. induction F as [|v F IH]; [done|].
  apply Forall_cons in Hu as [Hv Hu]. apply not_elem_of_cons in Hn as [Hv' Hn].
  destruct v; simpl; try done. f_equal. by apply IH.
Qed.

(** * Histories as chains of steps *)

(** What a step starts from: the frames, the helper structure and the
    counters, as the previous state object recorded them. *)
Record Vars : Type := mkVars {
  v_frames : list value;
  v_helper : list Z;
  v_stats : Stats
}.

Definition after (s : State) : Vars :=
  mkVars (frames s) (helperQueue s) (stats s).

Definition initial (frameCount : Z) : Vars :=
  mkVars (replicate (Z.to_nat frameCount) Null) [] (mkStats 0 0 0).

Definition before_from (c : Vars) (h : History) (n : nat) : Vars :=
  match n with
  | O => c
  | S m => from_option after c (h !! m)
  end.

(** The variables before step [n] of a run with [frameCount] frames: the
    all-empty frames for step 0, the previous state object otherwise. *)
Definition before (frameCount : Z) (h : History) (n : nat) : Vars :=
  before_from (initial frameCount) h n.

Section Trace.
Variable R : Vars → Z → Z → State → Prop.

Inductive trace : Vars → Z → list Z → History → Prop :=
  | trace_nil c i : trace c i [] []
  | trace_cons c i p ps s hs :
      R c i p s → trace (after s) (i + 1) ps hs →
      trace c i (p :: ps) (s :: hs).

Lemma trace_length c i ps hs : trace c i ps hs → length hs = length ps.
Proof. induction 1; simpl; congruence. Qed.

Lemma trace_lookup c i ps hs :
  trace c i ps hs →
  ∀ (n : nat) s, hs !! n = Some s →
    ∃ p, ps !! n = Some p ∧ R (before_from c hs n) (i + Z.of_nat n) p s.
Proof.
  induction 1 as [|c i p ps s hs HR Ht IH]; intros n s' Hn; [done|].
  destruct n as [|n].
  - injection Hn as <-. exists p. split; [done|].
    simpl. by rewrite Z.add_0_r.
  - change (hs !! n = Some s') in Hn.
    destruct (IH n s' Hn) as (p' & Hp' & HR').
    exists p'. split; [done|].
    replace (i + Z.of_nat (S n)) with (i + 1 + Z.of_nat n) by lia.
    destruct n as [|n]; [exact HR'|].
    assert (is_Some (hs !! n)) as [s0 Hs0].
    { apply lookup_lt_is_Some. apply lookup_lt_Some in Hn. lia. }
    unfold before_from in *. change ((s :: hs) !! S n) with (hs !! n).
    by rewrite Hs0 in *.
Qed.

Lemma trace_take c i ps hs (n : nat) :
  trace c i ps hs → trace c i (take n ps) (take n hs).
Proof.
  intros Ht. revert n.
  induction Ht as [|c i p ps s hs HR Ht IH]; intros [|n]; simpl;
    try constructor; auto.
Qed.
End Trace.

Lemma trace_impl (R R' : Vars → Z → Z → State → Prop) c i ps hs :
  (∀ c i p s, R c i p s → R' c i p s) →
  trace R c i ps hs → trace R' c i ps hs.
Proof. intros HRR'. induction 1; constructor; auto. Qed.

(** ** What every policy does at a step *)

(** The frames and the evicted page after page [p] is referenced on frames
    [F]: nothing moves on a hit; a miss with an empty slot fills the first
    one; a miss on full frames overwrites the slot of the evicted page. *)
Definition outcome (F : list value) (p : Z) (s : State) : Prop :=
  if decide (Num p ∈ F) then
    frames s = F ∧ pageToEvict s = Null
  else if decide (Null ∈ F) then
    pageToEvict s = Null
    ∧ ∃ k : nat, F !! k = Some Null
        ∧ (∀ j : nat, (j < k)%nat → F !! j ≠ Some Null)
        ∧ frames s = <[k := Num p]> F
  else
    ∃ (v : Z) (k : nat), pageToEvict s = Num v
        ∧ F !! k = Some (Num v)
        ∧ frames s = <[k := Num p]> F.

Record common (c : Vars) (i p : Z) (s : State) : Prop := mkCommon {
  c_step : step s = i;
  c_page : page s = p;
  c_isHit : isHit s = Js.includes (Num p) (v_frames c);
  c_stats :
    stats s = (if isHit s then count_hit else count_fault)
                (count_total (v_stats c));
  c_outcome : outcome (v_frames c) p s
}.

Lemma common_length c i p s :
  common c i p s → length (frames s) = length (v_frames c).
Proof.
  intros [_ _ _ _ Ho]. unfold outcome in Ho.
  repeat case_decide.
  - by destruct Ho as [-> _].
  - destruct Ho as (_ & k & _ & _ & ->). by rewrite length_insert.
  - destruct Ho as (v & k & _ & _ & ->). by rewrite length_insert.
Qed.

Lemma common_frames_ok c i p s :
  frames_ok (v_frames c) → common c i p s → frames_ok (frames s).
Proof.
  intros Hok [_ _ _ _ Ho]. unfold outcome in Ho.
  repeat case_decide.
  - by destruct Ho as [-> _].
  - destruct Ho as (_ & k & Hk & _ & ->). by eapply frames_ok_insert.
  - destruct Ho as (v & k & _ & Hk & ->). by eapply frames_ok_insert.
Qed.

(** ** What a step does whatever page its message names

    As [outcome], but at a miss on full frames the slot written is the one
    [indexOf] finds for whatever [pageToEvict] holds: when no slot holds
    it, the write goes to the property [-1] and the frames stay as they
    are. *)
Definition loose_outcome (F : list value) (p : Z) (s : State) : Prop :=
  if decide (Num p ∈ F) then
    frames s = F ∧ pageToEvict s = Null
  else if decide (Null ∈ F) then
    pageToEvict s = Null
    ∧ ∃ k : nat, F !! k = Some Null
        ∧ (∀ j : nat, (j < k)%nat → F !! j ≠ Some Null)
        ∧ frames s = <[k := Num p]> F
  else
    ∃ v : Z, pageToEvict s = Num v
      ∧ frames s = Js.array_set F (Js.indexOf (Num v) F) (Num p).

Record loose (c : Vars) (i p : Z) (s : State) : Prop := mkLoose {
  w_step : step s = i;
  w_page : page s = p;
  w_isHit : isHit s = Js.includes (Num p) (v_frames c);
  w_stats :
    stats s = (if isHit s then count_hit else count_fault)
                (count_total (v_stats c));
  w_outcome : loose_outcome (v_frames c) p s
}.

(** The write of a replacement: over the slot of [v], or nowhere. *)
Lemma replacement_write (F : list value) (v p : Z) :
  (∃ k : nat, F !! k = Some (Num v)
     ∧ (∀ j : nat, (j < k)%nat → F !! j ≠ Some (Num v))
     ∧ Js.array_set F (Js.indexOf (Num v) F) (Num p) = <[k := Num p]> F)
  ∨ ((Num v ∉ F) ∧ Js.array_set F (Js.indexOf (Num v) F) (Num p) = F).
Proof.
  destruct (decide (Num v ∈ F)) as [Hv | Hv].
  - left. destruct (indexOf_elem _ _ Hv) as (k & -> & Hk & Hmin).
    exists k. split_and!; [done..|].
    apply array_set_insert. by eapply lookup_lt_Some.
  - right. split; [done|].
    rewrite (proj2 (indexOf_minus_one _ _) Hv).
    unfold Js.array_set. by rewrite decide_True by lia.
Qed.

Lemma frames_ok_slot (F : list value) (i j : nat) (z : Z) :
  frames_ok F → F !! i = Some (Num z) → F !! j = Some (Num z) → i = j.
Proof.
  intros [_ Hnd]. revert i j.
  induction F as [|v F IH]; intros i j Hi Hj; [done|].
  assert (NoDup (pagesInFrames F)) as Hnd'
    by by eapply pagesInFrames_tail_NoDup.
  destruct i as [|i], j as [|j]; [done| | |f_equal; by apply IH].
  - injection Hi as ->. simpl in Hnd. apply NoDup_cons in Hnd as [Hz _].
    destruct Hz. apply pagesInFrames_elem.
    by eapply (list_elem_of_lookup_2 F j).
  - injection Hj as ->. simpl in Hnd. apply NoDup_cons in Hnd as [Hz _].
    destruct Hz. apply pagesInFrames_elem.
    by eapply (list_elem_of_lookup_2 F i).
Qed.

Lemma common_loose c i p s :
  frames_ok (v_frames c) → common c i p s → loose c i p s.
Proof.
  intros Hok [Hstep Hpage Hhit Hst Ho]. split; try done.
  unfold outcome in Ho. unfold loose_outcome.
  repeat case_decide; try done.
  destruct Ho as (v & k & Hev & Hk & Hfr). exists v. split; [done|].
  destruct (replacement_write (v_frames c) v p)
    as [(k' & Hk' & _ & ->) | [Hv _]].
  - by rewrite (frames_ok_slot _ _ _ _ Hok Hk' Hk).
  - destruct Hv. by eapply list_elem_of_lookup_2.
Qed.

(** A step is as [common] has it as soon as the page it names as evicted
    is in the frames. *)
Lemma loose_common c i p s :
  loose c i p s →
  (∀ v, pageToEvict s = Num v → Num v ∈ v_frames c) →
  common c i p s.
Proof.
  intros [Hstep Hpage Hhit Hst Ho] Hin. split; try done.
  unfold loose_outcome in Ho. unfold outcome.
  repeat case_decide; try done.
  destruct Ho as (v & Hev & Hfr).
  destruct (replacement_write (v_frames c) v p)
    as [(k & Hk & _ & Hset) | [Hv _]].
  - exists v, k. by rewrite <- Hset.
  - destruct Hv. by apply Hin.
Qed.

Lemma loose_length c i p s :
  loose c i p s → length (frames s) = length (v_frames c).
Proof.
  intros [_ _ _ _ Ho]. unfold loose_outcome in Ho.
  repeat case_decide.
  - by destruct Ho as [-> _].
  - destruct Ho as (_ & k & _ & _ & ->). by rewrite length_insert.
  - destruct Ho as (v & _ & ->).
    destruct (replacement_write (v_frames c) v p)
      as [(k & _ & _ & ->) | [_ ->]]; [|done].
    by rewrite length_insert.
Qed.

Lemma loose_frames_ok c i p s :
  frames_ok (v_frames c) → loose c i p s → frames_ok (frames s).
Proof.
  intros Hok [_ _ _ _ Ho]. unfold loose_outcome in Ho.
  repeat case_decide.
  - by destruct Ho as [-> _].
  - destruct Ho as (_ & k & Hk & _ & ->). by eapply frames_ok_insert.
  - destruct Ho as (v & _ & ->).
    destruct (replacement_write (v_frames c) v p)
      as [(k & Hk & _ & ->) | [_ ->]]; [|done].
    by eapply frames_ok_insert.
Qed.

(** The pages in the frames after a step: the referenced page, or pages
    that were there. *)
Lemma loose_frames_elem c i p s (z : Z) :
  loose c i p s → Num z ∈ frames s → z = p ∨ Num z ∈ v_frames c.
Proof.
  intros [_ _ _ _ Ho] Hz. unfold loose_outcome in Ho.
  assert (∀ (k : nat), (k < length (v_frames c))%nat →
            Num z ∈ <[k := Num p]> (v_frames c) →
            z = p ∨ Num z ∈ v_frames c) as Hins.
  { intros k Hk Hin. apply list_elem_of_lookup in Hin as [j Hj].
    destruct (decide (j = k)) as [-> | Hne].
    - rewrite list_lookup_insert_eq in Hj by done. left. congruence.
    - rewrite list_lookup_insert_ne in Hj by done.
      right. by eapply list_elem_of_lookup_2. }
  repeat case_decide.
  - destruct Ho as [Hfr _]. rewrite Hfr in Hz. by right.
  - destruct Ho as (_ & k & Hk & _ & Hfr). rewrite Hfr in Hz.
    apply (Hins k); [by eapply lookup_lt_Some|done].
  - destruct Ho as (v & _ & Hfr). rewrite Hfr in Hz.
    destruct (replacement_write (v_frames c) v p)
      as [(k & Hk & _ & Hset) | [_ Hset]]; rewrite Hset in Hz.
    + apply (Hins k); [by eapply lookup_lt_Some|done].
    + by right.
Qed.

(** ** FIFO and LRU: the helper structure lists the resident pages *)

Definition linked (c : Vars) : Prop :=
  frames_ok (v_frames c)
  ∧ (0 < length (v_frames c))%nat
  ∧ v_helper c ≡ₚ pagesInFrames (v_frames c).

Lemma linked_initial (frameCount : Z) :
  1 ≤ frameCount → linked (initial frameCount).
Proof.
  intros Hn. unfold linked, initial; simpl. split_and!.
  - apply frames_ok_replicate.
  - rewrite length_replicate. lia.
  - generalize (Z.to_nat frameCount). intros n.
    induction n as [|n IH]; simpl; [done|]. exact IH.
Qed.

Lemma linked_elem c (z : Z) :
  linked c → z ∈ v_helper c ↔ Num z ∈ v_frames c.
Proof. intros (_ & _ & Hp). by rewrite Hp, pagesInFrames_elem. Qed.

Lemma linked_NoDup c : linked c → NoDup (v_helper c).
Proof. intros ([_ Hnd] & _ & Hp). by rewrite Hp. Qed.

(** On full frames the helper structure has as many entries as there are
    frames; in particular it is not empty. *)
Lemma linked_full c :
  linked c → Null ∉ v_frames c → length (v_helper c) = length (v_frames c).
Proof.
  intros (Hok & _ & Hp) Hn. rewrite Hp. by apply frames_ok_full.
Qed.

Lemma linked_not_full c :
  linked c → Null ∈ v_frames c →
  (length (v_helper c) < length (v_frames c))%nat.
Proof.
  intros (_ & _ & Hp) Hn. rewrite Hp. clear Hp.
  induction (v_frames c) as [|v F IH]; [by apply elem_of_nil in Hn|].
  assert (length (pagesInFrames F) ≤ length F)%nat as Hle.
  { clear. induction F as [|[]]; simpl; lia. }
  apply elem_of_cons in Hn as [<-|Hn]; simpl; [lia|].
  specialize (IH Hn). destruct v; simpl; lia.
Qed.

(** Overwriting the slot of [old] with page [p] keeps the link, whatever
    the order in which the helper structure holds the other pages. *)
Lemma linked_load_null F (k : nat) (p : Z) (q q' : list Z) st st' :
  linked (mkVars F q st) → F !! k = Some Null → Num p ∉ F →
  q' ≡ₚ p :: q →
  linked (mkVars (<[k := Num p]> F) q' st').
Proof.
  intros (Hok & Hlen & Hp) Hk Hnp Hq'. unfold linked in *; simpl in *.
  split_and!.
  - by eapply frames_ok_insert.
  - by rewrite length_insert.
  - destruct (insert_split F k Null (Num p) Hk) as [HF ->].
    rewrite Hq', Hp. rewrite HF at 1.
    rewrite !pagesInFrames_app. simpl.
    by rewrite Permutation_middle.
Qed.

Lemma linked_replace F (k : nat) (v p : Z) (q rest q' : list Z) st st' :
  linked (mkVars F q st) → F !! k = Some (Num v) → Num p ∉ F →
  q ≡ₚ v :: rest → q' ≡ₚ p :: rest →
  linked (mkVars (<[k := Num p]> F) q' st').
Proof.
  intros (Hok & Hlen & Hp) Hk Hnp Hq Hq'. unfold linked in *; simpl in *.
  split_and!.
  - by eapply frames_ok_insert.
  - by rewrite length_insert.
  - destruct (insert_split F k (Num v) (Num p) Hk) as [HF ->].
    rewrite Hq'. rewrite !pagesInFrames_app. simpl.
    rewrite <- Permutation_middle. f_equiv.
    apply (Permutation_cons_inv (a := v)).
    rewrite <- Hq, Hp. rewrite HF at 1.
    rewrite !pagesInFrames_app. simpl.
    by rewrite Permutation_middle.
Qed.

(** *** FIFO *)

(** The queue after page [p] is referenced: untouched on a hit, [p] at the
    back on a miss, the front removed and evicted when the frames are
    full. *)
Definition fifo_queue (c : Vars) (p : Z) (s : State) : Prop :=
  if decide (Num p ∈ v_frames c) then
    helperQueue s = v_helper c
  else if decide (Null ∈ v_frames c) then
    helperQueue s = v_helper c ++ [p]
  else
    ∃ (v : Z) (rest : list Z), v_helper c = v :: rest
      ∧ pageToEvict s = Num v
      ∧ helperQueue s = rest ++ [p].

Definition fifo_step (c : Vars) (i p : Z) (s : State) : Prop :=
  linked c ∧ common c i p s ∧ fifo_queue c p s ∧ linked (after s).

Definition vars_of (l : Loop) : Vars :=
  mkVars (l_frames l) (l_queue l) (l_stats l).

(** The state object a callback pushes is the witness of its step. *)
Ltac give_state :=
  lazymatch goal with
  | |- ∃ s, Ok (_ _ (Js.push ?x _) _) = _ ∧ _ =>
      exists x; split; [reflexivity|]
  | |- ∃ s, Ok (_ _ _ (Js.push ?x _) _) = _ ∧ _ =>
      exists x; split; [reflexivity|]
  end.

Lemma fifo_callback_spec (l : Loop) (p i : Z) :
  linked (vars_of l) →
  ∃ s, fifo_callback l p i
       = Ok (mkLoop (frames s) (helperQueue s) (l_history l ++ [s]) (stats s))
     ∧ fifo_step (vars_of l) i p s.
Proof.
  intros Hl. unfold fifo_callback, fifo_step, fifo_queue.
  destruct l as [F q h st]; simpl in *.
  destruct (Js.includes (Num p) F) eqn:Hhit.
  { give_state.
    apply includes_true in Hhit.
    split_and!; [done| |by rewrite decide_True|exact Hl].
    constructor; simpl; try done.
    - symmetry. by apply includes_true.
    - unfold outcome; simpl. by rewrite decide_True. }
  apply includes_false in Hhit.
  destruct (Js.includes Null F) eqn:Hnull.
  { apply includes_true in Hnull.
    destruct (indexOf_elem _ _ Hnull) as (k & -> & Hk & Hmin).
    rewrite array_set_insert by by eapply lookup_lt_Some.
    give_state. simpl.
    split_and!; [done| | |].
    - constructor; simpl; try done.
      + symmetry. by apply includes_false.
      + unfold outcome; simpl.
        rewrite decide_False, decide_True by done. eauto.
    - by rewrite decide_False, decide_True by done.
    - eapply (linked_load_null F k p q _ st); [exact Hl|done..|].
      simpl. apply (Permutation_app_comm q [p]). }
  apply includes_false in Hnull.
  assert (length q = length F) as Hlen by exact (linked_full _ Hl Hnull).
  destruct Hl as (Hok & Hpos & Hperm); simpl in *.
  destruct q as [|v rest]; [simpl in Hlen; lia|]. simpl.
  assert (Num v ∈ F) as Hv.
  { apply pagesInFrames_elem. rewrite <- Hperm. apply elem_of_cons; auto. }
  destruct (indexOf_elem _ _ Hv) as (k & -> & Hk & Hmin).
  rewrite array_set_insert by by eapply lookup_lt_Some.
  give_state. simpl.
  split_and!; [done| | |].
  - constructor; simpl; try done.
    + symmetry. by apply includes_false.
    + unfold outcome; simpl.
      rewrite !decide_False by done. eauto.
  - rewrite !decide_False by done. eauto.
  - eapply (linked_replace F k v p (v :: rest) rest _ st); [done..|].
    simpl. apply (Permutation_app_comm rest [p]).
Qed.

Lemma fifo_forEach (ps : list Z) :
  ∀ (i : Z) (l : Loop), linked (vars_of l) →
    ∃ hs l', Js.forEach_from fifo_callback ps i l = Ok l'
             ∧ l_history l' = l_history l ++ hs
             ∧ trace fifo_step (vars_of l) i ps hs.
Proof.
  induction ps as [|p ps IH]; intros i l Hl; simpl.
  - exists [], l. split_and!; [done| |constructor]. by rewrite app_nil_r.
  - destruct (fifo_callback_spec l p i Hl) as (s & -> & Hs).
    assert (linked (after s)) as Hl' by apply Hs.
    simpl.
    destruct (IH (i + 1) (mkLoop (frames s) (helperQueue s)
                            (l_history l ++ [s]) (stats s)) Hl')
      as (hs & l' & -> & Hh & Ht).
    exists (s :: hs), l'. split_and!; [done| |].
    + rewrite Hh. simpl. by rewrite <- app_assoc.
    + by constructor.
Qed.

Lemma runFIFO_trace (pages : list Z) (frameCount : Z) :
  1 ≤ frameCount ≤ 10 →
  ∃ h, runFIFO pages frameCount = Ok h
       ∧ trace fifo_step (initial frameCount) 0 pages h.
Proof.
  intros Hn. unfold runFIFO, Js.new_Array_fill_null, Js.forEach.
  rewrite decide_True by lia. simpl.
  destruct (fifo_forEach pages 0
              (mkLoop (replicate (Z.to_nat frameCount) Null) [] []
                 (mkStats 0 0 0)))
    as (hs & l' & -> & Hh & Ht).
  { apply (linked_initial frameCount). lia. }
  simpl. exists hs. split; [by rewrite Hh|done].
Qed.

(** *** LRU *)

Lemma filter_ne_id (p : Z) (l : list Z) :
  p ∉ l → filter (λ q, q ≠ p) l = l.
Proof.
  induction l as [|x l IH]; intros Hp; [done|].
  apply not_elem_of_cons in Hp as [Hx Hp].
  rewrite filter_cons_True by done. by rewrite IH.
Qed.

(** In a list without repetition, deleting the slot of [p] leaves the
    entries other than [p], in their order. *)
Lemma delete_filter_ne (p : Z) (l : list Z) (k : nat) :
  NoDup l → l !! k = Some p → delete k l = filter (λ q, q ≠ p) l.
Proof.
  intros Hnd Hk.
  rewrite delete_take_drop.
  pose proof (take_drop_middle l k p Hk) as Hsplit.
  rewrite <- Hsplit in Hnd.
  apply NoDup_app in Hnd as (_ & Hpre & Hsuf).
  apply NoDup_cons in Hsuf as [Hsuf _].
  rewrite <- Hsplit at 3.
  rewrite filter_app, filter_cons_False by tauto.
  rewrite !filter_ne_id; [done|done|].
  intros Hin. apply (Hpre p Hin). by left.
Qed.

(** The stack after page [p] is referenced: [p] goes on top; on a hit the
    other pages keep their order, on full frames the bottom page is
    removed and evicted. *)
Definition lru_stack (c : Vars) (p : Z) (s : State) : Prop :=
  if decide (Num p ∈ v_frames c) then
    helperQueue s = p :: filter (λ q, q ≠ p) (v_helper c)
  else if decide (Null ∈ v_frames c) then
    helperQueue s = p :: v_helper c
  else
    ∃ (v : Z) (front : list Z), v_helper c = front ++ [v]
      ∧ pageToEvict s = Num v
      ∧ helperQueue s = p :: front.

Definition lru_step (c : Vars) (i p : Z) (s : State) : Prop :=
  linked c ∧ common c i p s ∧ lru_stack c p s ∧ linked (after s).

Lemma splice1_delete {A : Type} (arr : list A) (k : nat) :
  (k < length arr)%nat → Js.splice1 (Z.of_nat k) arr = delete k arr.
Proof.
  intros Hk. unfold Js.splice1.
  rewrite decide_False by lia.
  rewrite Z.min_l by lia. by rewrite Nat2Z.id.
Qed.

Lemma pop_snoc (front : list Z) (v : Z) :
  Js.pop (front ++ [v]) = (Num v, front).
Proof.
  unfold Js.pop. rewrite last_snoc. by rewrite removelast_last.
Qed.

Lemma lru_callback_spec (l : Loop) (p i : Z) :
  linked (vars_of l) →
  ∃ s, lru_callback l p i
       = Ok (mkLoop (frames s) (helperQueue s) (l_history l ++ [s]) (stats s))
     ∧ lru_step (vars_of l) i p s.
Proof.
  intros Hl. unfold lru_callback, lru_step, lru_stack.
  destruct l as [F q h st]; simpl in *.
  destruct (Js.includes (Num p) F) eqn:Hhit.
  { apply includes_true in Hhit.
    assert (p ∈ q) as Hq by by apply (linked_elem _ p Hl).
    assert (NoDup q) as Hnd by exact (linked_NoDup _ Hl).
    destruct (indexOf_elem _ _ Hq) as (k & -> & Hk & _).
    rewrite splice1_delete by by eapply lookup_lt_Some.
    give_state. simpl.
    split_and!; [done| | |].
    - constructor; simpl; try done.
      + symmetry. by apply includes_true.
      + unfold outcome; simpl. by rewrite decide_True.
    - rewrite decide_True by done. unfold Js.unshift.
      by rewrite (delete_filter_ne p q k).
    - destruct Hl as (Hok & Hpos & Hperm). split_and!; [done..|].
      simpl in *. rewrite <- Hperm. unfold Js.unshift.
      symmetry. by apply delete_Permutation. }
  apply includes_false in Hhit.
  destruct (Js.includes Null F) eqn:Hnull.
  { apply includes_true in Hnull.
    destruct (indexOf_elem _ _ Hnull) as (k & -> & Hk & Hmin).
    rewrite array_set_insert by by eapply lookup_lt_Some.
    give_state. simpl.
    split_and!; [done| | |].
    - constructor; simpl; try done.
      + symmetry. by apply includes_false.
      + unfold outcome; simpl.
        rewrite decide_False, decide_True by done. eauto.
    - by rewrite decide_False, decide_True by done.
    - by eapply (linked_load_null F k p q _ st); [exact Hl|..]. }
  apply includes_false in Hnull.
  assert (length q = length F) as Hlen by exact (linked_full _ Hl Hnull).
  destruct Hl as (Hok & Hpos & Hperm); simpl in *.
  destruct (last q) as [v|] eqn:Hlast; cycle 1.
  { apply last_None in Hlast. subst q. simpl in Hlen. lia. }
  apply last_Some in Hlast as [front ->].
  rewrite pop_snoc.
  assert (Num v ∈ F) as Hv.
  { apply pagesInFrames_elem. rewrite <- Hperm.
    apply elem_of_app. right. by left. }
  destruct (indexOf_elem _ _ Hv) as (k & -> & Hk & Hmin).
  rewrite array_set_insert by by eapply lookup_lt_Some.
  give_state. simpl.
  split_and!; [done| | |].
  - constructor; simpl; try done.
    + symmetry. by apply includes_false.
    + unfold outcome; simpl.
      rewrite !decide_False by done. eauto.
  - rewrite !decide_False by done. eauto.
  - eapply (linked_replace F k v p (front ++ [v]) front _ st); [done..| |done].
    apply (Permutation_app_comm front [v]).
Qed.

Lemma lru_forEach (ps : list Z) :
  ∀ (i : Z) (l : Loop), linked (vars_of l) →
    ∃ hs l', Js.forEach_from lru_callback ps i l = Ok l'
             ∧ l_history l' = l_history l ++ hs
             ∧ trace lru_step (vars_of l) i ps hs.
Proof.
  induction ps as [|p ps IH]; intros i l Hl; simpl.
  - exists [], l. split_and!; [done| |constructor]. by rewrite app_nil_r.
  - destruct (lru_callback_spec l p i Hl) as (s & -> & Hs).
    assert (linked (after s)) as Hl' by apply Hs.
    simpl.
    destruct (IH (i + 1) (mkLoop (frames s) (helperQueue s)
                            (l_history l ++ [s]) (stats s)) Hl')
      as (hs & l' & -> & Hh & Ht).
    exists (s :: hs), l'. split_and!; [done| |].
    + rewrite Hh. simpl. by rewrite <- app_assoc.
    + by constructor.
Qed.

Lemma runLRU_trace (pages : list Z) (frameCount : Z) :
  1 ≤ frameCount ≤ 10 →
  ∃ h, runLRU pages frameCount = Ok h
       ∧ trace lru_step (initial frameCount) 0 pages h.
Proof.
  intros Hn. unfold runLRU, Js.new_Array_fill_null, Js.forEach.
  rewrite decide_True by lia. simpl.
  destruct (lru_forEach pages 0
              (mkLoop (replicate (Z.to_nat frameCount) Null) [] []
                 (mkStats 0 0 0)))
    as (hs & l' & -> & Hh & Ht).
  { apply (linked_initial frameCount). lia. }
  simpl. exists hs. split; [by rewrite Hh|done].
Qed.

(** * Properties of objects and of [reduce] *)

Lemma Obj_get_set (o : Obj.t) (k k' : Z) (v : Js.num) :
  Obj.get (Obj.set o k v) k'
  = if decide (k = k') then Some v else Obj.get o k'.
Proof.
  induction o as [|[k0 v0] o IH]; simpl.
  - repeat case_decide; congruence.
  - repeat (case_decide; simpl); try congruence.
Qed.

Lemma Obj_set_dom (o : Obj.t) (k k' : Z) (v : Js.num) :
  k' ∈ (Obj.set o k v).*1 ↔ k' = k ∨ k' ∈ o.*1.
Proof.
  induction o as [|[k0 v0] o IH]; simpl.
  - rewrite list_elem_of_singleton, elem_of_nil. tauto.
  - case_decide; simpl; rewrite !elem_of_cons; [subst; tauto|].
    rewrite IH. tauto.
Qed.

Lemma Obj_keys_elem (o : Obj.t) (k : Z) : k ∈ Obj.keys o ↔ k ∈ o.*1.
Proof.
  unfold Obj.keys. rewrite elem_of_app, merge_sort_Permutation.
  rewrite !list_elem_of_filter.
  destruct (decide (Obj.is_array_index k)); tauto.
Qed.

(** [a <= b] on the numbers of [futureUses], through the [>] of the
    source. *)
Definition num_le (a b : Js.num) : Prop := Js.gt (Some a) (Some b) = false.

Lemma num_le_refl a : num_le a a.
Proof.
  unfold num_le. destruct a; simpl; [|done].
  apply bool_decide_eq_false. lia.
Qed.

Lemma num_le_trans a b c : num_le a b → num_le b c → num_le a c.
Proof.
  unfold num_le. destruct a, b, c; simpl; try done.
  rewrite !bool_decide_eq_false. lia.
Qed.

Lemma num_gt_le a b : Js.gt (Some a) (Some b) = true → num_le b a.
Proof.
  unfold num_le. destruct a, b; simpl; try done.
  rewrite bool_decide_eq_true, bool_decide_eq_false. lia.
Qed.

Section Reduce.
Variables (g : Z → option Js.num) (d : Z → Js.num).

Let pick (a b : Z) : Z := if Js.gt (g a) (g b) then a else b.

Lemma fold_pick_max (rest : list Z) :
  ∀ a, g a = Some (d a) → (∀ k, k ∈ rest → g k = Some (d k)) →
    let r := fold_left pick rest a in
    r ∈ a :: rest ∧ ∀ k, k ∈ a :: rest → num_le (d k) (d r).
Proof.
  induction rest as [|b rest IH]; intros a Ha Hrest; simpl.
  - split; [by left|]. intros k Hk%list_elem_of_singleton. subst.
    apply num_le_refl.
  - assert (g b = Some (d b)) as Hb by (apply Hrest; by left).
    assert (pick a b ∈ [a; b] ∧ num_le (d a) (d (pick a b))
            ∧ num_le (d b) (d (pick a b))) as (Hin & Hla & Hlb).
    { unfold pick. rewrite Ha, Hb.
      destruct (Js.gt (Some (d a)) (Some (d b))) eqn:Hgt.
      - split_and!; [by left|apply num_le_refl|by apply num_gt_le].
      - split_and!; [right; by left|done|apply num_le_refl]. }
    destruct (IH (pick a b)) as [Hr Hmax].
    { unfold pick. by destruct (Js.gt (g a) (g b)). }
    { intros k Hk. apply Hrest. by right. }
    split.
    + apply elem_of_cons in Hr as [Hr|Hr].
      * rewrite Hr.
        apply elem_of_cons in Hin as [Hin|Hin%list_elem_of_singleton];
          rewrite Hin; [by left|right; by left].
      * right. by right.
    + intros k Hk.
      assert (num_le (d (pick a b)) (d (fold_left pick rest (pick a b))))
        as Htop by (apply Hmax; by left).
      apply elem_of_cons in Hk as [->|Hk];
        [by eapply num_le_trans|].
      apply elem_of_cons in Hk as [->|Hk];
        [by eapply num_le_trans|].
      apply Hmax. by right.
Qed.

(** [reduce] with the comparison of [runOptimal] picks a key of maximal
    value, and throws only on no key at all. *)
Lemma reduce_pick_max (ks : list Z) :
  ks ≠ [] → (∀ k, k ∈ ks → g k = Some (d k)) →
  ∃ r, Js.reduce pick ks = Ok r ∧ r ∈ ks
       ∧ ∀ k, k ∈ ks → num_le (d k) (d r).
Proof.
  intros Hne Hks. destruct ks as [|a rest]; [done|].
  exists (fold_left pick rest a). split; [done|].
  apply fold_pick_max.
  - apply Hks. by left.
  - intros k Hk. apply Hks. by right.
Qed.
End Reduce.

(** ** OPTIMAL *)

(** Where page [q] is next referenced after step [i]: its index in
    [pages.slice(i + 1)], or [-1] when it is never referenced again. *)
Definition next_use (pages : list Z) (i q : Z) : Z :=
  Js.indexOf q (Js.slice (i + 1) pages).

Definition distance (pages : list Z) (i q : Z) : Js.num :=
  if decide (next_use pages i q = -1) then Js.Infinity
  else Js.Fin (next_use pages i q).

Lemma futureUses_fold (pages : list Z) (i : Z) (resident : list Z) :
  ∀ o : Obj.t,
    let fu :=
      fold_left
        (λ o p,
           let nextUse := Js.indexOf p (Js.slice (i + 1) pages) in
           Obj.set o p (if decide (nextUse = -1) then Js.Infinity
                        else Js.Fin nextUse))
        resident o in
    (∀ k, Obj.get fu k = if decide (k ∈ resident)
                          then Some (distance pages i k) else Obj.get o k)
    ∧ (∀ k, k ∈ fu.*1 ↔ k ∈ resident ∨ k ∈ o.*1).
Proof.
  induction resident as [|p resident IH]; intros o; cbn [fold_left].
  - split; intros k.
    + rewrite decide_False; [done|apply not_elem_of_nil].
    + rewrite elem_of_nil. tauto.
  - destruct (IH (Obj.set o p
                    (if decide (Js.indexOf p (Js.slice (i + 1) pages) = -1)
                     then Js.Infinity
                     else Js.Fin (Js.indexOf p (Js.slice (i + 1) pages)))))
      as [Hget Hdom].
    split; intros k.
    + rewrite Hget. rewrite Obj_get_set.
      destruct (decide (k ∈ resident)) as [Hk|Hk].
      * rewrite decide_True; [done|by right].
      * destruct (decide (k ∈ p :: resident)) as [Hk'|Hk'].
        -- apply elem_of_cons in Hk' as [->|Hk']; [|done].
           by rewrite decide_True.
        -- apply not_elem_of_cons in Hk' as [Hpk _].
           by rewrite decide_False.
    + rewrite Hdom, Obj_set_dom, elem_of_cons. tauto.
Qed.

Lemma futureUses_get (pages : list Z) (i : Z) (resident : list Z) (k : Z) :
  k ∈ resident →
  Obj.get (futureUses pages i resident) k = Some (distance pages i k).
Proof.
  intros Hk. unfold futureUses.
  destruct (futureUses_fold pages i resident []) as [Hget _].
  rewrite Hget. by rewrite decide_True.
Qed.

Lemma futureUses_keys (pages : list Z) (i : Z) (resident : list Z) (k : Z) :
  k ∈ Obj.keys (futureUses pages i resident) ↔ k ∈ resident.
Proof.
  rewrite Obj_keys_elem. unfold futureUses.
  destruct (futureUses_fold pages i resident []) as [_ Hdom].
  rewrite Hdom. simpl. rewrite elem_of_nil. tauto.
Qed.

Lemma distance_le (pages : list Z) (i q v : Z) :
  num_le (distance pages i q) (distance pages i v) ↔
  next_use pages i v = -1
  ∨ 0 ≤ next_use pages i q ≤ next_use pages i v.
Proof.
  unfold num_le, distance.
  pose proof (indexOf_range q (Js.slice (i + 1) pages)) as Hq.
  pose proof (indexOf_range v (Js.slice (i + 1) pages)) as Hv.
  fold (next_use pages i q) in Hq. fold (next_use pages i v) in Hv.
  repeat case_decide; simpl; rewrite ?bool_decide_eq_false;
    split; try done; try lia; auto.
Qed.

(** The key [reduce] ends on at a replacement: a page of the frames, and
    no page of the frames is next referenced later than it, a page never
    referenced again counting as later than any page that is.  The page
    named as evicted is what that key reads back as. *)
Definition opt_key (pages : list Z) (c : Vars) (i p : Z) (s : State)
    : Prop :=
  helperQueue s = Js.slice (i + 1) pages
  ∧ (Num p ∉ v_frames c → Null ∉ v_frames c →
     ∃ key : Z, Num key ∈ v_frames c
       ∧ (∀ q : Z, Num q ∈ v_frames c →
            next_use pages i key = -1
            ∨ 0 ≤ next_use pages i q ≤ next_use pages i key)
       ∧ pageToEvict s = Num (Input.parseInt_String key)).

Definition opt_loose_step (pages : list Z) (c : Vars) (i p : Z) (s : State)
    : Prop :=
  frames_ok (v_frames c) ∧ (0 < length (v_frames c))%nat
  ∧ loose c i p s ∧ opt_key pages c i p s.

(** The victim of a replacement: a resident page, and no resident page is
    next referenced later than it, a page never referenced again counting
    as later than any page that is. *)
Definition opt_victim (pages : list Z) (c : Vars) (i p : Z) (s : State)
    : Prop :=
  helperQueue s = Js.slice (i + 1) pages
  ∧ (Num p ∉ v_frames c → Null ∉ v_frames c →
     ∃ v : Z, pageToEvict s = Num v ∧ Num v ∈ v_frames c
       ∧ ∀ q : Z, Num q ∈ v_frames c →
           next_use pages i v = -1
           ∨ 0 ≤ next_use pages i q ≤ next_use pages i v).

Definition opt_step (pages : list Z) (c : Vars) (i p : Z) (s : State)
    : Prop :=
  frames_ok (v_frames c) ∧ (0 < length (v_frames c))%nat
  ∧ common c i p s ∧ opt_victim pages c i p s.

Lemma optimal_callback_spec (pages : list Z) (l : OLoop) (p i : Z)
    (helper : list Z) :
  frames_ok (o_frames l) → (0 < length (o_frames l))%nat →
  ∃ s, optimal_callback pages l p i
       = Ok (mkOLoop (frames s) (o_history l ++ [s]) (stats s))
     ∧ opt_loose_step pages (mkVars (o_frames l) helper (o_stats l)) i p s.
Proof.
  intros Hok Hpos. unfold optimal_callback, opt_loose_step, opt_key.
  destruct l as [F h st]; simpl in *.
  destruct (Js.includes (Num p) F) eqn:Hhit.
  { give_state. simpl.
    apply includes_true in Hhit.
    split_and!; [done..| |done|tauto].
    constructor; simpl; try done.
    - symmetry. by apply includes_true.
    - unfold loose_outcome; simpl. by rewrite decide_True. }
  apply includes_false in Hhit.
  destruct (Js.includes Null F) eqn:Hnull.
  { apply includes_true in Hnull.
    destruct (indexOf_elem _ _ Hnull) as (k & -> & Hk & Hmin).
    rewrite array_set_insert by by eapply lookup_lt_Some.
    give_state. simpl.
    split_and!; [done..| |done|tauto].
    constructor; simpl; try done.
    - symmetry. by apply includes_false.
    - unfold loose_outcome; simpl.
      rewrite decide_False, decide_True by done. eauto. }
  apply includes_false in Hnull.
  destruct (reduce_pick_max
              (Obj.get (futureUses pages i (pagesInFrames F)))
              (distance pages i)
              (Obj.keys (futureUses pages i (pagesInFrames F))))
    as (v & -> & Hv & Hmax).
  { intros Hnil.
    assert (length (pagesInFrames F) = length F) as Hlen
      by by apply frames_ok_full.
    destruct (pagesInFrames F) as [|z zs] eqn:HF; [simpl in Hlen; lia|].
    assert (z ∈ Obj.keys (futureUses pages i (z :: zs))) as Hz
      by (apply futureUses_keys; by left).
    rewrite Hnil in Hz. by apply elem_of_nil in Hz. }
  { intros k Hk. apply futureUses_get. by apply futureUses_keys in Hk. }
  simpl.
  apply futureUses_keys, pagesInFrames_elem in Hv.
  give_state. simpl.
  split_and!; [done..| |done|].
  - constructor; simpl; try done.
    + symmetry. by apply includes_false.
    + unfold loose_outcome; simpl.
      rewrite !decide_False by done. eauto.
  - intros _ _. exists v. split_and!; [done| |done].
    intros q Hq. apply distance_le. apply Hmax.
    by apply futureUses_keys, pagesInFrames_elem.
Qed.

Lemma optimal_forEach (pages ps : list Z) :
  ∀ (i : Z) (l : OLoop) (helper : list Z),
    frames_ok (o_frames l) → (0 < length (o_frames l))%nat →
    ∃ hs l', Js.forEach_from (optimal_callback pages) ps i l = Ok l'
             ∧ o_history l' = o_history l ++ hs
             ∧ trace (opt_loose_step pages)
                 (mkVars (o_frames l) helper (o_stats l)) i ps hs.
Proof.
  induction ps as [|p ps IH]; intros i l helper Hok Hpos; simpl.
  - exists [], l. split_and!; [done| |constructor]. by rewrite app_nil_r.
  - destruct (optimal_callback_spec pages l p i helper Hok Hpos)
      as (s & -> & Hs).
    simpl.
    destruct (IH (i + 1) (mkOLoop (frames s) (o_history l ++ [s]) (stats s))
                (helperQueue s))
      as (hs & l' & -> & Hh & Ht).
    { destruct Hs as (_ & _ & Hc & _). by eapply loose_frames_ok in Hc. }
    { destruct Hs as (_ & _ & Hc & _).
      apply loose_length in Hc. simpl in *. lia. }
    exists (s :: hs), l'. split_and!; [done| |].
    + rewrite Hh. simpl. by rewrite <- app_assoc.
    + by constructor.
Qed.

Lemma runOptimal_loose_trace (pages : list Z) (frameCount : Z) :
  1 ≤ frameCount ≤ 10 →
  ∃ h, runOptimal pages frameCount = Ok h
       ∧ trace (opt_loose_step pages) (initial frameCount) 0 pages h.
Proof.
  intros Hn. unfold runOptimal, Js.new_Array_fill_null, Js.forEach.
  rewrite decide_True by lia. simpl.
  destruct (optimal_forEach pages pages 0
              (mkOLoop (replicate (Z.to_nat frameCount) Null) []
                 (mkStats 0 0 0)) [])
    as (hs & l' & -> & Hh & Ht).
  { apply frames_ok_replicate. }
  { simpl. rewrite length_replicate. lia. }
  simpl. exists hs. split; [by rewrite Hh|done].
Qed.

(** *** Pages whose key reads back as the page *)

Definition round_trips (z : Z) : Prop := Input.parseInt_String z = z.

Lemma safe_round_trips (z : Z) : Js.safe_integer z → round_trips z.
Proof.
  intros Hz. unfold round_trips, Input.parseInt_String.
  rewrite toString_safe by done. fold (numeral z).
  by rewrite parseInt_numeral.
Qed.

Lemma safe_pages_round_trip (pages : list Z) :
  Forall Js.safe_integer pages → Forall round_trips pages.
Proof. intros Hp. eapply Forall_impl; [exact Hp|]. apply safe_round_trips. Qed.

Lemma opt_loose_strict (pages : list Z) c i p s :
  (∀ z, Num z ∈ v_frames c → round_trips z) →
  opt_loose_step pages c i p s → opt_step pages c i p s.
Proof.
  intros Hrt (Hok & Hpos & Hl & Hq & Hkey).
  assert (Num p ∉ v_frames c → Null ∉ v_frames c →
          ∃ v : Z, pageToEvict s = Num v ∧ Num v ∈ v_frames c
            ∧ ∀ q : Z, Num q ∈ v_frames c →
                next_use pages i v = -1
                ∨ 0 ≤ next_use pages i q ≤ next_use pages i v) as Hv.
  { intros Hp Hnull. destruct (Hkey Hp Hnull) as (key & Hin & Hfar & Hev).
    rewrite (Hrt key Hin) in Hev. by exists key. }
  split_and!; [done..| |by split].
  apply loose_common; [done|]. intros v Hev.
  pose proof Hl as [_ _ _ _ Ho]. unfold loose_outcome in Ho.
  destruct (decide (Num p ∈ v_frames c)) as [Hp | Hp].
  { destruct Ho as [_ Ho]. congruence. }
  destruct (decide (Null ∈ v_frames c)) as [Hnull | Hnull].
  { destruct Ho as [Ho _]. congruence. }
  destruct (Hv Hp Hnull) as (v' & Hev' & Hin & _). congruence.
Qed.

Lemma opt_trace_strict (pages : list Z) c i ps hs :
  trace (opt_loose_step pages) c i ps hs →
  (∀ z, Num z ∈ v_frames c → round_trips z) → Forall round_trips ps →
  trace (opt_step pages) c i ps hs.
Proof.
  induction 1 as [|c i p ps s hs HR Ht IH]; intros Hrt Hps; constructor.
  - by apply opt_loose_strict.
  - apply Forall_cons in Hps as [Hp Hps]. apply IH; [|done].
    intros z Hz. destruct HR as (_ & _ & Hl & _).
    destruct (loose_frames_elem _ _ _ _ z Hl Hz) as [-> | Hz'];
      [done|by apply Hrt].
Qed.

Lemma initial_no_page (frameCount : Z) (z : Z) :
  Num z ∉ v_frames (initial frameCount).
Proof.
  simpl. intros Hz. by apply elem_of_replicate in Hz as [? _].
Qed.

Lemma runOptimal_trace (pages : list Z) (frameCount : Z) :
  1 ≤ frameCount ≤ 10 → Forall round_trips pages →
  ∃ h, runOptimal pages frameCount = Ok h
       ∧ trace (opt_step pages) (initial frameCount) 0 pages h.
Proof.
  intros Hn Hps.
  destruct (runOptimal_loose_trace pages frameCount Hn) as (h & Hrun & Ht).
  exists h. split; [done|].
  apply opt_trace_strict; [done| |done].
  intros z Hz. by apply initial_no_page in Hz.
Qed.

(** * The engine as a whole *)

Definition recognised (algorithm : string) : Prop :=
  algorithm = "FIFO" ∨ algorithm = "LRU" ∨ algorithm = "OPTIMAL".

(** The precondition the caller enforces before [run]. *)
Definition valid_input (pages : list Z) (frameCount : Z) : Prop :=
  pages ≠ [] ∧ 1 ≤ frameCount ≤ 10.

Definition any_step (c : Vars) (i p : Z) (s : State) : Prop :=
  frames_ok (v_frames c) ∧ common c i p s.

Definition loose_step (c : Vars) (i p : Z) (s : State) : Prop :=
  frames_ok (v_frames c) ∧ loose c i p s.

Lemma any_step_loose c i p s : any_step c i p s → loose_step c i p s.
Proof. intros [Hok Hc]. split; [done|by apply common_loose]. Qed.

Lemma run_FIFO pages frameCount :
  run pages frameCount "FIFO" = runFIFO pages frameCount.
Proof. reflexivity. Qed.

Lemma run_LRU pages frameCount :
  run pages frameCount "LRU" = runLRU pages frameCount.
Proof. reflexivity. Qed.

Lemma run_OPTIMAL pages frameCount :
  run pages frameCount "OPTIMAL" = runOptimal pages frameCount.
Proof. reflexivity. Qed.

(** The steps of a run are as [common] has them: under FIFO and LRU
    always, under OPTIMAL when the keys of the pages read back as the
    pages. *)
Lemma run_trace (pages : list Z) (frameCount : Z) (algorithm : string) :
  1 ≤ frameCount ≤ 10 → recognised algorithm →
  (algorithm = "OPTIMAL" → Forall round_trips pages) →
  ∃ h, run pages frameCount algorithm = Ok h
       ∧ trace any_step (initial frameCount) 0 pages h.
Proof.
  intros Hn [-> | [-> | ->]] Hrt.
  - destruct (runFIFO_trace pages frameCount Hn) as (h & Hrun & Ht).
    exists h. split; [done|].
    eapply trace_impl; [|exact Ht].
    intros c i p s (Hl & Hc & _). split; [apply Hl|done].
  - destruct (runLRU_trace pages frameCount Hn) as (h & Hrun & Ht).
    exists h. split; [done|].
    eapply trace_impl; [|exact Ht].
    intros c i p s (Hl & Hc & _). split; [apply Hl|done].
  - destruct (runOptimal_trace pages frameCount Hn (Hrt eq_refl))
      as (h & Hrun & Ht).
    exists h. split; [done|].
    eapply trace_impl; [|exact Ht].
    intros c i p s (Hok & _ & Hc & _). by split.
Qed.

(** Under every policy and for all pages they are as [loose] has them. *)
Lemma run_loose_trace (pages : list Z) (frameCount : Z)
    (algorithm : string) :
  1 ≤ frameCount ≤ 10 → recognised algorithm →
  ∃ h, run pages frameCount algorithm = Ok h
       ∧ trace loose_step (initial frameCount) 0 pages h.
Proof.
  intros Hn Halg.
  destruct (decide (algorithm = "OPTIMAL")) as [-> | Hne].
  - destruct (runOptimal_loose_trace pages frameCount Hn) as (h & Hrun & Ht).
    exists h. split; [done|].
    eapply trace_impl; [|exact Ht].
    intros c i p s (Hok & _ & Hc & _). by split.
  - destruct (run_trace pages frameCount algorithm Hn Halg ltac:(done))
      as (h & Hrun & Ht).
    exists h. split; [done|].
    eapply trace_impl; [|exact Ht]. apply any_step_loose.
Qed.

(** The counters along a chain of steps that starts at step [i] with
    [i] references counted. *)
Lemma trace_stats c i ps hs :
  trace loose_step c i ps hs →
  hits (v_stats c) + faults (v_stats c) = total (v_stats c) →
  total (v_stats c) = i →
  ∀ (n : nat) s, hs !! n = Some s →
    step s = i + Z.of_nat n
    ∧ hits (stats s) + faults (stats s) = total (stats s)
    ∧ total (stats s) = i + Z.of_nat n + 1.
Proof.
  induction 1 as [|c i p ps s hs HR Ht IH]; intros Hsum Htot n s' Hn;
    [done|].
  destruct HR as [_ Hc].
  assert (step s = i ∧ hits (stats s) + faults (stats s) = total (stats s)
          ∧ total (stats s) = i + 1) as (Hstep & Hsum' & Htot').
  { destruct Hc as [Hstep _ _ Hst _]. split; [done|].
    rewrite Hst. destruct (isHit s); simpl; lia. }
  destruct n as [|n].
  - injection Hn as <-. simpl. rewrite !Z.add_0_r. done.
  - change (hs !! n = Some s') in Hn.
    destruct (IH Hsum' Htot' n s' Hn) as (? & ? & ?).
    split_and!; [lia|done|lia].
Qed.

Lemma frames_ok_values (F : list value) :
  frames_ok F →
  NoDup (filter (λ v, v ≠ Null) F)
  ∧ ∀ v, v ∈ F → v = Null ∨ ∃ z, v = Num z.
Proof.
  intros [Hu Hnd]. split.
  - assert (filter (λ v, v ≠ Null) F = Num <$> pagesInFrames F) as ->.
    { clear Hnd. induction F as [|v F IH]; [done|].
      apply Forall_cons in Hu as [Hv Hu].
      destruct v; [by rewrite filter_cons_False, IH by tauto|done|].
      rewrite filter_cons_True by done. simpl. by rewrite IH. }
    apply NoDup_fmap; [|done]. intros x y. congruence.
  - intros v Hv. rewrite Forall_forall in Hu. specialize (Hu v Hv).
    destruct v; eauto. done.
Qed.

(** ** FIFO: eviction order is load order *)

(** The pages loaded by the steps of a history (the referenced pages of
    its misses) and the pages it evicted, both in step order. *)
Definition loaded (h : History) : list Z :=
  page <$> filter (λ s, isHit s = false) h.

Definition evicted (h : History) : list Z :=
  omap (λ s, match pageToEvict s with Num v => Some v | _ => None end) h.

Definition helper_after (c : Vars) (h : History) : list Z :=
  from_option helperQueue (v_helper c) (last h).

Lemma loaded_cons s h :
  loaded (s :: h) = if isHit s then loaded h else page s :: loaded h.
Proof.
  unfold loaded. destruct (isHit s) eqn:Hhit.
  - rewrite filter_cons_False; [done|]. by rewrite Hhit.
  - by rewrite filter_cons_True.
Qed.

Lemma evicted_cons s h :
  evicted (s :: h)
  = match pageToEvict s with Num v => v :: evicted h | _ => evicted h end.
Proof. unfold evicted. simpl. by destruct (pageToEvict s). Qed.

Lemma helper_after_cons c s h :
  helper_after c (s :: h) = helper_after (after s) h.
Proof.
  unfold helper_after. destruct h as [|s' h]; [done|].
  rewrite last_cons_cons.
  destruct (last (s' :: h)) eqn:Hlast; [done|].
  by apply last_None in Hlast.
Qed.

Lemma fifo_trace_order c i ps hs :
  trace fifo_step c i ps hs →
  v_helper c ++ loaded hs = evicted hs ++ helper_after c hs.
Proof.
  induction 1 as [|c i p ps s hs HR Ht IH].
  { unfold helper_after, loaded, evicted. simpl. by rewrite app_nil_r. }
  destruct HR as (Hl & Hc & Hq & _).
  rewrite helper_after_cons, loaded_cons, evicted_cons.
  destruct Hc as [_ Hpage Hhit _ Ho]. unfold outcome in Ho.
  unfold fifo_queue in Hq. simpl in IH.
  destruct (decide (Num p ∈ v_frames c)) as [Hin|Hin].
  { apply includes_true in Hin. rewrite Hin in Hhit.
    destruct Ho as [_ Hev].
    by rewrite Hhit, Hev, <- IH, Hq. }
  apply includes_false in Hin. rewrite Hin in Hhit. rewrite Hhit.
  destruct (decide (Null ∈ v_frames c)) as [Hnull|Hnull].
  { destruct Ho as [Hev _].
    rewrite Hev, <- IH, Hq, Hpage. by rewrite <- app_assoc. }
  destruct Hq as (v & rest & Hcq & Hev & Hsq).
  rewrite Hev, Hcq. simpl. f_equal.
  rewrite <- IH, Hsq, Hpage. by rewrite <- app_assoc.
Qed.

(** ** LRU: the stack is the recency order *)

Definition touch (acc : list Z) (p : Z) : list Z :=
  p :: filter (λ q, q ≠ p) acc.

(** The distinct pages of a reference string, the most recently
    referenced first. *)
Definition recency (ps : list Z) : list Z := fold_left touch ps [].

Lemma touch_NoDup acc p : NoDup acc → NoDup (touch acc p).
Proof.
  intros Hnd. unfold touch. apply NoDup_cons. split.
  - rewrite list_elem_of_filter. tauto.
  - by apply NoDup_filter.
Qed.

Lemma filter_take_elem (p : Z) (l : list Z) :
  NoDup l → ∀ m : nat, p ∈ take (S m) l →
    filter (λ q, q ≠ p) (take (S m) l) = take m (filter (λ q, q ≠ p) l).
Proof.
  induction 1 as [|x l Hx Hnd IH]; intros m Hp; [by apply elem_of_nil in Hp|].
  change (take (S m) (x :: l)) with (x :: take m l) in *.
  destruct (decide (x = p)) as [->|Hxp].
  - rewrite !filter_cons_False by tauto.
    rewrite !filter_ne_id; [done|done|].
    intros Hin. apply Hx. by apply (subseteq_take m l).
  - rewrite !filter_cons_True by done.
    apply elem_of_cons in Hp as [->|Hp]; [done|].
    destruct m as [|m]; [by apply elem_of_nil in Hp|].
    simpl. f_equal. by apply IH.
Qed.

Lemma filter_take_not_elem (p : Z) (l : list Z) :
  ∀ m : nat, p ∉ take m l →
    take m (filter (λ q, q ≠ p) l) = take m l.
Proof.
  induction l as [|x l IH]; intros [|m] Hp; try done.
  change (take (S m) (x :: l)) with (x :: take m l) in *.
  apply not_elem_of_cons in Hp as [Hxp Hp].
  rewrite filter_cons_True by done. simpl. f_equal. by apply IH.
Qed.

(** One step of LRU is one [touch] of the recency order, cut to the
    number of frames. *)
Lemma lru_step_touch c i p s (acc : list Z) :
  lru_step c i p s → NoDup acc →
  v_helper c = take (length (v_frames c)) acc →
  helperQueue s = take (length (v_frames c)) (touch acc p).
Proof.
  intros (Hl & Hc & Hq & _) Hnd Hacc.
  pose proof Hl as (_ & Hpos & _).
  destruct (length (v_frames c)) as [|m] eqn:HN; [lia|].
  unfold lru_stack in Hq. unfold touch. simpl.
  destruct (decide (Num p ∈ v_frames c)) as [Hin|Hin].
  { rewrite Hq, Hacc. f_equal. apply filter_take_elem; [done|].
    rewrite <- Hacc. by apply (linked_elem c p Hl). }
  assert (p ∉ take (S m) acc) as Hp.
  { rewrite <- Hacc. by rewrite (linked_elem c p Hl). }
  destruct (decide (Null ∈ v_frames c)) as [Hnull|Hnull].
  { pose proof (linked_not_full c Hl Hnull) as Hlt.
    rewrite Hacc, HN, length_take in Hlt.
    rewrite take_ge in Hacc, Hp by lia.
    rewrite Hq, Hacc. f_equal.
    rewrite filter_ne_id by done. by rewrite take_ge by lia. }
  destruct Hq as (v & front & Hcq & _ & ->). f_equal.
  pose proof (linked_full c Hl Hnull) as Hfull.
  rewrite Hcq, HN, length_app in Hfull. simpl in Hfull.
  rewrite filter_take_not_elem.
  - assert (take m (take (S m) acc) = take m acc) as <-
      by (rewrite take_take; f_equal; lia).
    rewrite <- Hacc, Hcq. rewrite take_app_length'; [done|lia].
  - intros Hin'. apply Hp.
    assert (take m (take (S m) acc) = take m acc) as Htt
      by (rewrite take_take; f_equal; lia).
    rewrite <- Htt in Hin'. by apply (subseteq_take m (take (S m) acc)).
Qed.

Lemma lru_trace_recency c i ps hs (acc : list Z) (N : nat) :
  trace lru_step c i ps hs → NoDup acc →
  length (v_frames c) = N → v_helper c = take N acc →
  ∀ (n : nat) s, hs !! n = Some s →
    helperQueue s = take N (fold_left touch (take (S n) ps) acc).
Proof.
  intros Ht. revert acc.
  induction Ht as [|c i p ps s hs HR Ht IH]; intros acc Hnd HN Hacc n s' Hs;
    [done|].
  assert (helperQueue s = take N (touch acc p)) as Hstep.
  { rewrite <- HN. apply (lru_step_touch c i p s acc HR Hnd).
    by rewrite HN. }
  destruct n as [|n].
  - injection Hs as <-. change (take 1 (p :: ps)) with [p]. done.
  - change (hs !! n = Some s') in Hs.
    change (take (S (S n)) (p :: ps)) with (p :: take (S n) ps).
    simpl. apply IH; [by apply touch_NoDup| |done..].
    destruct HR as (_ & Hc & _). simpl.
    by rewrite (common_length _ _ _ _ Hc).
Qed.

(** ** What [run] can throw *)

Definition no_Error {A : Type} (r : result A) : Prop :=
  ∀ msg, r ≠ Throw (Error msg).

Lemma forEach_no_Error {A S : Type} (f : S → A → Z → result S) :
  (∀ s x i, no_Error (f s x i)) →
  ∀ arr i s, no_Error (Js.forEach_from f arr i s).
Proof.
  intros Hf arr. induction arr as [|x arr IH]; intros i s msg; simpl.
  - done.
  - destruct (f s x i) as [s'|e] eqn:Hfx; simpl.
    + apply IH.
    + intros [= ->]. by apply (Hf s x i msg).
Qed.

Lemma fifo_callback_no_Error l p i : no_Error (fifo_callback l p i).
Proof.
  intros msg. unfold fifo_callback.
  destruct (Js.includes (Num p) (l_frames l)); [done|].
  destruct (Js.includes Null (l_frames l)); [done|].
  by destruct (Js.shift (l_queue l)).
Qed.

Lemma lru_callback_no_Error l p i : no_Error (lru_callback l p i).
Proof.
  intros msg. unfold lru_callback.
  destruct (Js.includes (Num p) (l_frames l)); [done|].
  destruct (Js.includes Null (l_frames l)); [done|].
  by destruct (Js.pop (l_queue l)).
Qed.

Lemma optimal_callback_no_Error pages l p i :
  no_Error (optimal_callback pages l p i).
Proof.
  intros msg. unfold optimal_callback.
  destruct (Js.includes (Num p) (o_frames l)); [done|].
  destruct (Js.includes Null (o_frames l)); [done|].
  by destruct (Obj.keys _).
Qed.

Lemma run_recognised_no_Error pages frameCount algorithm :
  recognised algorithm → no_Error (run pages frameCount algorithm).
Proof.
  intros [-> | [-> | ->]] msg.
  - rewrite run_FIFO. unfold runFIFO, Js.new_Array_fill_null, Js.forEach.
    case_decide; [|done]. simpl.
    destruct (Js.forEach_from _ _ _ _) as [l|e] eqn:Hf; [done|]. simpl.
    intros [= ->]. by eapply forEach_no_Error, Hf; apply fifo_callback_no_Error.
  - rewrite run_LRU. unfold runLRU, Js.new_Array_fill_null, Js.forEach.
    case_decide; [|done]. simpl.
    destruct (Js.forEach_from _ _ _ _) as [l|e] eqn:Hf; [done|]. simpl.
    intros [= ->]. by eapply forEach_no_Error, Hf; apply lru_callback_no_Error.
  - rewrite run_OPTIMAL.
    unfold runOptimal, Js.new_Array_fill_null, Js.forEach.
    case_decide; [|done]. simpl.
    destruct (Js.forEach_from _ _ _ _) as [l|e] eqn:Hf; [done|]. simpl.
    intros [= ->].
    by eapply forEach_no_Error, Hf; apply optimal_callback_no_Error.
Qed.

Lemma run_unrecognised pages frameCount algorithm :
  ¬ recognised algorithm →
  run pages frameCount algorithm = Throw UnsupportedPolicy.
Proof.
  intros Hn. unfold run, recognised in *.
  repeat case_decide; tauto.
Qed.

(** * Properties of a history, as the specification states them *)

(** The faults counted by the last state of a run. *)
Definition fault_count (r : result History) : option Z :=
  match r with
  | Ok h => (λ s, faults (stats s)) <$> last h
  | Throw _ => None
  end.

Definition textbook_pages : list Z := [7; 0; 1; 2; 0; 3; 0; 4; 2; 3; 0; 3; 2].

(** What every rule below starts from: one state per reference, in order,
    the state at index [n] being the one of [pages[n]], recorded as a hit
    exactly when that page is in the frames before the step (the
    all-empty frames for step 0, the frames of the previous state
    otherwise). *)
Definition follows (pages : list Z) (frameCount : Z) (h : History) : Prop :=
  length h = length pages
  ∧ ∀ (n : nat) s, h !! n = Some s →
      pages !! n = Some (page s)
      ∧ (isHit s = true ↔ Num (page s) ∈ v_frames (before frameCount h n)).

(** FIFO, step by step: the queue holds the pages in the frames; a hit
    leaves the frames and the queue as they are; a miss writes the page
    into the first empty slot, or over the slot of the evicted page, and
    appends it to the queue, after the front has been removed and evicted
    when no slot is empty.  Over any prefix of the history, the pages
    loaded so far are the pages evicted so far followed by the queue:
    pages leave in the order they came. *)
Definition fifo_rule (pages : list Z) (frameCount : Z) (h : History)
    : Prop :=
  follows pages frameCount h
  ∧ (∀ (n : nat) s, h !! n = Some s →
     let F := v_frames (before frameCount h n) in
     let Q := v_helper (before frameCount h n) in
     outcome F (page s) s
     ∧ (∀ z, z ∈ Q ↔ Num z ∈ F)
     ∧ (isHit s = true → helperQueue s = Q)
     ∧ (isHit s = false → Null ∈ F → helperQueue s = Q ++ [page s])
     ∧ (isHit s = false → Null ∉ F →
        ∃ (v : Z) (rest : list Z), Q = v :: rest
          ∧ pageToEvict s = Num v
          ∧ helperQueue s = rest ++ [page s]))
  ∧ (∀ n : nat, (n ≤ length h)%nat →
       loaded (take n h)
       = evicted (take n h) ++ v_helper (before frameCount h n)).

(** LRU, step by step: the stack holds the pages in the frames; the
    referenced page is on top after every step; a hit keeps the frames,
    and the other pages of the stack in their order; a miss writes the
    page into the first empty slot, or over the slot of the evicted page;
    on full frames the bottom page is removed and evicted.  The stack
    after step [n] is the recency order of [pages[0..n]], cut to the
    number of frames. *)
Definition lru_rule (pages : list Z) (frameCount : Z) (h : History) : Prop :=
  follows pages frameCount h
  ∧ ∀ (n : nat) s, h !! n = Some s →
    let F := v_frames (before frameCount h n) in
    let Q := v_helper (before frameCount h n) in
    outcome F (page s) s
    ∧ (∀ z, z ∈ Q ↔ Num z ∈ F)
    ∧ head (helperQueue s) = Some (page s)
    ∧ (isHit s = true →
       helperQueue s = page s :: filter (λ q, q ≠ page s) Q)
    ∧ (isHit s = false → Null ∈ F → helperQueue s = page s :: Q)
    ∧ (isHit s = false → Null ∉ F →
       ∃ (v : Z) (front : list Z), Q = front ++ [v]
         ∧ pageToEvict s = Num v
         ∧ helperQueue s = page s :: front)
    ∧ helperQueue s
      = take (Z.to_nat frameCount) (recency (take (S n) pages)).

(** OPTIMAL at a replacement fault: the evicted page is in the frames, and
    either it is never referenced after this step, or every page in the
    frames is referenced after this step no later than it. *)
Definition optimal_rule (pages : list Z) (frameCount : Z) (h : History)
    : Prop :=
  follows pages frameCount h
  ∧ ∀ (n : nat) s, h !! n = Some s →
    let F := v_frames (before frameCount h n) in
    outcome F (page s) s
    ∧ (isHit s = false → Null ∉ F →
       ∃ v : Z, pageToEvict s = Num v ∧ Num v ∈ F
         ∧ ∀ q : Z, Num q ∈ F →
             next_use pages (Z.of_nat n) v = -1
             ∨ 0 ≤ next_use pages (Z.of_nat n) q
                 ≤ next_use pages (Z.of_nat n) v).

(** A step is a hit exactly when its page is in the frames before it; a
    hit leaves the frames as they are, and a miss changes one slot at
    most, which then holds the referenced page. *)
Definition hit_rule (pages : list Z) (frameCount : Z) (h : History) : Prop :=
  follows pages frameCount h
  ∧ ∀ (n : nat) s, h !! n = Some s →
    let F := v_frames (before frameCount h n) in
    (isHit s = true → frames s = F)
    ∧ (isHit s = false →
       frames s = F
       ∨ ∃ k : nat, (k < length F)%nat ∧ frames s = <[k := Num (page s)]> F).

(** One state per page, and cumulative counters. *)
Definition stats_rule (pages : list Z) (h : History) : Prop :=
  length h = length pages
  ∧ (∀ (n : nat) s, h !! n = Some s →
       step s = Z.of_nat n
       ∧ hits (stats s) + faults (stats s) = total (stats s)
       ∧ total (stats s) = step s + 1)
  ∧ ∃ s, last h = Some s ∧ total (stats s) = Z.of_nat (length pages).

(** The frames hold [null] or pages, no page twice; with [helper_set] the
    helper structure holds exactly the pages in the frames. *)
Definition frames_rule (frameCount : Z) (helper_set : Prop) (h : History)
    : Prop :=
  ∀ (n : nat) s, h !! n = Some s →
    NoDup (filter (λ v, v ≠ Null) (frames s))
    ∧ (∀ v, v ∈ frames s → v = Null ∨ ∃ z, v = Num z)
    ∧ Z.of_nat (length (frames s)) = frameCount
    ∧ (helper_set →
       NoDup (helperQueue s) ∧ ∀ z, z ∈ helperQueue s ↔ Num z ∈ frames s).

(** A page is evicted exactly at a miss on full frames, and it is then
    overwritten in its own slot. *)
Definition eviction_rule (pages : list Z) (frameCount : Z) (h : History)
    : Prop :=
  follows pages frameCount h
  ∧ ∀ (n : nat) s, h !! n = Some s →
    let F := v_frames (before frameCount h n) in
    (pageToEvict s ≠ Null ↔ isHit s = false ∧ Null ∉ F)
    ∧ (pageToEvict s ≠ Null →
       ∃ (v : Z) (k : nat), pageToEvict s = Num v
         ∧ F !! k = Some (Num v)
         ∧ frames s !! k = Some (Num (page s))
         ∧ length (frames s) = length F
         ∧ ∀ j : nat, j ≠ k → frames s !! j = F !! j).

(** What holds of the evicted page whatever the pages are: it is named
    exactly at a miss on full frames; when a slot holds the page named,
    that slot is overwritten; when none does, the frames stay as they
    are. *)
Definition naming_rule (pages : list Z) (frameCount : Z) (h : History)
    : Prop :=
  follows pages frameCount h
  ∧ ∀ (n : nat) s, h !! n = Some s →
    let F := v_frames (before frameCount h n) in
    (pageToEvict s ≠ Null ↔ isHit s = false ∧ Null ∉ F)
    ∧ (pageToEvict s = Null ∨ ∃ v : Z, pageToEvict s = Num v)
    ∧ (∀ v : Z, pageToEvict s = Num v → Num v ∈ F →
       ∃ k : nat, F !! k = Some (Num v)
         ∧ frames s = <[k := Num (page s)]> F)
    ∧ (∀ v : Z, pageToEvict s = Num v → Num v ∉ F → frames s = F).

(** ** Every run follows its reference string *)

Lemma trace_follows ps hs (frameCount : Z) :
  trace loose_step (initial frameCount) 0 ps hs →
  follows ps frameCount hs.
Proof.
  intros Ht. split; [by eapply trace_length|].
  intros n s Hs.
  destruct (trace_lookup _ _ _ _ _ Ht n s Hs) as (p & Hp & _ & Hc).
  fold (before frameCount hs n) in Hc.
  destruct Hc as [_ Hpage Hhit _ _]. subst p.
  split; [done|]. rewrite Hhit. apply includes_true.
Qed.

Lemma trace_any_follows ps hs (frameCount : Z) :
  trace any_step (initial frameCount) 0 ps hs →
  follows ps frameCount hs.
Proof.
  intros Ht. apply trace_follows.
  eapply trace_impl; [|exact Ht]. apply any_step_loose.
Qed.

(** * Theorems *)

(** C4, as the specification states it, does not hold: on the reference
    string 7,0,1,2,0,3,0,4,2,3,0,3,2 with 3 frames the FIFO run does not
    count 9 faults (and the LRU run does not count 10). *)
Lemma textbook_counts_as_stated_fail :
  ¬ (fault_count (run textbook_pages 3 "FIFO") = Some 9
     ∧ fault_count (run textbook_pages 3 "LRU") = Some 10
     ∧ ∃ o, fault_count (run textbook_pages 3 "OPTIMAL") = Some o
            ∧ o ≤ 9 ∧ o ≤ 10).
Proof. intros [Hfifo _]. vm_compute in Hfifo. discriminate. Qed.

(** C4 (amended): on the reference string 7,0,1,2,0,3,0,4,2,3,0,3,2 with
    3 frames the FIFO run counts exactly 10 faults, the LRU run exactly 9,
    and the OPTIMAL run counts 7, at most both. *)
Theorem textbook_counts :
  fault_count (run textbook_pages 3 "FIFO") = Some 10
  ∧ fault_count (run textbook_pages 3 "LRU") = Some 9
  ∧ ∃ o, fault_count (run textbook_pages 3 "OPTIMAL") = Some o
         ∧ o ≤ 10 ∧ o ≤ 9.
Proof.
  split_and!; [by vm_compute..|].
  exists 7. split_and!; [by vm_compute|lia..].
Qed.

Lemma loose_miss c i p s :
  loose c i p s → isHit s = false →
  frames s = v_frames c
  ∨ ∃ k : nat, (k < length (v_frames c))%nat
      ∧ frames s = <[k := Num p]> (v_frames c).
Proof.
  intros [_ _ Hhit _ Ho] Hmiss. unfold loose_outcome in Ho.
  rewrite Hmiss in Hhit. symmetry in Hhit. apply includes_false in Hhit.
  rewrite decide_False in Ho by done.
  case_decide.
  - destruct Ho as (_ & k & Hk & _ & Hfr). right. exists k.
    split; [by eapply lookup_lt_Some|done].
  - destruct Ho as (v & _ & ->).
    destruct (replacement_write (v_frames c) v p)
      as [(k & Hk & _ & ->) | [_ ->]]; [right|by left].
    exists k. split; [by eapply lookup_lt_Some|done].
Qed.

(** C5: for every valid input and each policy the run returns a history
    with one state per reference, the state at index [n] being the one of
    [pages[n]], in which a step is recorded as a hit exactly when its page
    is in the frames before the step (the all-empty frames for step 0, the
    frames of the previous state otherwise).  On a hit the frames are
    those of the previous state; on a miss they differ from them in one
    slot at most, which holds the referenced page. *)
Theorem hit_iff_resident_before (pages : list Z) (frameCount : Z)
    (algorithm : string) :
  valid_input pages frameCount → recognised algorithm →
  ∃ h, run pages frameCount algorithm = Ok h ∧ hit_rule pages frameCount h.
Proof.
  intros [_ Hn] Halg.
  destruct (run_loose_trace pages frameCount algorithm Hn Halg)
    as (h & Hrun & Ht).
  exists h. split; [done|]. split; [by apply trace_follows|].
  intros n s Hs.
  destruct (trace_lookup _ _ _ _ _ Ht n s Hs) as (p & Hp & _ & Hc).
  fold (before frameCount h n) in Hc. cbn zeta.
  split.
  - destruct Hc as [_ Hpage Hhit _ Ho]. subst p.
    rewrite Hhit, includes_true. intros Hin.
    unfold loose_outcome in Ho. rewrite decide_True in Ho by done. apply Ho.
  - intros Hmiss. destruct (loose_miss _ _ _ _ Hc Hmiss) as [? | Hk];
      [by left|right].
    by destruct Hc as [_ -> _ _ _].
Qed.

(** C6: for every valid input and each policy the history has one state
    per input page, every state has [hits + faults = total = step + 1]
    with [step] its index, and [total] of the last state is the length of
    the reference string. *)
Theorem statistics_cumulative (pages : list Z) (frameCount : Z)
    (algorithm : string) :
  valid_input pages frameCount → recognised algorithm →
  ∃ h, run pages frameCount algorithm = Ok h ∧ stats_rule pages h.
Proof.
  intros [Hne Hn] Halg.
  destruct (run_loose_trace pages frameCount algorithm Hn Halg)
    as (h & Hrun & Ht).
  pose proof (trace_length _ _ _ _ _ Ht) as Hlen.
  pose proof (trace_stats _ _ _ _ Ht eq_refl eq_refl) as Hst.
  exists h. split; [done|]. split_and!; [done| |].
  - intros n s Hs. destruct (Hst n s Hs) as (? & ? & ?).
    split_and!; [lia|done|lia].
  - destruct (last h) as [s|] eqn:Hlast.
    + exists s. split; [done|].
      rewrite last_lookup in Hlast.
      destruct (Hst _ s Hlast) as (_ & _ & ->).
      rewrite <- Hlen. destruct h; simpl in *; [done|lia].
    + apply last_None in Hlast. subst h. by destruct pages.
Qed.

(** C7: for every valid input and each policy, in every state of the
    history the frames hold [null] or pages and no page twice; for FIFO
    and LRU the helper structure of the state holds exactly the pages in
    its frames (and none twice). *)
Theorem frames_distinct_and_helper_set (pages : list Z) (frameCount : Z)
    (algorithm : string) :
  valid_input pages frameCount → recognised algorithm →
  ∃ h, run pages frameCount algorithm = Ok h
    ∧ frames_rule frameCount (algorithm = "FIFO" ∨ algorithm = "LRU") h.
Proof.
  intros [_ Hn] Halg.
  assert (∃ h, run pages frameCount algorithm = Ok h
            ∧ trace loose_step (initial frameCount) 0 pages h
            ∧ (algorithm = "FIFO" ∨ algorithm = "LRU" →
               ∀ (n : nat) s, h !! n = Some s → linked (after s)))
    as (h & Hrun & Ht & Hlinked).
  { destruct (run_loose_trace pages frameCount algorithm Hn Halg)
      as (h & Hrun & Ht).
    exists h. split_and!; [done..|].
    intros [-> | ->] n s Hs.
    - destruct (runFIFO_trace pages frameCount Hn) as (h' & Hrun' & Ht').
      rewrite run_FIFO, Hrun' in Hrun. injection Hrun as <-.
      destruct (trace_lookup _ _ _ _ _ Ht' n s Hs) as (p & _ & HR).
      apply HR.
    - destruct (runLRU_trace pages frameCount Hn) as (h' & Hrun' & Ht').
      rewrite run_LRU, Hrun' in Hrun. injection Hrun as <-.
      destruct (trace_lookup _ _ _ _ _ Ht' n s Hs) as (p & _ & HR).
      apply HR. }
  exists h. split; [done|]. intros n s Hs.
  assert (frames_ok (frames s)
          ∧ length (frames s) = Z.to_nat frameCount) as [Hok Hlen].
  { clear Hrun Hlinked. revert n s Hs.
    assert (frames_ok (v_frames (initial frameCount))) as Hok0
      by apply frames_ok_replicate.
    assert (length (v_frames (initial frameCount)) = Z.to_nat frameCount)
      as Hlen0 by apply length_replicate.
    induction Ht as [|c i p ps s0 hs [_ Hc] Ht IH]; intros n s Hs; [done|].
    assert (frames_ok (frames s0) ∧ length (frames s0) = Z.to_nat frameCount)
      as [Hok1 Hlen1].
    { split; [by eapply loose_frames_ok|].
      by rewrite (loose_length _ _ _ _ Hc). }
    destruct n as [|n]; [by injection Hs as <-|].
    by apply (IH Hok1 Hlen1 n). }
  destruct (frames_ok_values _ Hok) as [Hnd Hvals].
  split_and!; [done..|lia|].
  intros Hpol. specialize (Hlinked Hpol n s Hs). split.
  - by apply linked_NoDup in Hlinked.
  - intros z. apply (linked_elem (after s) z Hlinked).
Qed.

(** C10, at a failing input: on the pages 10^21, 2, 3, 3 with 2 frames
    the OPTIMAL run reaches the third reference with the frames holding
    10^21 and 2.  The reference of page 3 is a miss on full frames; the
    state names page 1 as evicted, a page in no frame, and its frames are
    the frames before the step: no slot holds page 3.  The key of page
    10^21 in [futureUses] is '1e+21', which [parseInt] reads as 1. *)
Theorem replacement_names_page_in_no_frame :
  let pages := [10 ^ 21; 2; 3; 3] in
  ∃ h s, run pages 2 "OPTIMAL" = Ok h ∧ h !! 2%nat = Some s
    ∧ v_frames (before 2 h 2) = [Num (10 ^ 21); Num 2]
    ∧ isHit s = false
    ∧ pageToEvict s = Num 1
    ∧ frames s = [Num (10 ^ 21); Num 2]
    ∧ ¬ eviction_rule pages 2 h.
Proof.
  eexists. eexists.
  split; [by vm_compute|]. split; [reflexivity|].
  split_and!; [by vm_compute..|].
  intros [_ Hrule]. specialize (Hrule 2%nat _ eq_refl) as [_ Hev].
  destruct Hev as (v & k & Hv & Hk & _); [done|].
  vm_compute in Hv. injection Hv as <-.
  destruct k as [|[|k]]; vm_compute in Hk; discriminate.
Qed.

(** C1: for every non-empty page sequence and frame count in 1..10 the
    FIFO run returns a history with one state per reference, hits
    recorded exactly on the pages in the frames, in which a hit leaves the
    frames and the queue unchanged, a fault writes the page into the
    frames and appends it at the back of the queue, and a replacement
    fault evicts the page at the front of the queue, which is in the
    frames and whose slot the new page takes; over every prefix of the run
    the loaded pages are the evicted pages followed by the queue, so pages
    are evicted in the order in which they were loaded, whatever hits come
    in between. *)
Theorem fifo_evicts_in_load_order (pages : list Z) (frameCount : Z) :
  valid_input pages frameCount →
  ∃ h, run pages frameCount "FIFO" = Ok h ∧ fifo_rule pages frameCount h.
Proof.
  intros [_ Hn].
  destruct (runFIFO_trace pages frameCount Hn) as (h & Hrun & Ht).
  exists h. split; [done|]. split_and!.
  - apply trace_any_follows. eapply trace_impl; [|exact Ht].
    intros c i p s (Hl & Hc & _). split; [apply Hl|done].
  - intros n s Hs.
    destruct (trace_lookup _ _ _ _ _ Ht n s Hs) as (p & _ & Hl & Hc & Hq & _).
    fold (before frameCount h n) in Hl, Hc, Hq. cbn zeta.
    destruct Hc as [_ Hpage Hhit _ Ho]. subst p.
    unfold fifo_queue in Hq.
    split; [done|].
    split; [intros z; apply (linked_elem _ z Hl)|].
    destruct (decide (Num (page s) ∈ v_frames (before frameCount h n)))
      as [Hin|Hin].
    { apply includes_true in Hin. rewrite Hin in Hhit. rewrite Hhit.
      split_and!; done. }
    apply includes_false in Hin. rewrite Hin in Hhit. rewrite Hhit.
    destruct (decide (Null ∈ v_frames (before frameCount h n)));
      split_and!; done.
  - intros n Hlen.
    pose proof (fifo_trace_order _ _ _ _ (trace_take _ _ _ _ _ n Ht)) as Ho.
    simpl in Ho. rewrite Ho. f_equal.
    unfold helper_after, before, before_from.
    destruct n as [|n]; [done|].
    rewrite last_lookup, length_take_le by done. simpl.
    rewrite lookup_take_lt by lia.
    by destruct (h !! n).
Qed.

(** C2: for every non-empty page sequence and frame count in 1..10 the
    LRU run returns a history with one state per reference, hits recorded
    exactly on the pages in the frames, whose stack is ordered most
    recently used first: after every step the referenced page is on top (a
    hit moves it there, a fault puts it there), at a replacement fault the
    evicted page is the one at the bottom of the stack before the step,
    whose slot the new page takes, and the stack is the recency order of
    the pages referenced so far, cut to the number of frames. *)
Theorem lru_stack_is_recency_order (pages : list Z) (frameCount : Z) :
  valid_input pages frameCount →
  ∃ h, run pages frameCount "LRU" = Ok h ∧ lru_rule pages frameCount h.
Proof.
  intros [_ Hn].
  destruct (runLRU_trace pages frameCount Hn) as (h & Hrun & Ht).
  exists h. split; [done|]. split.
  { apply trace_any_follows. eapply trace_impl; [|exact Ht].
    intros c i p s (Hl & Hc & _). split; [apply Hl|done]. }
  intros n s Hs.
  pose proof (lru_trace_recency _ _ _ _ [] (Z.to_nat frameCount) Ht) as Hrec.
  specialize (Hrec (NoDup_nil_2 (A:=Z))). simpl in Hrec.
  rewrite length_replicate, take_nil in Hrec.
  specialize (Hrec eq_refl eq_refl n s Hs).
  destruct (trace_lookup _ _ _ _ _ Ht n s Hs) as (p & _ & Hl & Hc & Hq & _).
  fold (before frameCount h n) in Hl, Hc, Hq. cbn zeta.
  destruct Hc as [_ Hpage Hhit _ Ho]. subst p.
  unfold lru_stack in Hq.
  split; [done|].
  split; [intros z; apply (linked_elem _ z Hl)|].
  split_and!; [| | | |exact Hrec].
  - repeat case_decide; [by rewrite Hq..|].
    destruct Hq as (v & front & _ & _ & ->). done.
  - rewrite Hhit, includes_true. intros Hin. by rewrite decide_True in Hq.
  - rewrite Hhit, includes_false. intros Hin Hnull.
    by rewrite decide_False, decide_True in Hq.
  - rewrite Hhit, includes_false. intros Hin Hnull.
    by rewrite !decide_False in Hq.
Qed.

(** C3, at a failing input: on the pages 1, 10^21, 3, 1 with 2 frames
    the OPTIMAL run reaches the third reference with the frames holding 1
    and 10^21.  The reference of page 3 is a miss on full frames, and the
    run evicts page 1, which is referenced at the very next step, while
    page 10^21 is never referenced again.  [reduce] ends on the key of
    page 10^21, but that key is '1e+21', which [parseInt] reads as 1. *)
Theorem optimal_evicts_page_referenced_next :
  let pages := [1; 10 ^ 21; 3; 1] in
  ∃ h s, run pages 2 "OPTIMAL" = Ok h ∧ h !! 2%nat = Some s
    ∧ v_frames (before 2 h 2) = [Num 1; Num (10 ^ 21)]
    ∧ isHit s = false
    ∧ pageToEvict s = Num 1
    ∧ frames s = [Num 3; Num (10 ^ 21)]
    ∧ next_use pages 2 1 = 0
    ∧ next_use pages 2 (10 ^ 21) = -1
    ∧ ¬ optimal_rule pages 2 h.
Proof.
  eexists. eexists.
  split; [by vm_compute|]. split; [reflexivity|].
  split_and!; [by vm_compute..|].
  intros [_ Hrule]. specialize (Hrule 2%nat _ eq_refl) as [_ Hev].
  destruct Hev as (v & Hv & _ & Hfar);
    [reflexivity|by apply (bool_decide_unpack _); vm_compute|].
  vm_compute in Hv. injection Hv as <-.
  assert (next_use [1; 10 ^ 21; 3; 1] 2 1 = 0) as Hnext by by vm_compute.
  assert (next_use [1; 10 ^ 21; 3; 1] 2 (10 ^ 21) = -1) as Hnever
    by by vm_compute.
  destruct (Hfar (10 ^ 21)) as [Hv | Hq].
  - by apply (bool_decide_unpack _); vm_compute.
  - change (Z.of_nat 2) with 2 in Hv. lia.
  - change (Z.of_nat 2) with 2 in Hq. lia.
Qed.

(** C8: [run] throws the error of an unknown algorithm exactly when the
    algorithm is none of FIFO, LRU, OPTIMAL; on a non-empty page sequence
    and a frame count in 1..10 it returns a history for each of the three;
    and its result is a function of its arguments. *)
Theorem run_throws_only_on_unknown_policy (pages : list Z) (frameCount : Z)
    (algorithm : string) :
  (run pages frameCount algorithm = Throw UnsupportedPolicy
   ↔ ¬ recognised algorithm)
  ∧ (valid_input pages frameCount → recognised algorithm →
     ∃ h, run pages frameCount algorithm = Ok h)
  ∧ (∀ pages' frameCount' algorithm',
       pages' = pages → frameCount' = frameCount → algorithm' = algorithm →
       run pages' frameCount' algorithm' = run pages frameCount algorithm).
Proof.
  split_and!.
  - split; [|apply run_unrecognised].
    intros Hrun Hrec.
    by apply (run_recognised_no_Error pages frameCount algorithm Hrec
                "Unknown algorithm selected.").
  - intros [_ Hn] Hrec.
    destruct (run_loose_trace pages frameCount algorithm Hn Hrec)
      as (h & Hrun & _).
    by exists h.
  - by intros ? ? ? -> -> ->.
Qed.

(** ** The theorems at concrete inputs *)

(** The second scenario of the specification: seven references on four
    frames. *)
Definition four_frames_pages : list Z := [1; 2; 3; 4; 1; 2; 5].

Lemma textbook_valid : valid_input textbook_pages 3.
Proof. unfold valid_input, textbook_pages. split; [discriminate|lia]. Defined.

Lemma four_frames_valid : valid_input four_frames_pages 4.
Proof.
  unfold valid_input, four_frames_pages. split; [discriminate|lia].
Defined.

Lemma textbook_safe : Forall Js.safe_integer textbook_pages.
Proof. unfold textbook_pages. by repeat constructor. Defined.

Lemma four_frames_safe : Forall Js.safe_integer four_frames_pages.
Proof. unfold four_frames_pages. by repeat constructor. Defined.

Lemma fifo_evicts_in_load_order_witness :
  valid_input textbook_pages 3
  ∧ ∃ h, run textbook_pages 3 "FIFO" = Ok h ∧ fifo_rule textbook_pages 3 h.
Proof.
  split; [exact textbook_valid|].
  apply (fifo_evicts_in_load_order textbook_pages 3).
  unfold valid_input, textbook_pages. split; [discriminate|lia].
Defined.

Lemma lru_stack_is_recency_order_witness :
  valid_input textbook_pages 3
  ∧ ∃ h, run textbook_pages 3 "LRU" = Ok h ∧ lru_rule textbook_pages 3 h.
Proof.
  split; [exact textbook_valid|].
  apply (lru_stack_is_recency_order textbook_pages 3).
  unfold valid_input, textbook_pages. split; [discriminate|lia].
Defined.

Lemma hit_iff_resident_before_witness :
  valid_input four_frames_pages 4 ∧ recognised "LRU"
  ∧ ∃ h, run four_frames_pages 4 "LRU" = Ok h
         ∧ hit_rule four_frames_pages 4 h.
Proof.
  split; [exact four_frames_valid|].
  split; [right; left; reflexivity|].
  apply (hit_iff_resident_before four_frames_pages 4 "LRU").
  - unfold valid_input, four_frames_pages. split; [discriminate|lia].
  - right; left; reflexivity.
Defined.

Lemma statistics_cumulative_witness :
  valid_input four_frames_pages 4 ∧ recognised "OPTIMAL"
  ∧ ∃ h, run four_frames_pages 4 "OPTIMAL" = Ok h
         ∧ stats_rule four_frames_pages h.
Proof.
  split; [exact four_frames_valid|].
  split; [right; right; reflexivity|].
  apply (statistics_cumulative four_frames_pages 4 "OPTIMAL").
  - unfold valid_input, four_frames_pages. split; [discriminate|lia].
  - right; right; reflexivity.
Defined.

Lemma frames_distinct_and_helper_set_witness :
  valid_input four_frames_pages 4 ∧ recognised "FIFO"
  ∧ ∃ h, run four_frames_pages 4 "FIFO" = Ok h
         ∧ frames_rule 4 ("FIFO" = "FIFO" ∨ "FIFO" = "LRU") h.
Proof.
  split; [exact four_frames_valid|].
  split; [left; reflexivity|].
  apply (frames_distinct_and_helper_set four_frames_pages 4 "FIFO").
  - unfold valid_input, four_frames_pages. split; [discriminate|lia].
  - left; reflexivity.
Defined.

Lemma run_throws_only_on_unknown_policy_witness :
  valid_input textbook_pages 3 ∧ recognised "LRU"
  ∧ ∃ h, run textbook_pages 3 "LRU" = Ok h.
Proof.
  split; [exact textbook_valid|].
  split; [right; left; reflexivity|].
  apply (run_throws_only_on_unknown_policy textbook_pages 3 "LRU").
  - unfold valid_input, textbook_pages. split; [discriminate|lia].
  - right; left; reflexivity.
Defined.

(** The second scenario of the specification, under each policy: four
    compulsory faults fill the frames, the fifth and sixth references are
    hits, the seventh is a fault. *)
Example four_frames_scenario :
  ∀ algorithm, recognised algorithm →
    ∃ h, run four_frames_pages 4 algorithm = Ok h
      ∧ isHit <$> h = [false; false; false; false; true; true; false]
      ∧ pageToEvict <$> take 6 h = replicate 6 Null.
Proof.
  intros algorithm [-> | [-> | ->]]; eexists;
    (split; [by vm_compute|]); by vm_compute.
Qed.

(** * The playback controller *)

Import Animator.

Lemma append_assoc (s1 s2 s3 : string) :
  (s1 +:+ s2) +:+ s3 = s1 +:+ (s2 +:+ s3).
Proof.
  induction s1 as [|c s1 IH]; [done|].
  change (String c ((s1 +:+ s2) +:+ s3) = String c (s1 +:+ (s2 +:+ s3))).
  by rewrite IH.
Qed.

Lemma append_empty_r (s : string) : s +:+ "" = s.
Proof.
  induction s as [|c s IH]; [done|].
  change (String c (s +:+ "") = String c s). by rewrite IH.
Qed.

(** The text of a log that holds the given narrations, one per line. *)
Definition lines (msgs : list string) : string :=
  foldr (λ m acc, (m +:+ newline) +:+ acc) "" msgs.

Lemma lines_snoc (msgs : list string) (m : string) :
  lines (msgs ++ [m]) = lines msgs +:+ (m +:+ newline).
Proof.
  induction msgs as [|x msgs IH]; simpl.
  - by rewrite append_empty_r.
  - rewrite IH. symmetry. apply append_assoc.
Qed.

(** The narrations of the states at the given indices. *)
Definition narrations (h : History) (idxs : list nat) : list string :=
  omap (λ i, message <$> h !! i) idxs.

(** When [drawCurrentState] writes to the log. *)
Definition logs (suppressLog : bool) (a : Animator.t) : Prop :=
  suppressLog = false
  ∧ 0 ≤ currentIndex a < length_of a
  ∧ lastLoggedIndex a < currentIndex a.

#[global] Instance logs_dec b a : Decision (logs b a).
Proof. unfold logs. apply _. Defined.

Lemma draw_fields (b : bool) (a : Animator.t) :
  stateHistory (drawCurrentState b a) = stateHistory a
  ∧ currentIndex (drawCurrentState b a) = currentIndex a
  ∧ isPlaying (drawCurrentState b a) = isPlaying a
  ∧ timer (drawCurrentState b a) = timer a.
Proof.
  unfold drawCurrentState.
  case_decide; [done|].
  destruct (stateHistory a !! Z.to_nat (currentIndex a)); [|done].
  by destruct (negb b && _).
Qed.

Lemma draw_logs (b : bool) (a : Animator.t) :
  logs b a →
  ∃ s, stateHistory a !! Z.to_nat (currentIndex a) = Some s
    ∧ executionLog (drawCurrentState b a)
      = executionLog a +:+ (message s +:+ newline)
    ∧ lastLoggedIndex (drawCurrentState b a) = currentIndex a.
Proof.
  intros (-> & Hrange & Hlt). unfold drawCurrentState, length_of in *.
  rewrite decide_False by lia.
  destruct (lookup_lt_is_Some_2 (stateHistory a) (Z.to_nat (currentIndex a)))
    as [s Hs]; [lia|].
  rewrite Hs. exists s. split; [done|]. simpl.
  by rewrite bool_decide_eq_true_2 by lia.
Qed.

Lemma draw_silent (b : bool) (a : Animator.t) :
  ¬ logs b a →
  executionLog (drawCurrentState b a) = executionLog a
  ∧ lastLoggedIndex (drawCurrentState b a) = lastLoggedIndex a.
Proof.
  intros Hn. unfold drawCurrentState.
  case_decide as Hrange; [done|].
  destruct (stateHistory a !! Z.to_nat (currentIndex a)); [|done].
  destruct b; simpl; [done|].
  rewrite bool_decide_eq_false_2; [done|].
  intros Hgt. apply Hn. unfold logs. split_and!; [done|lia..].
Qed.

(** ** The log lists states in increasing order *)

(** The log holds the narrations of states at strictly increasing
    indices, none past the watermark: no state twice, and in the order of
    the history. *)
Definition log_rule (a : Animator.t) : Prop :=
  ∃ idxs : list nat,
    StronglySorted lt idxs
    ∧ Forall (λ i, (i < length (stateHistory a))%nat
                   ∧ Z.of_nat i ≤ lastLoggedIndex a) idxs
    ∧ length (narrations (stateHistory a) idxs) = length idxs
    ∧ executionLog a = lines (narrations (stateHistory a) idxs).

Lemma log_rule_fields a a' :
  stateHistory a' = stateHistory a →
  lastLoggedIndex a' = lastLoggedIndex a →
  executionLog a' = executionLog a →
  log_rule a → log_rule a'.
Proof. unfold log_rule. by intros -> -> ->. Qed.

Lemma log_rule_empty a :
  executionLog a = "" → log_rule a.
Proof.
  intros Hlog. exists []. split_and!; [constructor|constructor|done|done].
Qed.

Lemma narrations_snoc h idxs (i : nat) s :
  h !! i = Some s →
  narrations h (idxs ++ [i]) = narrations h idxs ++ [message s].
Proof.
  intros Hs. unfold narrations. rewrite omap_app. simpl. by rewrite Hs.
Qed.

Lemma StronglySorted_snoc (idxs : list nat) (i : nat) :
  StronglySorted lt idxs → Forall (λ j, (j < i)%nat) idxs →
  StronglySorted lt (idxs ++ [i]).
Proof.
  induction 1 as [|x idxs Hs IH Hx]; intros Hlt; simpl.
  - repeat constructor.
  - apply Forall_cons in Hlt as [Hxi Hlt].
    constructor; [by apply IH|].
    apply Forall_app. split; [done|]. by constructor.
Qed.

Lemma log_rule_draw b a : log_rule a → log_rule (drawCurrentState b a).
Proof.
  intros Hrule.
  destruct (draw_fields b a) as (Hh & Hc & _ & _).
  destruct (decide (logs b a)) as [Hl|Hl].
  - destruct (draw_logs b a Hl) as (s & Hs & Hlog & Hll).
    destruct Hl as (_ & Hrange & Hlt).
    destruct Hrule as (idxs & Hsorted & Hall & Hlen & Hlog0).
    exists (idxs ++ [Z.to_nat (currentIndex a)]).
    rewrite Hh, Hll, Hlog.
    rewrite (narrations_snoc _ _ _ s Hs), lines_snoc, length_app, Hlen.
    rewrite length_app.
    unfold length_of in Hrange.
    split_and!; [|apply Forall_app; split|done|by rewrite Hlog0].
    + apply StronglySorted_snoc; [done|].
      eapply Forall_impl; [exact Hall|]. simpl. lia.
    + eapply Forall_impl; [exact Hall|]. simpl. lia.
    + constructor; [lia|constructor].
  - destruct (draw_silent b a Hl) as [Hlog Hll].
    by eapply log_rule_fields.
Qed.

Lemma log_rule_pause a : log_rule a → log_rule (pause a).
Proof.
  unfold pause. destruct (negb (isPlaying a)); [done|].
  by apply log_rule_fields.
Qed.

Lemma log_rule_nextStep a : log_rule a → log_rule (nextStep a).
Proof.
  intros Hrule. apply (log_rule_draw false) in Hrule.
  unfold nextStep. case_decide.
  - apply (log_rule_fields (pause (drawCurrentState false a))); [done..|].
    by apply log_rule_pause.
  - destruct (isPlaying (drawCurrentState false a)); [|done].
    by eapply log_rule_fields; [..|exact Hrule].
Qed.

Lemma log_rule_exec a o : log_rule a → log_rule (exec a o).
Proof.
  intros Hrule. destruct o; simpl.
  - unfold play. destruct (isPlaying a); [done|].
    apply log_rule_nextStep. case_decide.
    + by apply log_rule_empty.
    + by eapply log_rule_fields; [..|exact Hrule].
  - by apply log_rule_pause.
  - unfold timeout. destruct (timer a); [|done].
    apply log_rule_nextStep. by eapply log_rule_fields; [..|exact Hrule].
  - unfold stepForward. case_decide; [done|].
    apply log_rule_draw. by eapply log_rule_fields; [..|exact Hrule].
  - unfold stepBackward. case_decide; [done|].
    apply log_rule_draw. by eapply log_rule_fields; [..|exact Hrule].
  - by eapply log_rule_fields; [..|exact Hrule].
  - by apply log_rule_draw.
Qed.

Lemma log_rule_exec_all ops a : log_rule a → log_rule (exec_all ops a).
Proof.
  revert a. induction ops as [|o ops IH]; intros a Hrule; [done|].
  simpl. by apply IH, log_rule_exec.
Qed.

(** ** The log grows at its end, except on a replay *)

Definition extends (a a' : Animator.t) : Prop :=
  ∃ suffix, executionLog a' = executionLog a +:+ suffix.

Lemma extends_same a a' : executionLog a' = executionLog a → extends a a'.
Proof. intros Hlog. exists "". by rewrite append_empty_r. Qed.

Lemma extends_trans a a' a'' : extends a a' → extends a' a'' → extends a a''.
Proof.
  intros [s1 H1] [s2 H2]. exists (s1 +:+ s2).
  by rewrite H2, H1, append_assoc.
Qed.

Lemma extends_draw b a : extends a (drawCurrentState b a).
Proof.
  destruct (decide (logs b a)) as [Hl|Hl].
  - destruct (draw_logs b a Hl) as (s & _ & Hlog & _). by eexists.
  - destruct (draw_silent b a Hl) as [Hlog _]. by apply extends_same.
Qed.

Lemma extends_pause a : extends a (pause a).
Proof.
  apply extends_same. unfold pause. by destruct (negb (isPlaying a)).
Qed.

Lemma extends_nextStep a : extends a (nextStep a).
Proof.
  eapply extends_trans; [apply (extends_draw false)|].
  apply extends_same. unfold nextStep. case_decide.
  - simpl. unfold pause. by destruct (negb _).
  - by destruct (isPlaying _).
Qed.

(** [play] on a paused controller whose cursor is at the last state (or
    whose history is empty) clears the log and starts over. *)
Definition replays (a : Animator.t) (o : op) : Prop :=
  o = Play ∧ isPlaying a = false ∧ currentIndex a >= length_of a - 1.

Lemma extends_exec a o : replays a o ∨ extends a (exec a o).
Proof.
  destruct o; simpl; [|right..].
  - unfold play. destruct (isPlaying a) eqn:Hplay.
    { right. by apply extends_same. }
    destruct (decide (currentIndex a >= length_of a - 1)) as [Hend|Hend].
    { left. done. }
    right.
    eapply extends_trans; [|apply extends_nextStep]. by apply extends_same.
  - apply extends_pause.
  - unfold timeout. destruct (timer a); [|by apply extends_same].
    eapply extends_trans; [|apply extends_nextStep]. by apply extends_same.
  - unfold stepForward. case_decide; [by apply extends_same|].
    eapply extends_trans; [|apply extends_draw]. by apply extends_same.
  - unfold stepBackward. case_decide; [by apply extends_same|].
    eapply extends_trans; [|apply extends_draw]. by apply extends_same.
  - by apply extends_same.
  - apply extends_draw.
Qed.

Lemma stepBackward_silent a :
  executionLog (stepBackward a) = executionLog a
  ∧ lastLoggedIndex (stepBackward a) = lastLoggedIndex a.
Proof.
  unfold stepBackward. case_decide; [done|].
  destruct (draw_silent true (set_currentIndex (currentIndex a - 1) a))
    as [-> ->]; [|done].
  unfold logs. by intros [? _].
Qed.

(** ** Stepping back and forth *)

(** The log of a controller that has shown the states up to the watermark
    and none beyond: the narrations of states [0] to [lastLoggedIndex], in
    order, and the cursor is not past the watermark. *)
Definition seen (h : History) (a : Animator.t) : Prop :=
  stateHistory a = h
  ∧ -1 ≤ lastLoggedIndex a < length_of a
  ∧ 0 ≤ currentIndex a
  ∧ (currentIndex a ≤ lastLoggedIndex a ∨ h = [] ∧ currentIndex a = 0)
  ∧ executionLog a
    = lines (message <$> take (Z.to_nat (lastLoggedIndex a + 1)) h).

Lemma seen_start h : seen h (start h).
Proof.
  unfold start. destruct h as [|s h].
  - unfold seen, length_of; simpl. split_and!; try done. by right.
  - destruct (draw_logs false (new (s :: h))) as (s' & Hs & Hlog & Hll).
    { unfold logs, length_of; simpl. lia. }
    destruct (draw_fields false (new (s :: h))) as (Hh & Hc & _ & _).
    simpl in Hs. injection Hs as <-.
    unfold seen, length_of. rewrite Hh, Hc, Hll, Hlog. simpl.
    split_and!; try done; try lia. by rewrite append_empty_r.
Qed.

Lemma take_succ_message (h : History) (n : nat) s :
  h !! n = Some s →
  lines (message <$> take (S n) h)
  = lines (message <$> take n h) +:+ (message s +:+ newline).
Proof.
  intros Hs. rewrite (take_S_r _ _ _ Hs), fmap_app. apply lines_snoc.
Qed.

Lemma seen_stepForward h a :
  seen h a →
  seen h (stepForward a)
  ∧ currentIndex (stepForward a)
    = (if decide (currentIndex a >= length_of a - 1) then currentIndex a
       else currentIndex a + 1)
  ∧ lastLoggedIndex (stepForward a)
    = (if decide (currentIndex a >= length_of a - 1) then lastLoggedIndex a
       else Z.max (lastLoggedIndex a) (currentIndex a + 1)).
Proof.
  intros (Hh & Hll & Hc0 & Hc & Hlog). unfold stepForward.
  case_decide as Hend; [done|].
  set (a1 := set_currentIndex (currentIndex a + 1) a).
  destruct (draw_fields false a1) as (Hh1 & Hc1 & _ & _).
  assert (h ≠ []) as Hne.
  { intros ->. unfold length_of in Hend. rewrite Hh in Hend. simpl in Hend.
    destruct Hc as [?|[_ ?]]; lia. }
  destruct Hc as [Hc|[? _]]; [|done].
  destruct (decide (logs false a1)) as [Hl|Hl].
  - destruct (draw_logs false a1 Hl) as (s & Hs & Hlog1 & Hll1).
    destruct Hl as (_ & Hrange & Hlt). simpl in *.
    assert (lastLoggedIndex a = currentIndex a) as Heq by lia.
    unfold seen, length_of in *. rewrite Hh1, Hc1, Hll1, Hlog1. simpl.
    rewrite Hh in *.
    split_and!; try done; try lia.
    rewrite Hlog, Heq.
    replace (Z.to_nat (currentIndex a + 1 + 1))
      with (S (Z.to_nat (currentIndex a + 1))) by lia.
    symmetry. by apply take_succ_message.
  - destruct (draw_silent false a1 Hl) as [Hlog1 Hll1].
    assert (currentIndex a + 1 ≤ lastLoggedIndex a) as Hle.
    { apply Z.nlt_ge. intros Hlt. apply Hl. unfold logs, length_of in *.
      simpl. lia. }
    unfold seen, length_of in *. rewrite Hh1, Hc1, Hll1, Hlog1. simpl.
    split_and!; try done; lia.
Qed.

Lemma seen_stepBackward h a :
  seen h a →
  seen h (stepBackward a)
  ∧ currentIndex (stepBackward a)
    = (if decide (currentIndex a <= 0) then currentIndex a
       else currentIndex a - 1)
  ∧ lastLoggedIndex (stepBackward a) = lastLoggedIndex a
  ∧ executionLog (stepBackward a) = executionLog a.
Proof.
  intros (Hh & Hll & Hc0 & Hc & Hlog).
  destruct (stepBackward_silent a) as [Hlog1 Hll1].
  split_and!; [|..|done|done].
  - unfold seen. rewrite Hlog1, Hll1. unfold stepBackward.
    case_decide as Hend; [done|].
    set (a1 := set_currentIndex (currentIndex a - 1) a).
    destruct (draw_fields true a1) as (Hh1 & Hc1 & _ & _).
    unfold length_of in *. rewrite Hh1, Hc1. simpl.
    split_and!; try done; try lia.
  - unfold stepBackward. case_decide; [done|].
    by destruct (draw_fields true
                   (set_currentIndex (currentIndex a - 1) a)) as (_ & -> & _).
Qed.

(** A sequence of manual steps. *)
Definition stepping (o : op) : Prop := o = StepForward ∨ o = StepBackward.

Lemma seen_exec_all ops h a :
  Forall stepping ops → seen h a → seen h (exec_all ops a).
Proof.
  intros Hops. revert a.
  induction Hops as [|o ops [-> | ->] _ IH]; intros a Ha; [done|..]; simpl.
  - apply IH. by apply seen_stepForward.
  - apply IH. by apply seen_stepBackward.
Qed.

Lemma exec_all_app ops1 ops2 a :
  exec_all (ops1 ++ ops2) a = exec_all ops2 (exec_all ops1 a).
Proof. apply fold_left_app. Qed.

Lemma seen_log_eq h a a' :
  seen h a → seen h a' → lastLoggedIndex a' = lastLoggedIndex a →
  executionLog a' = executionLog a.
Proof.
  intros (_ & _ & _ & _ & ->) (_ & _ & _ & _ & ->) ->. done.
Qed.

Lemma backward_steps h (k : nat) :
  ∀ a, seen h a → Z.of_nat k ≤ currentIndex a →
    let b := exec_all (replicate k StepBackward) a in
    seen h b ∧ currentIndex b = currentIndex a - Z.of_nat k
    ∧ lastLoggedIndex b = lastLoggedIndex a.
Proof.
  induction k as [|k IH]; intros a Ha Hk; simpl.
  - split_and!; [done|lia|done].
  - destruct (seen_stepBackward h a Ha) as (Ha1 & Hc1 & Hll1 & _).
    rewrite decide_False in Hc1 by lia.
    destruct (IH (stepBackward a) Ha1) as (Hb & Hcb & Hllb); [lia|].
    split_and!; [done|lia|congruence].
Qed.

Lemma forward_steps_seen h (k : nat) :
  ∀ a, seen h a → currentIndex a + Z.of_nat k ≤ lastLoggedIndex a →
    let b := exec_all (replicate k StepForward) a in
    seen h b ∧ currentIndex b = currentIndex a + Z.of_nat k
    ∧ lastLoggedIndex b = lastLoggedIndex a.
Proof.
  induction k as [|k IH]; intros a Ha Hk; simpl.
  - split_and!; [done|lia|done].
  - destruct (seen_stepForward h a Ha) as (Ha1 & Hc1 & Hll1).
    assert (lastLoggedIndex a < length_of a) as Hlt by apply Ha.
    rewrite decide_False in Hc1, Hll1 by lia.
    destruct (IH (stepForward a) Ha1) as (Hb & Hcb & Hllb); [lia|].
    split_and!; [done|lia|lia].
Qed.

(** Forward stepping from the start: [k] steps show the states up to
    index [k] (or to the last one). *)
Definition forward (h : History) (k : nat) : Animator.t :=
  exec_all (replicate k StepForward) (start h).

Lemma forward_steps_new h (k : nat) :
  ∀ a, seen h a → h ≠ [] → currentIndex a = lastLoggedIndex a →
    let b := exec_all (replicate k StepForward) a in
    seen h b
    ∧ lastLoggedIndex b
      = Z.min (currentIndex a + Z.of_nat k) (length_of a - 1).
Proof.
  induction k as [|k IH]; intros a Ha Hne Hcur; simpl.
  - split; [done|].
    assert (lastLoggedIndex a < length_of a) as Hlt by apply Ha. lia.
  - destruct (seen_stepForward h a Ha) as (Ha1 & Hc1 & Hll1).
    assert (length_of (stepForward a) = length_of a) as Hlen.
    { unfold length_of.
      destruct Ha as (-> & _). by destruct Ha1 as (-> & _). }
    destruct (IH (stepForward a) Ha1 Hne) as (Hb & Hllb).
    { case_decide; lia. }
    split; [done|]. rewrite Hllb, Hc1, Hlen. case_decide; lia.
Qed.

Lemma forward_log h (k : nat) :
  executionLog (forward h k) = lines (message <$> take (S k) h).
Proof.
  unfold forward. destruct (decide (h = [])) as [->|Hne].
  - assert (seen [] (exec_all (replicate k StepForward) (start [])))
      as (_ & Hll & _ & _ & ->).
    { apply seen_exec_all; [|apply seen_start].
      apply Forall_replicate. by left. }
    by rewrite !take_nil.
  - pose proof (seen_start h) as Hs.
    assert (currentIndex (start h) = 0 ∧ lastLoggedIndex (start h) = 0
            ∧ length_of (start h) = Z.of_nat (length h)) as (Hc & Hl & Hlen).
    { destruct h as [|s h]; [done|]. by vm_compute. }
    destruct (forward_steps_new h k (start h) Hs Hne) as (Hb & Hllb);
      [congruence|].
    destruct Hb as (_ & _ & _ & _ & ->). rewrite Hllb, Hc, Hlen.
    f_equal. f_equal.
    destruct (decide (Z.of_nat k ≤ Z.of_nat (length h) - 1)).
    + f_equal. lia.
    + rewrite !take_ge; [done|lia..].
Qed.

(** A controller that has shown the states up to its watermark holds
    the log that forward stepping to the watermark leaves. *)
Lemma seen_forward_log h a :
  seen h a →
  executionLog a = executionLog (forward h (Z.to_nat (lastLoggedIndex a))).
Proof.
  intros (_ & Hll & Hc0 & Hc & Hlog).
  rewrite forward_log, Hlog.
  destruct Hc as [Hc|[-> _]].
  - do 3 f_equal. lia.
  - by rewrite !take_nil.
Qed.

(** Stepping [k] states back and then [k] states forward leaves the log,
    the cursor and the watermark as they were. *)
Lemma back_and_forth h a (k : nat) :
  seen h a → Z.of_nat k ≤ currentIndex a →
  let a' :=
    exec_all (replicate k StepBackward ++ replicate k StepForward) a in
  executionLog a' = executionLog a
  ∧ currentIndex a' = currentIndex a
  ∧ lastLoggedIndex a' = lastLoggedIndex a.
Proof.
  intros Ha Hk. cbn zeta.
  assert (currentIndex a ≤ lastLoggedIndex a ∨ k = 0%nat) as [Hle | ->];
    [destruct Ha as (_ & _ & _ & [?|[_ ?]] & _); [by left|right; lia]
    | |done].
  rewrite exec_all_app.
  destruct (backward_steps h k a Ha Hk) as (Hb & Hcb & Hllb).
  destruct (forward_steps_seen h k _ Hb) as (Hc & Hcc & Hllc); [lia|].
  split_and!; [|lia|congruence].
  apply (seen_log_eq h); [done..|congruence].
Qed.

(** ** Automatic playback *)

Lemma nextStep_spec a :
  let d := drawCurrentState false a in
  stateHistory (nextStep a) = stateHistory a
  ∧ executionLog (nextStep a) = executionLog d
  ∧ lastLoggedIndex (nextStep a) = lastLoggedIndex d
  ∧ (if decide (currentIndex a >= length_of a - 1) then
       isPlaying (nextStep a) = false
       ∧ timer (nextStep a) = (if isPlaying a then false else timer a)
       ∧ currentIndex (nextStep a) = currentIndex a
     else
       isPlaying a = true →
       isPlaying (nextStep a) = true ∧ timer (nextStep a) = true
       ∧ currentIndex (nextStep a) = currentIndex a + 1).
Proof.
  cbn zeta. destruct (draw_fields false a) as (Hh & Hc & Hp & Ht).
  unfold nextStep, length_of. rewrite Hh, Hc.
  case_decide as Hend.
  - unfold pause. rewrite Hp. destruct (isPlaying a) eqn:Hplay; simpl.
    + by rewrite Hh, Hc.
    + by rewrite Hh, Hc, Hp, Ht.
  - rewrite Hp. destruct (isPlaying a); simpl.
    + by rewrite Hh.
    + by rewrite Hh.
Qed.

(** Automatic playback from the start: [play], then [k] timeouts. *)
Definition autoplay (h : History) (k : nat) : Animator.t :=
  exec_all (Play :: replicate k Timeout) (start h).

(** After [play] and [j] timeouts the controller is still playing, state
    [j] logged and the cursor one ahead, or it has shown every state and
    stopped. *)
Definition running (h : History) (j : Z) (a : Animator.t) : Prop :=
  stateHistory a = h ∧ isPlaying a = true ∧ timer a = true
  ∧ currentIndex a = j + 1 ∧ lastLoggedIndex a = j
  ∧ 0 ≤ j ∧ j + 1 ≤ length_of a - 1
  ∧ executionLog a = lines (message <$> take (Z.to_nat (j + 1)) h).

Definition finished (h : History) (j : Z) (a : Animator.t) : Prop :=
  stateHistory a = h ∧ isPlaying a = false ∧ timer a = false
  ∧ currentIndex a = Z.max 0 (length_of a - 1)
  ∧ lastLoggedIndex a = length_of a - 1
  ∧ length_of a - 1 ≤ j
  ∧ executionLog a = lines (message <$> h).

Lemma start_watermark h : lastLoggedIndex (start h) ≤ 0.
Proof.
  unfold start. destruct (decide (logs false (new h))) as [Hl|Hl].
  - by destruct (draw_logs false (new h) Hl) as (_ & _ & _ & ->).
  - by destruct (draw_silent false (new h) Hl) as (_ & ->).
Qed.

Lemma play_start h :
  running h 0 (play (start h)) ∨ finished h 0 (play (start h)).
Proof.
  pose proof (seen_start h) as (Hh & Hll & Hc0 & Hc & Hlog).
  assert (isPlaying (start h) = false ∧ timer (start h) = false
          ∧ currentIndex (start h) = 0) as (Hp & Ht & Hcur).
  { unfold start. by destruct (draw_fields false (new h)) as (_ & -> & -> & ->). }
  unfold play. rewrite Hp.
  case_decide as Hend.
  - right.
    set (a2 := set_isPlaying true _).
    destruct (nextStep_spec a2) as (Hh2 & Hlog2 & Hll2 & Hrest).
    rewrite decide_True in Hrest
      by (subst a2; unfold length_of in *; simpl in *; lia).
    destruct Hrest as (Hp2 & Ht2 & Hc2).
    unfold finished, length_of in *. rewrite Hh2, Hlog2, Hll2, Hp2, Ht2, Hc2.
    subst a2; simpl. rewrite Hh. rewrite Hh, Hcur in Hend.
    set (a2 := set_isPlaying true _).
    destruct h as [|s h].
    + destruct (draw_silent false a2) as [-> ->].
      { unfold logs, length_of. subst a2; simpl. rewrite ?Hh. simpl. lia. }
      subst a2; simpl. split_and!; done.
    + destruct h; [|simpl in Hend; lia].
      destruct (draw_logs false a2) as (s' & Hs & -> & ->).
      { unfold logs, length_of. subst a2; simpl. rewrite ?Hh. simpl. lia. }
      subst a2; simpl in *. rewrite ?Hh in Hs. injection Hs as <-.
      split_and!; try done; by rewrite append_empty_r.
  - left.
    set (a2 := set_isPlaying true _).
    destruct (nextStep_spec a2) as (Hh2 & Hlog2 & Hll2 & Hrest).
    rewrite decide_False in Hrest
      by (subst a2; unfold length_of in *; simpl in *; lia).
    destruct Hrest as (Hp2 & Ht2 & Hc2); [done|].
    destruct (draw_silent false a2) as [Hlogd Hlld].
    { unfold logs. subst a2; simpl. destruct Hc as [?|[-> _]]; [lia|].
      unfold length_of in Hend. rewrite Hh, Hcur in Hend. simpl in Hend. lia. }
    assert (lastLoggedIndex (start h) = 0) as Hll0.
    { pose proof (start_watermark h). destruct Hc as [?|[-> _]]; [lia|].
      unfold length_of in Hend. rewrite Hh, Hcur in Hend. simpl in Hend. lia. }
    unfold running, length_of in *.
    rewrite Hh2, Hp2, Ht2, Hc2, Hll2, Hlog2, Hlogd, Hlld.
    subst a2; simpl. rewrite Hh, Hcur, Hll0, Hlog, Hll0.
    rewrite Hh, Hcur in Hend.
    split_and!; try done; lia.
Qed.

Lemma timeout_finished h j a :
  finished h j a → finished h (j + 1) (timeout a).
Proof.
  intros (Hh & Hp & Ht & Hc & Hll & Hj & Hlog). unfold timeout. rewrite Ht.
  unfold finished. split_and!; [done..|lia|done].
Qed.

Lemma timeout_running h j a :
  running h j a →
  running h (j + 1) (timeout a) ∨ finished h (j + 1) (timeout a).
Proof.
  intros (Hh & Hp & Ht & Hc & Hll & Hj0 & Hj & Hlog).
  unfold timeout. rewrite Ht.
  set (a1 := set_timer false a).
  destruct (nextStep_spec a1) as (Hh1 & Hlog1 & Hll1 & Hrest).
  destruct (draw_logs false a1) as (s & Hs & Hlogd & Hlld).
  { unfold logs, length_of in *. subst a1; simpl. lia. }
  assert (executionLog (nextStep a1)
          = lines (message <$> take (Z.to_nat (j + 1 + 1)) h)) as Hlog'.
  { rewrite Hlog1, Hlogd. subst a1; simpl in *. rewrite Hlog.
    replace (Z.to_nat (j + 1 + 1)) with (S (Z.to_nat (j + 1))) by lia.
    symmetry. apply take_succ_message. by rewrite <- Hh, <- Hc. }
  subst a1; simpl in *. unfold length_of in *; simpl in *.
  case_decide as Hend.
  - right. destruct Hrest as (Hp' & Ht' & Hc'). rewrite Hp in Ht'.
    unfold finished, length_of.
    rewrite Hh1, Hp', Ht', Hc', Hll1, Hlld, Hlog'. simpl.
    split_and!; [done..|lia|lia|lia|].
    rewrite take_ge; [done|]. rewrite Hh in *. lia.
  - left. destruct (Hrest Hp) as (Hp' & Ht' & Hc').
    unfold running, length_of.
    rewrite Hh1, Hp', Ht', Hc', Hll1, Hlld, Hlog'. simpl.
    split_and!; try done; lia.
Qed.

Lemma autoplay_state h (k : nat) :
  running h (Z.of_nat k) (autoplay h k)
  ∨ finished h (Z.of_nat k) (autoplay h k).
Proof.
  unfold autoplay.
  induction k as [|k IH].
  - apply play_start.
  - rewrite replicate_S_end.
    change (Play :: replicate k Timeout ++ [Timeout])
      with ((Play :: replicate k Timeout) ++ [Timeout]).
    rewrite exec_all_app.
    replace (Z.of_nat (S k)) with (Z.of_nat k + 1) by lia.
    destruct IH as [IH|IH].
    + by apply timeout_running.
    + right. by apply timeout_finished.
Qed.

Lemma autoplay_log h (k : nat) :
  executionLog (autoplay h k) = lines (message <$> take (S k) h).
Proof.
  destruct (autoplay_state h k)
    as [(_ & _ & _ & _ & _ & _ & _ & ->)|(Hh & _ & _ & _ & _ & Hj & ->)].
  - do 3 f_equal. lia.
  - rewrite take_ge; [done|].
    unfold length_of in Hj. rewrite Hh in Hj. lia.
Qed.

(** Once automatic playback has shown the last state, every state is
    logged and the cursor is on the last one. *)
Lemma autoplay_end_seen h (k : nat) :
  Z.of_nat (length h) - 1 ≤ Z.of_nat k → seen h (autoplay h k).
Proof.
  intros Hk.
  destruct (autoplay_state h k)
    as [(Hh & _ & _ & _ & _ & _ & Hj & _)|(Hh & _ & _ & Hc & Hll & _ & Hlog)].
  { unfold length_of in Hj. rewrite Hh in Hj. lia. }
  unfold seen, length_of in *. rewrite Hh in *. rewrite Hc, Hll, Hlog.
  split_and!; try done; try lia.
  - destruct h; [by right|left; simpl; lia].
  - rewrite take_ge; [done|lia].
Qed.

Lemma length_append (s1 s2 : string) :
  String.length (s1 +:+ s2) = (String.length s1 + String.length s2)%nat.
Proof.
  induction s1 as [|c s1 IH]; [done|].
  change (S (String.length (s1 +:+ s2))
          = S (String.length s1 + String.length s2)).
  by rewrite IH.
Qed.

Lemma extends_length a a' :
  extends a a' →
  (String.length (executionLog a) ≤ String.length (executionLog a'))%nat.
Proof. intros [suffix ->]. rewrite length_append. lia. Qed.

(** The history of two compulsory faults, for the examples. *)
Definition two_faults : History :=
  match run [7; 0] 3 "FIFO" with
  | Ok h => h
  | Throw _ => []
  end.

(** C9, as the specification states it, does not hold: the log is not
    append-only under every sequence of playback operations.  Once
    automatic playback has shown the last state and stopped, [play] clears
    the log and starts over: the log before is not a prefix of the log
    after. *)
Lemma replay_clears_the_log :
  let a := exec_all [Play; Timeout] (start two_faults) in
  isPlaying a = false
  ∧ executionLog a = lines (message <$> two_faults)
  ∧ ¬ extends a (exec a Play).
Proof.
  cbn zeta. split_and!; [by vm_compute..|].
  intros Hext%extends_length. vm_compute in Hext. lia.
Qed.

(** C9 (amended): for every history and every sequence of operations on
    a started controller,
    - the log holds the narrations of states at strictly increasing
      indices, none past the watermark: in the order of the history, and
      no state twice;
    - every operation leaves the log it finds as a prefix of the log it
      leaves, except [play] on a paused controller whose cursor is at the
      last state, which clears the log and starts over;
    - [stepBackward] leaves the log and the watermark as they are;
    - a render appends the narration of the current state, and moves the
      watermark to the cursor, exactly when logging is not suppressed and
      the cursor is a valid index past the watermark; otherwise it leaves
      both;
    - when the controller has logged every state up to its watermark and
      its cursor is not past the watermark ([seen], as after the first
      draw and after automatic playback has run to the end), it stays so
      under any sequence of steps forward and backward: the log is then
      the log of uninterrupted forward playback up to the watermark, by
      steps or by [play] and its timeouts, and stepping [k] states back
      and then [k] states forward leaves the log, the cursor and the
      watermark as they were. *)
Theorem playback_log (h : History) (ops steps : list op) :
  let a := exec_all ops (start h) in
  log_rule a
  ∧ (∀ o, replays a o ∨ extends a (exec a o))
  ∧ (executionLog (stepBackward a) = executionLog a
     ∧ lastLoggedIndex (stepBackward a) = lastLoggedIndex a)
  ∧ (∀ suppressLog,
       if decide (logs suppressLog a) then
         ∃ s, stateHistory a !! Z.to_nat (currentIndex a) = Some s
           ∧ executionLog (drawCurrentState suppressLog a)
             = executionLog a +:+ (message s +:+ newline)
           ∧ lastLoggedIndex (drawCurrentState suppressLog a)
             = currentIndex a
       else
         executionLog (drawCurrentState suppressLog a) = executionLog a
         ∧ lastLoggedIndex (drawCurrentState suppressLog a)
           = lastLoggedIndex a)
  ∧ seen h (start h)
  ∧ (∀ k : nat, Z.of_nat (length h) - 1 ≤ Z.of_nat k → seen h (autoplay h k))
  ∧ (seen h a → Forall stepping steps →
     let a' := exec_all steps a in
     let seen_up_to := Z.to_nat (lastLoggedIndex a') in
     seen h a'
     ∧ executionLog a' = executionLog (forward h seen_up_to)
     ∧ executionLog a' = executionLog (autoplay h seen_up_to)
     ∧ ∀ k : nat, Z.of_nat k ≤ currentIndex a' →
         let a'' :=
           exec_all (replicate k StepBackward ++ replicate k StepForward) a'
         in
         executionLog a'' = executionLog a'
         ∧ currentIndex a'' = currentIndex a'
         ∧ lastLoggedIndex a'' = lastLoggedIndex a').
Proof.
  cbn zeta. split_and!.
  - by apply log_rule_exec_all, log_rule_draw, log_rule_empty.
  - intros o. apply extends_exec.
  - apply stepBackward_silent.
  - apply stepBackward_silent.
  - intros b. case_decide; [by apply draw_logs|by apply draw_silent].
  - apply seen_start.
  - apply autoplay_end_seen.
  - intros Ha Hsteps.
    pose proof (seen_exec_all steps h _ Hsteps Ha) as Ha'.
    pose proof (seen_forward_log h _ Ha') as Hlog.
    split_and!; [done..| |].
    + by rewrite Hlog, forward_log, autoplay_log.
    + intros k Hk. by apply (back_and_forth h).
Qed.

Lemma playback_log_witness :
  seen two_faults (exec_all [Play; Timeout] (start two_faults))
  ∧ Forall stepping [StepBackward; StepForward]
  ∧ executionLog
      (exec_all [StepBackward; StepForward]
         (exec_all [Play; Timeout] (start two_faults)))
    = executionLog (autoplay two_faults 1).
Proof.
  assert (seen two_faults (exec_all [Play; Timeout] (start two_faults)))
    as Hseen.
  { unfold seen. split_and!; [by vm_compute..| |by vm_compute].
    left. by vm_compute. }
  assert (Forall stepping [StepBackward; StepForward]) as Hsteps.
  { repeat first [apply Forall_nil_2
                 | apply Forall_cons_2; [unfold stepping; auto|]]. }
  split_and!; [exact Hseen|exact Hsteps|].
  destruct (playback_log two_faults [Play; Timeout]
              [StepBackward; StepForward])
    as (_ & _ & _ & _ & _ & _ & Hstepping).
  destruct (Hstepping Hseen Hsteps) as (_ & _ & Hauto & _). exact Hauto.
Defined.

(** Pausing automatic playback leaves the cursor one state ahead of the
    last state drawn, so a step forward from there draws the state after
    it.  The controller is not [seen] at that point, and the last part of
    the theorem does not apply: here the log holds states 0 and 2. *)
Definition three_faults : History :=
  match run [7; 0; 1] 3 "FIFO" with
  | Ok h => h
  | Throw _ => []
  end.

Example pause_then_step :
  let a := exec_all [Play; Pause] (start three_faults) in
  currentIndex a = 1 ∧ lastLoggedIndex a = 0
  ∧ executionLog (stepForward a) = lines (narrations three_faults [0; 2]%nat).
Proof. by vm_compute. Qed.

(** * More of the controller *)

(** ** What every reachable controller satisfies *)

(** The cursor is an index of the history (or [0] when it is empty), the
    watermark is [-1] or an index, and a timeout is pending only while
    playing. *)
Definition well_formed (h : History) (a : Animator.t) : Prop :=
  stateHistory a = h
  ∧ 0 ≤ currentIndex a ≤ Z.max 0 (length_of a - 1)
  ∧ -1 ≤ lastLoggedIndex a < length_of a
  ∧ (timer a = true → isPlaying a = true).

Lemma well_formed_new h : well_formed h (new h).
Proof. unfold well_formed, length_of. simpl. split_and!; try done; lia. Qed.

Lemma well_formed_draw h b a :
  well_formed h a → well_formed h (drawCurrentState b a).
Proof.
  intros (Hh & Hc & Hll & Ht).
  destruct (draw_fields b a) as (Hh1 & Hc1 & Hp1 & Ht1).
  unfold well_formed, length_of in *. rewrite Hh1, Hc1, Hp1, Ht1.
  destruct (decide (logs b a)) as [Hl|Hl].
  - destruct (draw_logs b a Hl) as (s & _ & _ & ->).
    destruct Hl as (_ & Hrange & _). unfold length_of in Hrange.
    split_and!; try done; lia.
  - destruct (draw_silent b a Hl) as [_ ->]. split_and!; try done; lia.
Qed.

Lemma well_formed_pause h a : well_formed h a → well_formed h (pause a).
Proof.
  intros Ha. unfold pause. destruct (negb (isPlaying a)); [done|].
  destruct Ha as (Hh & Hc & Hll & Ht).
  unfold well_formed, length_of in *. simpl. split_and!; try done; lia.
Qed.

Lemma well_formed_nextStep h a :
  well_formed h a → (timer a = false) → well_formed h (nextStep a).
Proof.
  intros Ha Htimer. apply (well_formed_draw h false) in Ha.
  destruct (draw_fields false a) as (_ & _ & _ & Ht1).
  unfold nextStep. case_decide as Hend.
  - apply well_formed_pause in Ha.
    destruct Ha as (Hh & Hc & Hll & Ht).
    unfold well_formed, length_of in *. simpl. split_and!; try done; lia.
  - destruct (isPlaying (drawCurrentState false a)) eqn:Hp; [|done].
    destruct Ha as (Hh & Hc & Hll & Ht).
    unfold well_formed, length_of in *. simpl. split_and!; try done; lia.
Qed.

Lemma well_formed_exec h a o : well_formed h a → well_formed h (exec a o).
Proof.
  intros Ha. destruct o; simpl.
  - unfold play. destruct (isPlaying a) eqn:Hp; [done|].
    assert (timer a = false) as Htimer.
    { destruct (timer a) eqn:Ht; [|done].
      destruct Ha as (_ & _ & _ & Himp). rewrite Himp in Hp; done. }
    apply well_formed_nextStep; [|by case_decide].
    destruct Ha as (Hh & Hc & Hll & Ht).
    case_decide; unfold well_formed, length_of in *; simpl;
      split_and!; try done; lia.
  - by apply well_formed_pause.
  - unfold timeout. destruct (timer a) eqn:Htimer; [|done].
    apply well_formed_nextStep; [|done].
    destruct Ha as (Hh & Hc & Hll & Ht).
    unfold well_formed, length_of in *; simpl. split_and!; try done; lia.
  - unfold stepForward. case_decide; [done|].
    apply well_formed_draw.
    destruct Ha as (Hh & Hc & Hll & Ht).
    unfold well_formed, length_of in *; simpl. split_and!; try done; lia.
  - unfold stepBackward. case_decide; [done|].
    apply well_formed_draw.
    destruct Ha as (Hh & Hc & Hll & Ht).
    unfold well_formed, length_of in *; simpl. split_and!; try done; lia.
  - destruct Ha as (Hh & Hc & Hll & Ht).
    unfold well_formed, length_of in *; simpl. split_and!; try done; lia.
  - by apply well_formed_draw.
Qed.

Lemma well_formed_exec_all h ops a :
  well_formed h a → well_formed h (exec_all ops a).
Proof.
  revert a. induction ops as [|o ops IH]; intros a Ha; [done|].
  simpl. by apply IH, well_formed_exec.
Qed.

Lemma timeouts_state h (k : nat) :
  ∀ j a, running h j a ∨ finished h j a →
    running h (j + Z.of_nat k) (exec_all (replicate k Timeout) a)
    ∨ finished h (j + Z.of_nat k) (exec_all (replicate k Timeout) a).
Proof.
  induction k as [|k IH]; intros j a Ha.
  - simpl. by rewrite Z.add_0_r.
  - change (exec_all (replicate (S k) Timeout) a)
      with (exec_all (replicate k Timeout) (timeout a)).
    replace (j + Z.of_nat (S k)) with (j + 1 + Z.of_nat k) by lia.
    apply IH. destruct Ha as [Ha|Ha].
    + by apply timeout_running.
    + right. by apply timeout_finished.
Qed.

Lemma state_log h j a :
  0 ≤ j → running h j a ∨ finished h j a →
  executionLog a = lines (message <$> take (Z.to_nat (j + 1)) h).
Proof.
  intros Hj0 [(_ & _ & _ & _ & _ & _ & _ & ->)
             |(Hh & _ & _ & _ & _ & Hj & ->)]; [done|].
  rewrite take_ge; [done|]. unfold length_of in Hj. rewrite Hh in Hj. lia.
Qed.

Lemma play_finished h j a :
  finished h j a → running h 0 (play a) ∨ finished h 0 (play a).
Proof.
  intros (Hh & Hp & Ht & Hc & Hll & Hj & Hlog).
  unfold play. rewrite Hp. rewrite decide_True by lia.
  set (a2 := set_isPlaying true _).
  assert (stateHistory a2 = h ∧ currentIndex a2 = 0
          ∧ lastLoggedIndex a2 = -1 ∧ executionLog a2 = ""
          ∧ isPlaying a2 = true ∧ timer a2 = false)
    as (Hh2 & Hc2 & Hll2 & Hlog2 & Hp2 & Ht2) by done.
  assert (length_of a2 = Z.of_nat (length h)) as Hlen2
    by (unfold length_of; by rewrite Hh2).
  clearbody a2.
  destruct (nextStep_spec a2) as (Hh3 & Hlog3 & Hll3 & Hrest).
  destruct h as [|s h].
  - right. rewrite decide_True in Hrest by (simpl in *; lia).
    destruct Hrest as (Hp3 & Ht3 & Hc3).
    destruct (draw_silent false a2) as [Hlogd Hlld].
    { unfold logs. simpl in *. lia. }
    unfold finished, length_of. rewrite Hh3, Hp3, Ht3, Hc3, Hll3, Hlog3.
    rewrite Hlogd, Hlld, Hh2, Hp2, Hc2, Hll2, Hlog2. simpl.
    split_and!; done.
  - destruct (draw_logs false a2) as (s' & Hs & Hlogd & Hlld).
    { unfold logs. simpl in *. lia. }
    rewrite Hh2, Hc2 in Hs. injection Hs as <-.
    destruct (decide (currentIndex a2 >= length_of a2 - 1)) as [Hend|Hend].
    + right. destruct Hrest as (Hp3 & Ht3 & Hc3).
      assert (h = []) as -> by (destruct h; [done|simpl in *; lia]).
      unfold finished, length_of. rewrite Hh3, Hp3, Ht3, Hc3, Hll3, Hlog3.
      rewrite Hlogd, Hlld, Hh2, Hp2, Hc2, Hlog2. simpl.
      split_and!; try done. by rewrite append_empty_r.
    + left. destruct (Hrest Hp2) as (Hp3 & Ht3 & Hc3).
      unfold running, length_of. rewrite Hh3, Hp3, Ht3, Hc3, Hll3, Hlog3.
      rewrite Hlogd, Hlld, Hh2, Hc2, Hlog2. simpl in *.
      split_and!; try done; try lia. by rewrite append_empty_r.
Qed.

(** ** The buttons of the application *)

(** The methods of [PageReplacementSimulator] that drive the controller;
    [this.animator] is [None] before the first simulation and after
    [stopSimulation]. *)
Module App.

Definition togglePlayPause (animator : option Animator.t)
    : option Animator.t :=
  match animator with
  | None => None
  | Some a => Some (if isPlaying a then pause a else play a)
  end.

Definition stepForward (animator : option Animator.t) : option Animator.t :=
  match animator with
  | None => None
  | Some a => Some (Animator.stepForward (pause a))
  end.

Definition stepBackward (animator : option Animator.t) : option Animator.t :=
  match animator with
  | None => None
  | Some a => Some (Animator.stepBackward (pause a))
  end.

Definition updateSpeed (sliderValue : Z) (animator : option Animator.t)
    : option Animator.t :=
  match animator with
  | None => None
  | Some a => Some (setSpeed sliderValue a)
  end.

(** [exportScreenshot] redraws the current state, logging allowed. *)
Definition exportScreenshot (animator : option Animator.t)
    : option Animator.t :=
  match animator with
  | None => None
  | Some a => Some (drawCurrentState false a)
  end.

(** The [onResize] callback: a redraw without logging. *)
Definition onResize (animator : option Animator.t) : option Animator.t :=
  match animator with
  | None => None
  | Some a => Some (drawCurrentState true a)
  end.

Definition stopSimulation (animator : option Animator.t)
    : option Animator.t :=
  None.

End App.

Lemma running_three_faults :
  running three_faults 0 (play (start three_faults)).
Proof.
  unfold running. split_and!; try (by vm_compute).
Defined.

Lemma running_two_faults : running two_faults 0 (play (start two_faults)).
Proof.
  unfold running. split_and!; try (by vm_compute).
Defined.

(** X1: whatever operations are applied to a started controller, the
    cursor stays an index of the history (stepping or playing past either
    end does nothing), the watermark is [-1] or an index, the history is
    the one given, and the cursor always designates a state when there is
    one. *)
Theorem controller_stays_in_bounds (h : History) (ops : list op) :
  let a := exec_all ops (start h) in
  stateHistory a = h
  ∧ 0 ≤ currentIndex a ≤ Z.max 0 (Z.of_nat (length h) - 1)
  ∧ -1 ≤ lastLoggedIndex a < Z.of_nat (length h)
  ∧ (h ≠ [] → is_Some (h !! Z.to_nat (currentIndex a))).
Proof.
  cbn zeta.
  assert (well_formed h (exec_all ops (start h)))
    as (Hh & Hc & Hll & _).
  { apply well_formed_exec_all. apply well_formed_draw, well_formed_new. }
  unfold length_of in *. rewrite Hh in *.
  split_and!; try done; try lia.
  intros Hne. apply lookup_lt_is_Some.
  destruct h; [done|]. simpl in *. lia.
Qed.

Lemma controller_stays_in_bounds_witness :
  two_faults ≠ []
  ∧ is_Some (two_faults
               !! Z.to_nat (currentIndex
                              (exec_all [StepForward; StepForward; Play]
                                 (start two_faults)))).
Proof.
  assert (two_faults ≠ []) as Hne by (by vm_compute).
  split; [exact Hne|].
  destruct (controller_stays_in_bounds two_faults
              [StepForward; StepForward; Play]) as (_ & _ & _ & Hs).
  exact (Hs Hne).
Defined.

(** X2: in every reachable controller a timeout is pending only while it
    is playing.  So once paused the controller does nothing on its own: a
    timeout that would fire finds nothing to do, however often. *)
Theorem paused_controller_is_quiet (h : History) (ops : list op) (k : nat) :
  let a := exec_all ops (start h) in
  (timer a = true → isPlaying a = true)
  ∧ (isPlaying a = false → exec_all (replicate k Timeout) a = a)
  ∧ isPlaying (pause a) = false ∧ timer (pause a) = false
  ∧ executionLog (pause a) = executionLog a
  ∧ currentIndex (pause a) = currentIndex a.
Proof.
  cbn zeta.
  assert (well_formed h (exec_all ops (start h))) as (_ & _ & _ & Ht).
  { apply well_formed_exec_all. apply well_formed_draw, well_formed_new. }
  set (a := exec_all ops (start h)) in *. clearbody a.
  split_and!; [done| |..].
  - intros Hp.
    assert (timer a = false) as Htimer.
    { destruct (timer a); [|done]. rewrite Ht in Hp; done. }
    assert (timeout a = a) as Hto by (unfold timeout; by rewrite Htimer).
    induction k as [|k IH]; [done|].
    change (exec_all (replicate (S k) Timeout) a)
      with (exec_all (replicate k Timeout) (timeout a)).
    by rewrite Hto.
  - unfold pause. destruct (isPlaying a) eqn:Hp; done.
  - unfold pause. destruct (isPlaying a) eqn:Hp; simpl; [done|].
    destruct (timer a); [|done]. discriminate (Ht eq_refl).
  - unfold pause. by destruct (isPlaying a).
  - unfold pause. by destruct (isPlaying a).
Qed.

Lemma paused_controller_is_quiet_witness :
  isPlaying (exec_all [Play; Pause] (start three_faults)) = false
  ∧ exec_all (replicate 3 Timeout)
      (exec_all [Play; Pause] (start three_faults))
    = exec_all [Play; Pause] (start three_faults).
Proof.
  assert (isPlaying (exec_all [Play; Pause] (start three_faults)) = false)
    as Hp by (by vm_compute).
  split; [exact Hp|].
  destruct (paused_controller_is_quiet three_faults [Play; Pause] 3)
    as (_ & Hquiet & _).
  exact (Hquiet Hp).
Defined.

(** X3: the Step buttons of the application pause first: after either of
    them the controller is paused with no timeout pending, wherever it
    was. *)
Theorem app_step_leaves_paused (h : History) (ops : list op) :
  let a := exec_all ops (start h) in
  ∃ b c, App.stepForward (Some a) = Some b
       ∧ App.stepBackward (Some a) = Some c
       ∧ isPlaying b = false ∧ timer b = false
       ∧ isPlaying c = false ∧ timer c = false.
Proof.
  cbn zeta.
  assert (well_formed h (exec_all ops (start h))) as (_ & _ & _ & Ht).
  { apply well_formed_exec_all. apply well_formed_draw, well_formed_new. }
  set (a := exec_all ops (start h)) in *. clearbody a.
  assert (isPlaying (pause a) = false ∧ timer (pause a) = false)
    as [Hp Htimer].
  { unfold pause. destruct (isPlaying a) eqn:Hp; simpl; [done|].
    split; [done|]. destruct (timer a); [|done]. discriminate (Ht eq_refl). }
  eexists _, _. split_and!; [reflexivity..| | | |].
  - unfold stepForward. case_decide; [done|].
    by destruct (draw_fields false
                   (set_currentIndex (currentIndex (pause a) + 1) (pause a)))
      as (_ & _ & -> & _).
  - unfold stepForward. case_decide; [done|].
    by destruct (draw_fields false
                   (set_currentIndex (currentIndex (pause a) + 1) (pause a)))
      as (_ & _ & _ & ->).
  - unfold stepBackward. case_decide; [done|].
    by destruct (draw_fields true
                   (set_currentIndex (currentIndex (pause a) - 1) (pause a)))
      as (_ & _ & -> & _).
  - unfold stepBackward. case_decide; [done|].
    by destruct (draw_fields true
                   (set_currentIndex (currentIndex (pause a) - 1) (pause a)))
      as (_ & _ & _ & ->).
Qed.

(** X4: while automatic playback is under way and the state after the
    cursor is not the last one, pausing and resuming at once (two clicks
    on Play/Pause) is the same as the pending timeout firing: the state
    at the cursor is drawn and logged and the next timeout is
    scheduled. *)
Theorem resume_is_timeout (h : History) (j : Z) (a : Animator.t) :
  running h j a → j + 1 < Z.of_nat (length h) - 1 →
  App.togglePlayPause (App.togglePlayPause (Some a)) = Some (timeout a).
Proof.
  intros (Hh & Hp & Ht & Hc & Hll & Hj0 & Hj & Hlog) Hlt.
  unfold App.togglePlayPause. rewrite Hp.
  assert (isPlaying (pause a) = false) as ->
    by (unfold pause; by rewrite Hp).
  f_equal. unfold play, pause, timeout. rewrite Hp, Ht. simpl.
  unfold length_of. simpl. rewrite Hh, Hc.
  rewrite decide_False by lia.
  f_equal. destruct a; simpl in *. by subst.
Qed.

Lemma resume_is_timeout_witness :
  running three_faults 0 (play (start three_faults))
  ∧ 0 + 1 < Z.of_nat (length three_faults) - 1
  ∧ App.togglePlayPause
      (App.togglePlayPause (Some (play (start three_faults))))
    = Some (timeout (play (start three_faults))).
Proof.
  assert (0 + 1 < Z.of_nat (length three_faults) - 1) as Hlt
    by (by vm_compute).
  split_and!; [exact running_three_faults|exact Hlt|].
  exact (resume_is_timeout three_faults 0 _ running_three_faults Hlt).
Defined.

(** X5: when automatic playback is paused while the state at the cursor
    is the last one (it has not been drawn yet), resuming does not draw
    it: [play] takes the cursor at the end for a finished playback,
    clears the log and starts over from the first state. *)
Theorem resume_before_last_state_replays (h : History) (j : Z)
    (a : Animator.t) :
  running h j a → j + 1 = Z.of_nat (length h) - 1 →
  ∃ b s0, App.togglePlayPause (App.togglePlayPause (Some a)) = Some b
    ∧ h !! 0%nat = Some s0
    ∧ executionLog b = message s0 +:+ newline
    ∧ currentIndex b = 1 ∧ lastLoggedIndex b = 0
    ∧ isPlaying b = true ∧ timer b = true.
Proof.
  intros Ha Hlast.
  pose proof Ha as (Hh & Hp & Ht & Hc & Hll & Hj0 & Hj & Hlog).
  unfold App.togglePlayPause. rewrite Hp.
  assert (isPlaying (pause a) = false) as ->
    by (unfold pause; by rewrite Hp).
  set (b := play (pause a)).
  assert (length_of (pause a) = Z.of_nat (length h)) as Hlen.
  { unfold length_of, pause. rewrite Hp. simpl. by rewrite Hh. }
  assert (currentIndex (pause a) = j + 1) as Hcp
    by (unfold pause; rewrite Hp; simpl; done).
  assert (b = nextStep (set_isPlaying true
                (clear_log (set_lastLoggedIndex (-1)
                   (set_currentIndex 0 (pause a)))))) as Hb.
  { subst b. unfold play. assert (isPlaying (pause a) = false) as ->
      by (unfold pause; by rewrite Hp).
    rewrite decide_True by lia. done. }
  set (a2 := set_isPlaying true _) in Hb.
  assert (stateHistory a2 = h ∧ currentIndex a2 = 0
          ∧ lastLoggedIndex a2 = -1 ∧ executionLog a2 = ""
          ∧ isPlaying a2 = true ∧ timer a2 = false)
    as (Hh2 & Hc2 & Hll2 & Hlog2 & Hp2 & Ht2).
  { subst a2. unfold pause. rewrite Hp. simpl. by rewrite Hh. }
  clearbody a2.
  destruct h as [|s0 h]; [simpl in *; lia|].
  destruct (nextStep_spec a2) as (Hh3 & Hlog3 & Hll3 & Hrest).
  unfold length_of in Hrest. rewrite Hh2, Hc2 in Hrest.
  rewrite decide_False in Hrest by (simpl in *; lia).
  destruct (Hrest Hp2) as (Hp3 & Ht3 & Hc3).
  destruct (draw_logs false a2) as (s' & Hs & Hlogd & Hlld).
  { unfold logs, length_of. rewrite Hh2, Hc2, Hll2. simpl. lia. }
  rewrite Hh2, Hc2 in Hs. injection Hs as <-.
  exists b, s0. rewrite Hb, Hlog3, Hll3, Hlogd, Hlld, Hp3, Ht3, Hc3.
  rewrite Hlog2, Hc2. split_and!; done.
Qed.

Lemma resume_before_last_state_replays_witness :
  running two_faults 0 (play (start two_faults))
  ∧ 0 + 1 = Z.of_nat (length two_faults) - 1
  ∧ ∃ b s0,
      App.togglePlayPause
        (App.togglePlayPause (Some (play (start two_faults)))) = Some b
      ∧ two_faults !! 0%nat = Some s0
      ∧ executionLog b = message s0 +:+ newline
      ∧ currentIndex b = 1 ∧ lastLoggedIndex b = 0
      ∧ isPlaying b = true ∧ timer b = true.
Proof.
  assert (0 + 1 = Z.of_nat (length two_faults) - 1) as Hlast
    by (by vm_compute).
  split_and!; [exact running_two_faults|exact Hlast|].
  exact (resume_before_last_state_replays two_faults 0 _
           running_two_faults Hlast).
Defined.

(** X6: the Step Forward button during automatic playback skips a state.
    The cursor is then one ahead of the last state drawn; the button
    pauses and moves it once more, so the state in between is neither
    drawn nor logged: the log goes from state [j] to state [j + 2], and
    the watermark passes over [j + 1]. *)
Theorem step_forward_while_playing_skips (h : History) (j : Z)
    (a : Animator.t) :
  running h j a → j + 2 ≤ Z.of_nat (length h) - 1 →
  ∃ b s, App.stepForward (Some a) = Some b
    ∧ h !! Z.to_nat (j + 2) = Some s
    ∧ executionLog b
      = lines (message <$> take (Z.to_nat (j + 1)) h)
          +:+ (message s +:+ newline)
    ∧ currentIndex b = j + 2 ∧ lastLoggedIndex b = j + 2.
Proof.
  intros (Hh & Hp & Ht & Hc & Hll & Hj0 & Hj & Hlog) Hroom.
  unfold App.stepForward, stepForward.
  assert (pause a = set_timer false (set_isPlaying false a)) as ->
    by (unfold pause; by rewrite Hp).
  unfold length_of. simpl. rewrite Hh, Hc.
  rewrite decide_False by lia.
  set (a1 := set_currentIndex _ _).
  destruct (draw_logs false a1) as (s & Hs & Hlogd & Hlld).
  { unfold logs, length_of. subst a1. simpl. rewrite Hh, Hll. lia. }
  subst a1. simpl in *. rewrite Hh in Hs.
  replace (j + 1 + 1) with (j + 2) in * by lia.
  exists (drawCurrentState false
            (set_currentIndex (j + 2)
               (set_timer false (set_isPlaying false a)))), s.
  rewrite Hlogd, Hlld, Hlog.
  destruct (draw_fields false
              (set_currentIndex (j + 2)
                 (set_timer false (set_isPlaying false a))))
    as (_ & -> & _).
  split_and!; done.
Qed.

Lemma step_forward_while_playing_skips_witness :
  running three_faults 0 (play (start three_faults))
  ∧ 0 + 2 ≤ Z.of_nat (length three_faults) - 1
  ∧ ∃ b s, App.stepForward (Some (play (start three_faults))) = Some b
      ∧ three_faults !! Z.to_nat (0 + 2) = Some s
      ∧ executionLog b
        = lines (message <$> take (Z.to_nat (0 + 1)) three_faults)
            +:+ (message s +:+ newline)
      ∧ currentIndex b = 0 + 2 ∧ lastLoggedIndex b = 0 + 2.
Proof.
  assert (0 + 2 ≤ Z.of_nat (length three_faults) - 1) as Hroom
    by (by vm_compute).
  split_and!; [exact running_three_faults|exact Hroom|].
  exact (step_forward_while_playing_skips three_faults 0 _
           running_three_faults Hroom).
Defined.

(** The fields that automatic playback determines, [j] timeouts after
    [play]. *)
Definition playback_fields (h : History) (j : Z) (a : Animator.t) : Prop :=
  executionLog a = lines (message <$> take (Z.to_nat (j + 1)) h)
  ∧ if decide (j < Z.of_nat (length h) - 1) then
      isPlaying a = true ∧ timer a = true
      ∧ currentIndex a = j + 1 ∧ lastLoggedIndex a = j
    else
      isPlaying a = false ∧ timer a = false
      ∧ currentIndex a = Z.max 0 (Z.of_nat (length h) - 1)
      ∧ lastLoggedIndex a = Z.of_nat (length h) - 1.

Lemma state_fields h j a :
  0 ≤ j → running h j a ∨ finished h j a → playback_fields h j a.
Proof.
  intros Hj0 Ha. split; [by apply state_log|].
  destruct Ha as [(Hh & Hp & Ht & Hc & Hll & _ & Hj & _)
                 |(Hh & Hp & Ht & Hc & Hll & Hj & _)];
    unfold length_of in *; rewrite Hh in *.
  - by rewrite decide_True by lia.
  - by rewrite decide_False by lia.
Qed.

(** X7: automatic playback shows one state per timeout.  [k] timeouts
    after [play] on a started controller the log holds the narrations of
    states [0] to [k]; until the last state has been drawn the controller
    is playing with a timeout pending and the cursor one ahead of the
    watermark, afterwards it is stopped on the last state with every
    narration logged. *)
Theorem autoplay_shows_one_state_per_timeout (h : History) (k : nat) :
  let a := exec_all (Play :: replicate k Timeout) (start h) in
  executionLog a = lines (message <$> take (S k) h)
  ∧ if decide (Z.of_nat k < Z.of_nat (length h) - 1) then
      isPlaying a = true ∧ timer a = true
      ∧ currentIndex a = Z.of_nat k + 1 ∧ lastLoggedIndex a = Z.of_nat k
    else
      isPlaying a = false ∧ timer a = false
      ∧ currentIndex a = Z.max 0 (Z.of_nat (length h) - 1)
      ∧ lastLoggedIndex a = Z.of_nat (length h) - 1.
Proof.
  cbn zeta.
  destruct (state_fields h (Z.of_nat k) _ (Zle_0_nat k) (autoplay_state h k))
    as [Hlog Hrest].
  unfold autoplay in *. split; [|exact Hrest].
  rewrite Hlog. do 3 f_equal. lia.
Qed.

(** X8: playing again after the end repeats the first playback.  Once
    automatic playback has drawn the last state, [play] and [k] timeouts
    leave the log, the cursor, the watermark and the playing flag that
    [play] and [k] timeouts leave on a freshly started controller. *)
Theorem replay_repeats_first_playback (h : History) (j k : nat) :
  Z.of_nat (length h) - 1 ≤ Z.of_nat j →
  let first := exec_all (Play :: replicate k Timeout) (start h) in
  let again :=
    exec_all (Play :: replicate k Timeout)
      (exec_all (Play :: replicate j Timeout) (start h)) in
  executionLog again = executionLog first
  ∧ currentIndex again = currentIndex first
  ∧ lastLoggedIndex again = lastLoggedIndex first
  ∧ isPlaying again = isPlaying first
  ∧ timer again = timer first.
Proof.
  intros Hj. cbn zeta.
  assert (finished h (Z.of_nat j) (autoplay h j)) as Hfin.
  { destruct (autoplay_state h j) as [Hr|Hf]; [|done].
    destruct Hr as (Hh & _ & _ & _ & _ & _ & Hlt & _).
    unfold length_of in Hlt. rewrite Hh in Hlt. lia. }
  unfold autoplay in Hfin.
  set (a := exec_all (Play :: replicate j Timeout) (start h)) in *.
  change (exec_all (Play :: replicate k Timeout) a)
    with (exec_all (replicate k Timeout) (play a)).
  pose proof (timeouts_state h k 0 (play a) (play_finished h _ a Hfin))
    as Hagain.
  apply state_fields in Hagain; [|lia].
  pose proof (state_fields h (Z.of_nat k) _ (Zle_0_nat k)
                (autoplay_state h k)) as Hfirst.
  unfold autoplay in Hfirst.
  replace (0 + Z.of_nat k) with (Z.of_nat k) in Hagain by lia.
  destruct Hagain as [-> Ha], Hfirst as [-> Hf].
  case_decide.
  - destruct Ha as (-> & -> & -> & ->), Hf as (-> & -> & -> & ->). done.
  - destruct Ha as (-> & -> & -> & ->), Hf as (-> & -> & -> & ->). done.
Qed.

Lemma replay_repeats_first_playback_witness :
  Z.of_nat (length three_faults) - 1 ≤ Z.of_nat 2
  ∧ executionLog
      (exec_all (Play :: replicate 1 Timeout)
         (exec_all (Play :: replicate 2 Timeout) (start three_faults)))
    = executionLog
        (exec_all (Play :: replicate 1 Timeout) (start three_faults)).
Proof.
  assert (Z.of_nat (length three_faults) - 1 ≤ Z.of_nat 2) as Hj
    by (by vm_compute).
  split; [exact Hj|].
  destruct (replay_repeats_first_playback three_faults 2 1 Hj) as (Hlog & _).
  exact Hlog.
Defined.

(** * The renderer *)

(** What [Renderer] decides: which boxes are drawn and in which colours.
    The canvas is left out; a drawing is the list of its boxes. *)
Module Renderer.

Definition white : string := "#ffffff".
Definition green : string := "#10b981".
Definition blue : string := "#3b82f6".
Definition red : string := "#ef4444".
Definition grey : string := "#d1d5db".

(** One frame as [drawFrames] draws it: the page in the box ([drawBox]
    writes no text for [null]), the background, and whether "Evicted" is
    written under it. *)
Record FrameBox : Type := mkFrameBox {
  fb_page : value;
  fb_bgColor : string;
  fb_evicted : bool
}.

(** [lastStateFrames[index]]: [undefined] past the end. *)
Definition at_index (arr : list value) (index : nat) : value :=
  default Undefined (arr !! index).

(** The callback of [frames.forEach] in [drawFrames]; [lastStateFrames]
    is the global the wrapper of [animateStep] sets. *)
Definition drawFrame (lastStateFrames : list value)
    (evictedPage newPage hitPage : value) (index : nat) (page : value)
    : FrameBox :=
  let bgColor :=
    if decide (page = newPage) then green
    else if decide (page = hitPage) then blue
    else white in
  if decide (evictedPage ≠ Null
             ∧ at_index lastStateFrames index = evictedPage)
  then mkFrameBox page red true
  else mkFrameBox page bgColor false.

Definition drawFrames (lastStateFrames frames : list value)
    (evictedPage newPage hitPage : value) : list FrameBox :=
  imap (drawFrame lastStateFrames evictedPage newPage hitPage) frames.

(** The frames part of [animateStep], with the assignment to
    [lastStateFrames] that the constructor of the application wraps around
    it.  On a canvas without height [animateStep] returns once it has
    cleared it: nothing is drawn. *)
Definition animateStep_frames (clientHeight : Z) (lastState : option State)
    (state : State) : list FrameBox :=
  let lastStateFrames :=
    match lastState with
    | Some l => frames l
    | None => replicate (length (frames state)) Null
    end in
  if decide (clientHeight = 0) then []
  else
    drawFrames lastStateFrames (frames state) (pageToEvict state)
      (if isHit state then Null else Num (page state))
      (if isHit state then Num (page state) else Null).

(** The indicator under the frames. *)
Definition drawHitFaultIndicator (state : State) : string * string :=
  if isHit state then ("HIT!", green) else ("PAGE FAULT!", red).

(** One box of the reference string: already processed (grey), the
    current reference (blue, with the arrow under it), or still to come
    (white). *)
Inductive RefStyle : Type := Processed | Current | Future.

Definition ref_bgColor (style : RefStyle) : string :=
  match style with
  | Processed => grey
  | Current => blue
  | Future => white
  end.

(** [drawReferenceString] on a canvas [clientWidth] pixels wide: a box
    that would reach past the right edge is not drawn. *)
Definition drawReferenceString (clientWidth : Z) (allPages : list Z)
    (currentIndex : Z) : list (nat * Z * RefStyle) :=
  omap (λ '(index, page),
          let x := 20 + Z.of_nat index * (35 + 5) in
          if decide (x + 35 > clientWidth) then None
          else if decide (Z.of_nat index < currentIndex) then
            Some (index, page, Processed)
          else if decide (Z.of_nat index = currentIndex) then
            Some (index, page, Current)
          else Some (index, page, Future))
       (imap pair allPages).

End Renderer.

(** What [drawCurrentState] hands to the renderer for the state at index
    [n]: the state before it, or nothing for the first.  [clientHeight] is
    the height of the canvas. *)
Definition frames_drawn (clientHeight : Z) (h : History) (n : nat)
    (s : State) : list Renderer.FrameBox :=
  Renderer.animateStep_frames clientHeight
    (match n with O => None | S m => h !! m end) s.

(** The background of a frame, by what it holds: on a replacement the
    frame of the loaded page is red; otherwise the referenced page is blue
    on a hit and green on a fault, and an empty frame is green on a hit
    and blue on a fault. *)
Definition frame_colour (s : State) (x : value) : string :=
  if decide (pageToEvict s ≠ Null ∧ x = Num (page s)) then Renderer.red
  else if isHit s then
    (if decide (x = Num (page s)) then Renderer.blue
     else if decide (x = Null) then Renderer.green
     else Renderer.white)
  else
    (if decide (x = Num (page s)) then Renderer.green
     else if decide (x = Null) then Renderer.blue
     else Renderer.white).

(** Nothing is drawn on a canvas without height; on any other, one box
    per frame, coloured as [frame_colour] has it. *)
Definition colour_rule (clientHeight : Z) (h : History) : Prop :=
  ∀ (n : nat) s, h !! n = Some s →
    (clientHeight = 0 → frames_drawn clientHeight h n s = [])
    ∧ (clientHeight ≠ 0 →
       length (frames_drawn clientHeight h n s) = length (frames s)
       ∧ ∀ (k : nat) x, frames s !! k = Some x →
           frames_drawn clientHeight h n s !! k
           = Some (Renderer.mkFrameBox x (frame_colour s x)
                     (bool_decide
                        (pageToEvict s ≠ Null ∧ x = Num (page s))))).

Lemma last_frames_before (frameCount : Z) (h : History) (n : nat) s :
  h !! n = Some s →
  length (frames s) = length (v_frames (before frameCount h n)) →
  match match n with O => None | S m => h !! m end with
  | Some l => frames l
  | None => replicate (length (frames s)) Null
  end = v_frames (before frameCount h n).
Proof.
  intros Hs Hlen. destruct n as [|n].
  - rewrite Hlen. simpl. by rewrite length_replicate.
  - unfold before, before_from.
    destruct (lookup_lt_is_Some_2 h n) as [l Hl].
    { apply lookup_lt_Some in Hs. lia. }
    by rewrite Hl.
Qed.

Lemma drawFrame_colour (F : list value) (c : Vars) (i p : Z) (s : State)
    (k : nat) (x : value) :
  frames_ok F → v_frames c = F → loose c i p s →
  frames s !! k = Some x →
  Renderer.drawFrame F (pageToEvict s)
    (if isHit s then Null else Num (page s))
    (if isHit s then Num (page s) else Null) k x
  = Renderer.mkFrameBox x (frame_colour s x)
      (bool_decide (pageToEvict s ≠ Null ∧ x = Num (page s))).
Proof.
  intros Hok HF [_ Hpage Hhit _ Ho] Hk. subst p.
  rewrite HF in *. unfold loose_outcome in Ho.
  unfold Renderer.drawFrame, frame_colour.
  destruct (decide (Num (page s) ∈ F)) as [Hin|Hin].
  { destruct Ho as [HFs Hev].
    apply includes_true in Hin. rewrite Hin in Hhit.
    rewrite Hhit, Hev.
    rewrite decide_False by tauto.
    rewrite (decide_False (P := _ ∧ _)) by tauto.
    rewrite bool_decide_eq_false_2 by tauto.
    repeat case_decide; simplify_eq; done. }
  apply includes_false in Hin. rewrite Hin in Hhit. rewrite Hhit.
  apply includes_false in Hin.
  destruct (decide (Null ∈ F)) as [Hnull|Hnull].
  { destruct Ho as [Hev _]. rewrite Hev.
    rewrite decide_False by tauto.
    rewrite (decide_False (P := _ ∧ _)) by tauto.
    rewrite bool_decide_eq_false_2 by tauto.
    repeat case_decide; simplify_eq; done. }
  destruct Ho as (v & Hev & HFs).
  rewrite Hev.
  assert (Renderer.at_index F k = Num v ↔ x = Num (page s)) as Hred.
  { unfold Renderer.at_index.
    destruct (replacement_write F v (page s))
      as [(k0 & Hk0 & _ & Hset) | [Hv Hset]];
      rewrite Hset in HFs; rewrite HFs in Hk.
    - destruct (decide (k = k0)) as [->|Hne].
      + rewrite list_lookup_insert_eq in Hk by by eapply lookup_lt_Some.
        injection Hk as <-. by rewrite Hk0.
      + rewrite list_lookup_insert_ne in Hk by done. rewrite Hk. simpl.
        split.
        * intros ->. destruct Hne. by eapply frames_ok_slot.
        * intros ->. destruct Hin. by eapply list_elem_of_lookup_2.
    - rewrite Hk. simpl. split.
      + intros ->. destruct Hv. by eapply list_elem_of_lookup_2.
      + intros ->. destruct Hin. by eapply list_elem_of_lookup_2. }
  destruct (decide (x = Num (page s))) as [Hx|Hx].
  - rewrite decide_True by (split; [done|by apply Hred]).
    rewrite decide_True by done.
    by rewrite bool_decide_eq_true_2 by done.
  - rewrite decide_False by (rewrite Hred; tauto).
    rewrite (decide_False (P := _ ∧ _)) by tauto.
    rewrite bool_decide_eq_false_2 by tauto.
    assert (x ≠ Null) as Hxn.
    { intros ->. destruct Hnull.
      destruct (replacement_write F v (page s))
        as [(k0 & Hk0 & _ & Hset) | [Hv Hset]];
        rewrite Hset in HFs; rewrite HFs in Hk.
      - destruct (decide (k = k0)) as [->|Hne].
        + rewrite list_lookup_insert_eq in Hk by by eapply lookup_lt_Some.
          done.
        + rewrite list_lookup_insert_ne in Hk by done.
          by eapply list_elem_of_lookup_2.
      - by eapply list_elem_of_lookup_2. }
    repeat case_decide; simplify_eq; done.
Qed.

(** X9: how the frames are coloured.  For every valid input and each
    policy, on a canvas that has a height the renderer draws one box per
    frame; on a replacement fault the frame that received the page (the
    slot of the evicted page) is red and marked "Evicted", and no frame is
    green; otherwise the frame of the referenced page is blue on a hit and
    green on a fault.  The other frames are white, except the empty ones:
    they compare equal to the absent new or hit page and are drawn green
    on a hit and blue on a fault.  On a canvas whose height is 0 no frame
    is drawn. *)
Theorem frames_are_coloured_by_outcome (pages : list Z) (frameCount : Z)
    (algorithm : string) (clientHeight : Z) :
  valid_input pages frameCount → recognised algorithm →
  ∃ h, run pages frameCount algorithm = Ok h ∧ colour_rule clientHeight h.
Proof.
  intros [_ Hn] Halg.
  destruct (run_loose_trace pages frameCount algorithm Hn Halg)
    as (h & Hrun & Ht).
  exists h. split; [done|]. intros n s Hs.
  unfold frames_drawn, Renderer.animateStep_frames.
  split; intros Hheight; [by rewrite decide_True|].
  rewrite decide_False by done.
  destruct (trace_lookup _ _ _ _ _ Ht n s Hs) as (p & _ & Hok & Hc).
  fold (before frameCount h n) in Hok, Hc.
  pose proof (loose_length _ _ _ _ Hc) as Hlen.
  rewrite (last_frames_before frameCount h n s Hs Hlen).
  unfold Renderer.drawFrames. split; [by rewrite length_imap|].
  intros k x Hk. rewrite list_lookup_imap, Hk. simpl. f_equal.
  by eapply drawFrame_colour.
Qed.

Lemma frames_are_coloured_by_outcome_witness :
  valid_input textbook_pages 3 ∧ recognised "FIFO"
  ∧ ∃ h, run textbook_pages 3 "FIFO" = Ok h ∧ colour_rule 400 h.
Proof.
  split; [exact textbook_valid|].
  split; [left; reflexivity|].
  apply (frames_are_coloured_by_outcome textbook_pages 3 "FIFO" 400).
  - unfold valid_input, textbook_pages. split; [discriminate|lia].
  - left; reflexivity.
Defined.

(** An empty frame is drawn green while a hit is shown. *)
Example empty_frame_green_on_hit :
  ∀ h, run [7; 7] 2 "LRU" = Ok h →
    Renderer.fb_bgColor
      <$> (default [] (frames_drawn 400 h 1 <$> h !! 1%nat))
    = [Renderer.blue; Renderer.green].
Proof. intros h [= <-]. by vm_compute. Qed.

(** ** The reference string on the canvas *)

Definition ref_style (currentIndex : Z) (index : nat) : Renderer.RefStyle :=
  if decide (Z.of_nat index < currentIndex) then Renderer.Processed
  else if decide (Z.of_nat index = currentIndex) then Renderer.Current
  else Renderer.Future.

(** The number of boxes that fit on a canvas [clientWidth] wide. *)
Definition boxes_that_fit (clientWidth : Z) : nat :=
  Z.to_nat ((clientWidth - 15) / 40).

Lemma box_fits (clientWidth : Z) (index : nat) :
  ¬ (20 + Z.of_nat index * (35 + 5) + 35 > clientWidth)
  ↔ (index < boxes_that_fit clientWidth)%nat.
Proof.
  unfold boxes_that_fit.
  pose proof (Z.div_mod (clientWidth - 15) 40 ltac:(lia)) as Hdiv.
  pose proof (Z.mod_pos_bound (clientWidth - 15) 40 ltac:(lia)) as Hmod.
  split; intros H; lia.
Qed.

Lemma omap_cons_eq {A B : Type} (f : A → option B) (x : A) (l : list A) :
  omap f (x :: l)
  = match f x with Some y => y :: omap f l | None => omap f l end.
Proof. done. Qed.

Lemma drawReferenceString_from (clientWidth currentIndex : Z)
    (allPages : list Z) :
  ∀ (f : nat → nat), (∀ a b, (a < b)%nat → (f a < f b)%nat) →
    omap (λ '(index, page),
            let x := 20 + Z.of_nat index * (35 + 5) in
            if decide (x + 35 > clientWidth) then None
            else if decide (Z.of_nat index < currentIndex) then
              Some (index, page, Renderer.Processed)
            else if decide (Z.of_nat index = currentIndex) then
              Some (index, page, Renderer.Current)
            else Some (index, page, Renderer.Future))
         (imap (λ i, pair (f i)) allPages)
    = omap (λ '(index, page),
              if decide (index < boxes_that_fit clientWidth)%nat
              then Some (index, page, ref_style currentIndex index)
              else None)
           (imap (λ i, pair (f i)) allPages).
Proof.
  induction allPages as [|p ps IH]; intros f Hf; [done|].
  rewrite !imap_cons, !omap_cons_eq.
  change (imap ((λ i, pair (f i)) ∘ S) ps)
    with (imap (λ i, pair ((f ∘ S) i)) ps).
  rewrite (IH (f ∘ S)) by (intros a b Hab; apply Hf; lia).
  cbn beta iota zeta. unfold ref_style.
  pose proof (box_fits clientWidth (f 0%nat)) as Hfit.
  repeat case_decide; try done; tauto.
Qed.

Lemma omap_imap_take {A B : Type} (g : nat → A → B) (m : nat) (l : list A) :
  ∀ j : nat,
    omap (λ '(index, x),
            if decide (index < m)%nat then Some (g index x) else None)
         (imap (λ i, pair (j + i)%nat) l)
    = imap (λ i, g (j + i)%nat) (take (m - j) l).
Proof.
  induction l as [|x l IH]; intros j; [by rewrite take_nil|].
  rewrite imap_cons, omap_cons_eq. rewrite Nat.add_0_r.
  assert (omap (λ '(index, x),
             if decide (index < m)%nat then Some (g index x) else None)
            (imap ((λ i, pair (j + i)%nat) ∘ S) l)
          = imap (λ i, g (S j + i)%nat) (take (m - S j) l)) as Htail.
  { rewrite <- IH. f_equal. apply imap_ext. intros i y _. simpl.
    f_equal. lia. }
  rewrite Htail. case_decide as Hlt.
  - destruct (m - j)%nat as [|d] eqn:Hd; [lia|].
    simpl. rewrite Nat.add_0_r. f_equal.
    replace (m - S j)%nat with d by lia.
    apply imap_ext. intros i y _. simpl. f_equal. lia.
  - replace (m - j)%nat with 0%nat by lia.
    replace (m - S j)%nat with 0%nat by lia. done.
Qed.

(** X10: the reference string is cut at the right edge of the canvas.
    [drawReferenceString] draws the boxes of the first
    [(clientWidth - 15) / 40] references only, each grey, blue or white as
    its index is before, at or after the current step; past that number
    nothing is drawn, so the marker of the current reference is on the
    canvas exactly while [40 * step + 55 <= clientWidth]. *)
Theorem reference_string_is_cut_at_the_edge (clientWidth currentIndex : Z)
    (allPages : list Z) :
  Renderer.drawReferenceString clientWidth allPages currentIndex
  = imap (λ index page, (index, page, ref_style currentIndex index))
      (take (boxes_that_fit clientWidth) allPages)
  ∧ ((∃ page, (Z.to_nat currentIndex, page, Renderer.Current)
              ∈ Renderer.drawReferenceString clientWidth allPages
                  currentIndex)
     ↔ 0 ≤ currentIndex < Z.of_nat (length allPages)
       ∧ 40 * currentIndex + 55 ≤ clientWidth).
Proof.
  assert (Renderer.drawReferenceString clientWidth allPages currentIndex
          = imap (λ index page, (index, page, ref_style currentIndex index))
              (take (boxes_that_fit clientWidth) allPages)) as Heq.
  { unfold Renderer.drawReferenceString.
    etrans;
      [exact (drawReferenceString_from clientWidth currentIndex allPages id
                ltac:(intros a b; simpl; lia))|].
    etrans;
      [exact (omap_imap_take
                (λ index page, (index, page, ref_style currentIndex index))
                (boxes_that_fit clientWidth) allPages 0)|].
    by rewrite Nat.sub_0_r. }
  split; [exact Heq|]. rewrite Heq.
  pose proof (box_fits clientWidth (Z.to_nat currentIndex)) as Hfit.
  split.
  - intros (page & Hin). apply list_elem_of_lookup in Hin as (i & Hi).
    rewrite list_lookup_imap in Hi.
    destruct (take (boxes_that_fit clientWidth) allPages !! i)
      as [q|] eqn:Hq; [|done].
    simpl in Hi. injection Hi as Hidx -> Hstyle.
    apply lookup_take_Some in Hq as [Hq Hlt].
    apply lookup_lt_Some in Hq.
    unfold ref_style in Hstyle. repeat case_decide; try done.
    subst i. split; [lia|]. apply Hfit in Hlt. lia.
  - intros (Hrange & Hw).
    destruct (lookup_lt_is_Some_2 allPages (Z.to_nat currentIndex))
      as [page Hpage]; [lia|].
    exists page. apply list_elem_of_lookup. exists (Z.to_nat currentIndex).
    rewrite list_lookup_imap, lookup_take_lt, Hpage by (apply Hfit; lia).
    simpl. unfold ref_style.
    rewrite decide_False by lia. by rewrite decide_True by lia.
Qed.

(** * Starting a simulation *)

Module Simulator.

(** What [startSimulation] ends with: the "Invalid input" status, the
    status of an engine error, or a controller on the new history.
    [InfinitePage] stands for a run on pages of which one is [Infinity] or
    [-Infinity] (a numeral of more than 308 digits reads as such): the
    engine is embedded for pages that are integers, and what the program
    does on such a run is not covered. *)
Inductive Outcome : Type :=
  | Invalid
  | EngineError (e : exn)
  | Started (pages : list Z) (frameCount : Z) (animator : Animator.t)
  | InfinitePage.

(** The pages as integers, when all of them are. *)
Definition integers (pages : list Input.number) : option (list Z) :=
  mapM (λ p, match p with Input.Int z => Some z | _ => None end) pages.

Definition startSimulation (algorithm : string)
    (framesValue refString : list N) (sliderValue : Z) : Outcome :=
  let frameCount := Input.parseInt framesValue in
  let pages := Input.parse_pages refString in
  match frameCount with
  | Input.NaN => Invalid
  | Input.Inf _ => Invalid
  | Input.Int frameCount =>
      if decide (length pages = 0%nat ∨ frameCount <= 0 ∨ frameCount > 10)
      then Invalid
      else
        match integers pages with
        | None => InfinitePage
        | Some pages =>
            match run pages frameCount algorithm with
            | Throw error => EngineError error
            | Ok fullStateHistory =>
                let animator :=
                  setSpeed sliderValue (new fullStateHistory) in
                Started pages frameCount
                  (play (drawCurrentState false animator))
            end
        end
  end.

End Simulator.

Example parse_pages_tolerant :
  Input.parse_pages (Input.code_units " 7, 0,,x, -1 ,3abc, +2,")
  = Input.Int <$> [7; 0; -1; 3; 2].
Proof. by vm_compute. Qed.

Example parseInt_cases :
  Input.parseInt (Input.code_units "  12px") = Input.Int 12
  ∧ Input.parseInt (Input.code_units "-0") = Input.Int 0
  ∧ Input.parseInt (Input.code_units "3.9") = Input.Int 3
  ∧ Input.parseInt (Input.code_units "1e3") = Input.Int 1
  ∧ Input.parseInt (Input.code_units "- 4") = Input.NaN
  ∧ Input.parseInt (Input.code_units "") = Input.NaN.
Proof. by vm_compute. Qed.

(** Past [2^53] a numeral reads as the nearest double, and a key in
    exponent notation reads as its first digit. *)
Example parseInt_rounds :
  Input.parseInt (Input.code_units "9007199254740993")
  = Input.Int 9007199254740992
  ∧ Input.parseInt (Input.code_units "-9007199254740995")
    = Input.Int (-9007199254740996)
  ∧ Input.parseInt (numeral (10 ^ 309)) = Input.Inf false
  ∧ Input.parseInt (numeral (- 10 ^ 309)) = Input.Inf true
  ∧ Js.toString (10 ^ 21) = "1e+21"
  ∧ Input.parseInt_String (10 ^ 21) = 1
  ∧ Js.toString (2 ^ 70) = "1.1805916207174113e+21"
  ∧ Input.parseInt_String (- 2 ^ 70) = -1
  ∧ Js.toString (2 ^ 64) = "18446744073709552000"
  ∧ Input.parseInt_String (2 ^ 64) = 2 ^ 64.
Proof. by vm_compute. Qed.

(** ** The speed slider *)

(** Everything of a controller but the delay of its timer. *)
Definition shown (a : Animator.t) :=
  (stateHistory a, currentIndex a, isPlaying a, timer a, lastLoggedIndex a,
   executionLog a, statusMessage a).

Definition is_SetSpeed (o : op) : bool :=
  match o with SetSpeed _ => true | _ => false end.

(** The delay the last [setSpeed] of a sequence of calls leaves. *)
Definition delay_after (ops : list op) (delay : Z) : Z :=
  fold_left (λ d o, match o with SetSpeed v => 2100 - v | _ => d end)
    ops delay.

Lemma setSpeed_draw v b a :
  setSpeed v (drawCurrentState b a) = drawCurrentState b (setSpeed v a).
Proof.
  destruct a. unfold drawCurrentState, length_of. simpl.
  repeat (case_decide || case_match); try done; simpl in *; try lia.
Qed.

Lemma setSpeed_pause v a : setSpeed v (pause a) = pause (setSpeed v a).
Proof. destruct a as [? ? [] ? ? ? ? ?]; done. Qed.

Lemma setSpeed_nextStep v a :
  setSpeed v (nextStep a) = nextStep (setSpeed v a).
Proof.
  unfold nextStep. cbn zeta. rewrite <- setSpeed_draw.
  destruct (drawCurrentState false a) as [h c p d t l e m].
  unfold length_of. simpl.
  case_decide; [by destruct p|]. by destruct p.
Qed.

Lemma setSpeed_exec v a o :
  is_SetSpeed o = false → setSpeed v (exec a o) = exec (setSpeed v a) o.
Proof.
  destruct o; try done; intros _; simpl.
  - unfold play.
    change (isPlaying (setSpeed v a)) with (isPlaying a).
    destruct (isPlaying a); [done|].
    change (currentIndex (setSpeed v a)) with (currentIndex a).
    change (length_of (setSpeed v a)) with (length_of a).
    rewrite setSpeed_nextStep. by case_decide.
  - apply setSpeed_pause.
  - unfold timeout.
    change (timer (setSpeed v a)) with (timer a).
    destruct (timer a); [|done]. by rewrite setSpeed_nextStep.
  - unfold stepForward.
    change (currentIndex (setSpeed v a)) with (currentIndex a).
    change (length_of (setSpeed v a)) with (length_of a).
    case_decide; [done|]. by rewrite setSpeed_draw.
  - unfold stepBackward.
    change (currentIndex (setSpeed v a)) with (currentIndex a).
    case_decide; [done|]. by rewrite setSpeed_draw.
  - apply setSpeed_draw.
Qed.

Lemma setSpeed_exec_all v ops a :
  forallb (λ o, negb (is_SetSpeed o)) ops = true →
  setSpeed v (exec_all ops a) = exec_all ops (setSpeed v a).
Proof.
  revert a. induction ops as [|o ops IH]; intros a Hops; [done|].
  simpl in Hops. apply andb_prop in Hops as [Ho Hops].
  apply negb_true_iff in Ho.
  unfold exec_all in *. simpl. rewrite IH by done.
  by rewrite setSpeed_exec.
Qed.

Lemma shown_setSpeed v a : shown (setSpeed v a) = shown a.
Proof. done. Qed.

Lemma shown_exec a a' o :
  shown a = shown a' → shown (exec a o) = shown (exec a' o).
Proof.
  intros Hs.
  assert (a' = setSpeed (2100 - animationSpeed a') a) as ->.
  { destruct a, a'. unfold shown in Hs. simpl in *. simplify_eq.
    unfold setSpeed. simpl. f_equal. lia. }
  destruct (is_SetSpeed o) eqn:Ho.
  - by destruct o.
  - by rewrite <- setSpeed_exec.
Qed.

Lemma setSpeed_same a : setSpeed (2100 - animationSpeed a) a = a.
Proof. destruct a. unfold setSpeed. simpl. f_equal. lia. Qed.

Lemma animationSpeed_exec a o :
  is_SetSpeed o = false → animationSpeed (exec a o) = animationSpeed a.
Proof.
  intros Ho. rewrite <- (setSpeed_same a) at 1.
  rewrite <- setSpeed_exec by done. simpl. lia.
Qed.

(** X11: the speed slider changes the delay and nothing else.  Whatever
    calls are made on a controller, what it shows, logs and remembers is
    what the same calls without the speed changes give, and the delay is
    the one of the last speed change. *)
Theorem speed_changes_only_the_delay (ops : list op) (a : Animator.t) :
  shown (exec_all ops a)
  = shown (exec_all (filter (λ o, is_SetSpeed o = false) ops) a)
  ∧ animationSpeed (exec_all ops a) = delay_after ops (animationSpeed a).
Proof.
  split.
  - generalize (eq_refl (shown a)).
    generalize a at 2 4. intros a'. revert a a'.
    induction ops as [|o ops IH]; intros a a' Hs; [done|].
    destruct (is_SetSpeed o) eqn:Ho.
    + rewrite filter_cons_False by congruence.
      unfold exec_all. simpl. apply IH.
      by destruct o.
    + rewrite filter_cons_True by done.
      unfold exec_all. simpl. apply IH. by apply shown_exec.
  - revert a. induction ops as [|o ops IH]; intros a; [done|].
    unfold exec_all, delay_after in *. simpl. rewrite IH. f_equal.
    destruct (is_SetSpeed o) eqn:Ho.
    + by destruct o.
    + rewrite animationSpeed_exec by done. by destruct o.
Qed.

(** ** What [startSimulation] does with its inputs *)

Lemma started_controller (h : History) (sliderValue : Z) :
  play (drawCurrentState false (setSpeed sliderValue (new h)))
  = setSpeed sliderValue (play (start h)).
Proof.
  unfold start. rewrite <- setSpeed_draw.
  symmetry. by apply (setSpeed_exec sliderValue _ Play).
Qed.

Lemma integers_Some (ns : list Input.number) (zs : list Z) :
  Simulator.integers ns = Some zs ↔ ns = Input.Int <$> zs.
Proof.
  unfold Simulator.integers. rewrite mapM_Some. split.
  - induction 1 as [|n z ns zs Hn _ IH]; [done|].
    rewrite fmap_cons, <- IH. destruct n; by simplify_eq.
  - intros ->. induction zs; constructor; done.
Qed.

Lemma integers_None (ns : list Input.number) :
  Simulator.integers ns = None → Input.NaN ∉ ns →
  ∃ negative, Input.Inf negative ∈ ns.
Proof.
  unfold Simulator.integers. rewrite mapM_None, Exists_exists.
  intros ([|z|b] & Hin & Hnone) Hnan; [done..|]. by exists b.
Qed.

Lemma parse_pages_no_NaN refString :
  Input.NaN ∉ Input.parse_pages refString.
Proof.
  unfold Input.parse_pages. rewrite list_elem_of_filter. tauto.
Qed.

(** X12: the ways [startSimulation] ends.  It reports an invalid input
    exactly when no page can be read from the reference string or the
    frame count is not a number from 1 to 10.  On a valid input whose
    pages are all finite, the pages being the doubles [parseInt] reads, it
    reports an engine error exactly when the algorithm is not one of the
    three, the error being the unknown algorithm; otherwise the engine
    returns a history and the new controller has the delay of the slider
    and is playing with state 0 shown and logged and the timer pending,
    or, for a single reference, has already finished.  The embedding does
    not cover a valid input of which a page reads as [Infinity] or
    [-Infinity]. *)
Theorem startSimulation_outcome (algorithm : string)
    (framesValue refString : list N) (sliderValue : Z) :
  let read := Input.parse_pages refString in
  let count := Input.parseInt framesValue in
  let valid (n : Z) := read ≠ [] ∧ 1 ≤ n ≤ 10 in
  match
    Simulator.startSimulation algorithm framesValue refString sliderValue
  with
  | Simulator.Invalid => ∀ n, count = Input.Int n → ¬ valid n
  | Simulator.EngineError e =>
      (∃ n pages, count = Input.Int n ∧ read = Input.Int <$> pages
         ∧ valid_input pages n)
      ∧ ¬ recognised algorithm ∧ e = UnsupportedPolicy
  | Simulator.Started pages n a =>
      read = Input.Int <$> pages ∧ count = Input.Int n
      ∧ valid_input pages n ∧ recognised algorithm
      ∧ animationSpeed a = 2100 - sliderValue
      ∧ ∃ h, run pages n algorithm = Ok h
          ∧ if decide (length pages = 1%nat) then finished h 0 a
            else running h 0 a
  | Simulator.InfinitePage =>
      (∃ n, count = Input.Int n ∧ valid n)
      ∧ ∃ negative, Input.Inf negative ∈ read
  end.
Proof.
  intros read count valid. unfold Simulator.startSimulation.
  fold read. fold count.
  destruct count as [|n|b] eqn:Hn; [done| |done].
  case_decide as Hv.
  { intros n' [= <-] [Hp Hr]. destruct Hv as [Hv | Hv]; [|lia].
    by destruct read. }
  assert (valid n) as Hvalid.
  { split; [|lia]. intros Hp. rewrite Hp in Hv. simpl in Hv. tauto. }
  destruct (Simulator.integers read) as [pages|] eqn:Hint; cycle 1.
  { split; [by exists n|].
    apply integers_None; [done|apply parse_pages_no_NaN]. }
  apply integers_Some in Hint.
  assert (valid_input pages n) as Hvalid'.
  { destruct Hvalid as [Hne ?]. split; [|done].
    intros ->. by rewrite Hint in Hne. }
  destruct (decide (recognised algorithm)) as [Halg | Halg].
  - destruct (run_loose_trace pages n algorithm (proj2 Hvalid') Halg)
      as (h & Hrun & Ht).
    rewrite Hrun. rewrite started_controller.
    split_and!; try done. exists h. split; [done|].
    apply trace_length in Ht.
    destruct (play_start h) as [Hr | Hf].
    + rewrite decide_False; [exact Hr|].
      destruct Hr as (Hh & _ & _ & _ & _ & _ & Hlen & _).
      unfold length_of in Hlen. rewrite Hh in Hlen. lia.
    + case_decide as H1; [exact Hf|].
      destruct Hf as (Hh & _ & _ & _ & _ & Hlen & _).
      unfold length_of in Hlen. rewrite Hh in Hlen.
      destruct Hvalid' as [Hp _]. destruct pages; [done|]. simpl in *. lia.
  - rewrite (run_unrecognised pages n algorithm Halg).
    split_and!; try done. by exists n, pages.
Qed.

(** ** Reading numbers back *)

(** A field of a reference string: a numeral with white space around it,
    or white space only. *)
Definition field (o : option Z) (s : list N) : Prop :=
  match o with
  | Some z => ∃ ws1 ws2, blank ws1 ∧ blank ws2 ∧ s = ws1 ++ numeral z ++ ws2
  | None => blank s
  end.

(** [fields.join(',')] *)
Definition join (fields : list (list N)) : list N :=
  match fields with
  | [] => []
  | f :: fs => f ++ concat ((λ g, 44%N :: g) <$> fs)
  end.

Lemma trimStart_all_blank ws : blank ws → Input.trimStart ws = [].
Proof.
  intros Hws. rewrite <- (app_nil_r ws). by rewrite trimStart_blank.
Qed.

Lemma trim_blank ws : blank ws → Input.trim ws = [].
Proof.
  intros Hws. unfold Input.trim, Input.trimEnd.
  rewrite (trimStart_all_blank ws) by done. reflexivity.
Qed.

Lemma numeral_ends (z : Z) :
  ∃ c s c' s', numeral z = c :: s ∧ ¬ Input.is_space c
    ∧ reverse (numeral z) = c' :: s' ∧ ¬ Input.is_space c'.
Proof.
  assert (¬ Input.is_space 45) as Hminus.
  { unfold Input.is_space, Input.white_space.
    rewrite !elem_of_cons, elem_of_nil. lia. }
  destruct (numeral_shape z) as (d & ds & Hd & Hds & _ & Hnum).
  assert (∃ c', ¬ Input.is_space c'
            ∧ ∀ front, ∃ s', reverse (front ++ d :: ds) = c' :: s')
    as (c' & Hc' & Hrev).
  { destruct (reverse (d :: ds)) as [|c' s'] eqn:Hr.
    { apply (f_equal length) in Hr. rewrite length_reverse in Hr. done. }
    exists c'. split.
    - apply digit_not_space.
      assert (c' ∈ d :: ds) as Hin.
      { rewrite <- elem_of_reverse, Hr. left. }
      apply elem_of_cons in Hin as [-> | Hin]; [done|].
      by eapply Forall_forall in Hds.
    - intros front. rewrite reverse_app, Hr. by eexists. }
  destruct Hnum as [[_ ->] | [_ ->]].
  - destruct (Hrev []) as [s' Hr].
    exists d, ds, c', s'. split_and!; try done. by apply digit_not_space.
  - destruct (Hrev [45%N]) as [s' Hr].
    exists 45%N, (d :: ds), c', s'. split_and!; done.
Qed.

Lemma trim_numeral ws1 ws2 (z : Z) :
  blank ws1 → blank ws2 →
  Input.trim (ws1 ++ numeral z ++ ws2) = numeral z.
Proof.
  intros H1 H2.
  destruct (numeral_ends z) as (c & s & c' & s' & Hn & Hc & Hr & Hc').
  unfold Input.trim, Input.trimEnd.
  rewrite trimStart_blank by done.
  rewrite Hn at 1. change ((c :: s) ++ ws2) with (c :: (s ++ ws2)).
  rewrite trimStart_head by done.
  change (c :: (s ++ ws2)) with ((c :: s) ++ ws2). rewrite <- Hn.
  rewrite reverse_app, trimStart_blank.
  2:{ unfold blank. by apply Forall_reverse. }
  rewrite Hr, trimStart_head by done.
  by rewrite <- Hr, reverse_involutive.
Qed.

Lemma split_field sep (f : list N) :
  sep ∉ f → Input.split sep f = [f].
Proof.
  induction f as [|c f IH]; intros Hf; [done|].
  apply not_elem_of_cons in Hf as [Hc Hf].
  simpl. rewrite decide_False by done. by rewrite IH.
Qed.

Lemma split_app sep (f rest : list N) :
  sep ∉ f →
  Input.split sep (f ++ sep :: rest) = f :: Input.split sep rest.
Proof.
  induction f as [|c f IH]; intros Hf.
  - simpl. by rewrite decide_True.
  - apply not_elem_of_cons in Hf as [Hc Hf].
    simpl. rewrite decide_False by done. by rewrite IH.
Qed.

Lemma split_join (f : list N) (fs : list (list N)) :
  Forall (λ g, 44%N ∉ g) (f :: fs) →
  Input.split 44 (join (f :: fs)) = f :: fs.
Proof.
  revert f. induction fs as [|g fs IH]; intros f Hfs.
  - apply Forall_cons in Hfs as [Hf _].
    simpl. rewrite app_nil_r. by apply split_field.
  - apply Forall_cons in Hfs as [Hf Hfs].
    change (join (f :: g :: fs)) with (f ++ 44%N :: join (g :: fs)).
    rewrite split_app by done. by rewrite IH.
Qed.

Lemma field_no_comma o s : field o s → 44%N ∉ s.
Proof.
  assert (∀ ws, blank ws → 44%N ∉ ws) as Hblank.
  { intros ws Hws Hin. eapply Forall_forall in Hws; [|exact Hin].
    by apply space_not_comma in Hws. }
  destruct o as [z|]; simpl; [|by apply Hblank].
  intros (ws1 & ws2 & H1 & H2 & ->).
  rewrite !not_elem_of_app. split_and!; [by apply Hblank| |by apply Hblank].
  destruct (numeral_shape z) as (d & ds & Hd & Hds & _ & Hnum).
  assert (44%N ∉ d :: ds) as Hdig.
  { intros Hin. eapply Forall_forall in Hin; [|by constructor].
    unfold Input.is_digit in Hin. simpl in Hin. lia. }
  destruct Hnum as [[_ ->] | [_ ->]]; [done|].
  apply not_elem_of_cons. split; [lia|done].
Qed.

Lemma fields_read (os : list (option Z)) (fields : list (list N)) :
  Forall2 field os fields →
  Forall Js.safe_integer (omap id os) →
  filter (λ p, p ≠ Input.NaN)
    (Input.parseInt <$> filter (λ p, p ≠ []) (Input.trim <$> fields))
  = Input.Int <$> omap id os.
Proof.
  induction 1 as [|o s os fields Hf _ IH]; intros Hsafe; [done|].
  rewrite fmap_cons. destruct o as [z|]; simpl in Hf.
  - destruct Hf as (ws1 & ws2 & H1 & H2 & ->).
    rewrite omap_cons_eq in Hsafe. simpl in Hsafe.
    apply Forall_cons in Hsafe as [Hz Hsafe].
    rewrite trim_numeral by done.
    rewrite filter_cons_True.
    2:{ destruct (numeral_ends z) as (c & s' & _ & _ & -> & _). done. }
    rewrite fmap_cons, parseInt_numeral by done.
    rewrite filter_cons_True by done.
    rewrite !omap_cons_eq. simpl. by rewrite IH.
  - rewrite trim_blank by done.
    rewrite filter_cons_False by (intros Hne; by apply Hne).
    by rewrite IH.
Qed.

(** X13: a reference string is read back as written.  Where every field
    between the commas is a decimal numeral with optional white space
    around it, or is blank, the pages [startSimulation] reads are the
    numbers of the numerals, in order; blank fields, among them the one
    after a trailing comma, are skipped.  The numbers are in the range
    where [parseInt] is exact. *)
Theorem reference_string_is_read_back (os : list (option Z))
    (fields : list (list N)) :
  Forall2 field os fields →
  Forall (λ z, Z.abs z < 2 ^ 53) (omap id os) →
  Input.parse_pages (join fields) = Input.Int <$> omap id os.
Proof.
  intros Hf Hsafe. unfold Input.parse_pages.
  destruct Hf as [|o s os fields Ho Hf]; [done|].
  rewrite split_join.
  - apply fields_read; [by constructor|done].
  - apply Forall_cons. split; [by eapply field_no_comma|].
    clear Ho Hsafe. induction Hf as [|o' s' os fields Ho' _ IH];
      constructor; [by eapply field_no_comma|done].
Qed.

Lemma reference_string_is_read_back_witness :
  Forall2 field [Some 7; None; Some (-12); Some 0; None]
    (Input.code_units <$> ["7"; " "; "  -12 "; "0"; ""])
  ∧ Forall (λ z, Z.abs z < 2 ^ 53) [7; -12; 0]
  ∧ Input.parse_pages (Input.code_units "7, ,  -12 ,0,")
    = Input.Int <$> [7; -12; 0].
Proof.
  assert (blank [32%N; 32%N]) as Hsp by repeat constructor.
  assert (Forall2 field [Some 7; None; Some (-12); Some 0; None]
            (Input.code_units <$> ["7"; " "; "  -12 "; "0"; ""])) as Hf.
  { constructor.
    { exists [], []. split; [constructor|split; [constructor|]].
      vm_compute. reflexivity. }
    constructor; [exact (Forall_inv_tail Hsp)|].
    constructor.
    { exists [32%N; 32%N], [32%N].
      split; [exact Hsp|split; [exact (Forall_inv_tail Hsp)|]].
      vm_compute. reflexivity. }
    constructor.
    { exists [], []. split; [constructor|split; [constructor|]].
      vm_compute. reflexivity. }
    constructor; [constructor|]. constructor. }
  split; [exact Hf|]. split; [repeat constructor|].
  apply (reference_string_is_read_back
           [Some 7; None; Some (-12); Some 0; None]
           (Input.code_units <$> ["7"; " "; "  -12 "; "0"; ""]) Hf).
  repeat constructor.
Defined.

(** * The engine as a paging system *)

#[local] Set Warnings "-clear-no-such-hyp".

(** The pages in the frames, as a set. *)
Definition resident (F : list value) : gset Z :=
  list_to_set (pagesInFrames F).

(** The page faults of a history. *)
Definition misses (h : History) : nat :=
  length (filter (λ s, isHit s = false) h).

Lemma resident_elem (F : list value) (z : Z) :
  z ∈ resident F ↔ Num z ∈ F.
Proof.
  unfold resident. by rewrite elem_of_list_to_set, pagesInFrames_elem.
Qed.

Lemma resident_size (F : list value) :
  frames_ok F → size (resident F) = length (pagesInFrames F).
Proof. intros [_ Hnd]. by apply size_list_to_set. Qed.

Lemma pagesInFrames_length (F : list value) :
  (length (pagesInFrames F) ≤ length F)%nat.
Proof. induction F as [|[| |z] F IH]; simpl; lia. Qed.

Lemma pagesInFrames_null (F : list value) :
  Null ∈ F → (length (pagesInFrames F) < length F)%nat.
Proof.
  induction F as [|v F IH]; intros Hin; [by apply elem_of_nil in Hin|].
  apply elem_of_cons in Hin as [<- | Hin].
  - simpl. pose proof (pagesInFrames_length F). lia.
  - specialize (IH Hin). destruct v; simpl; lia.
Qed.

(** An empty slot is left exactly when fewer pages than frames are
    resident. *)
Lemma has_room (F : list value) :
  frames_ok F → Null ∈ F ↔ (size (resident F) < length F)%nat.
Proof.
  intros Hok. rewrite resident_size by done. split.
  - apply pagesInFrames_null.
  - intros Hlt. destruct (decide (Null ∈ F)) as [|Hn]; [done|].
    rewrite (frames_ok_full F Hok Hn) in Hlt. lia.
Qed.

Lemma resident_insert (F : list value) (k : nat) (old : value) (p : Z) :
  frames_ok F → F !! k = Some old →
  resident (<[k := Num p]> F)
  = match old with
    | Num v => resident F ∖ {[v]} ∪ {[p]}
    | _ => resident F ∪ {[p]}
    end.
Proof.
  intros [_ Hnd] Hk.
  destruct (insert_split F k old (Num p) Hk) as [HF ->].
  assert (pagesInFrames F
          = pagesInFrames (take k F)
            ++ match old with Num v => [v] | _ => [] end
            ++ pagesInFrames (drop (S k) F)) as HpF.
  { rewrite HF at 1. rewrite pagesInFrames_app. by destruct old. }
  unfold resident. rewrite HpF in Hnd |- *. rewrite pagesInFrames_app.
  change (pagesInFrames (Num p :: drop (S k) F))
    with (p :: pagesInFrames (drop (S k) F)).
  clear HF HpF. revert Hnd.
  generalize (pagesInFrames (take k F)) as A.
  generalize (pagesInFrames (drop (S k) F)) as B. intros B A Hnd.
  rewrite !list_to_set_app_L, list_to_set_cons.
  destruct old as [| |v]; simpl.
  - set_solver.
  - set_solver.
  - apply NoDup_app in Hnd as (_ & HAB & HB).
    apply NoDup_cons in HB as [HvB _].
    assert (v ∉ A) as HvA.
    { intros Hv. apply (HAB v Hv). left. }
    set_solver.
Qed.

(** What a step does to the resident set of [N] frames: a hit leaves it;
    a miss adds the page, in place of an evicted resident page when [N]
    pages are resident. *)
Definition paging_step (N : nat) (R : gset Z) (p : Z) (s : State)
    (R' : gset Z) : Prop :=
  if decide (p ∈ R) then
    isHit s = true ∧ pageToEvict s = Null ∧ R' = R
  else
    isHit s = false
    ∧ if decide (size R < N)%nat then
        pageToEvict s = Null ∧ R' = R ∪ {[p]}
      else
        ∃ v, pageToEvict s = Num v ∧ v ∈ R ∧ R' = R ∖ {[v]} ∪ {[p]}.

Lemma any_step_paging c i p s :
  any_step c i p s →
  frames_ok (frames s)
  ∧ length (frames s) = length (v_frames c)
  ∧ paging_step (length (v_frames c)) (resident (v_frames c)) p s
      (resident (frames s)).
Proof.
  intros [Hok Hc].
  split; [by eapply common_frames_ok|].
  split; [by eapply common_length|].
  destruct Hc as [_ _ Hhit _ Ho]. unfold outcome in Ho. unfold paging_step.
  destruct (decide (Num p ∈ v_frames c)) as [Hin | Hin].
  - rewrite decide_True by by apply resident_elem.
    destruct Ho as [-> ->]. split_and!; try done.
    rewrite Hhit. by apply includes_true.
  - rewrite decide_False by by rewrite resident_elem.
    split; [rewrite Hhit; by apply includes_false|].
    destruct (decide (Null ∈ v_frames c)) as [Hnull | Hnull].
    + rewrite decide_True by by apply has_room.
      destruct Ho as (-> & k & Hk & _ & ->). split; [done|].
      by rewrite (resident_insert _ k Null).
    + rewrite decide_False by by rewrite <- has_room.
      destruct Ho as (v & k & -> & Hk & ->). exists v. split; [done|].
      split.
      * apply resident_elem. by eapply list_elem_of_lookup_2.
      * by rewrite (resident_insert _ k (Num v)).
Qed.

(** Chains of steps on resident sets. *)
Inductive paging (N : nat) : gset Z → list Z → History → Prop :=
  | paging_nil R : paging N R [] []
  | paging_cons R p ps s hs R' :
      paging_step N R p s R' → paging N R' ps hs →
      paging N R (p :: ps) (s :: hs).

Lemma trace_paging c i ps hs :
  trace any_step c i ps hs →
  paging (length (v_frames c)) (resident (v_frames c)) ps hs.
Proof.
  induction 1 as [|c i p ps s hs HR Ht IH]; [constructor|].
  destruct (any_step_paging _ _ _ _ HR) as (_ & Hlen & Hstep).
  econstructor; [exact Hstep|].
  simpl in IH. by rewrite Hlen in IH.
Qed.

Lemma misses_cons s h :
  misses (s :: h) = if isHit s then misses h else S (misses h).
Proof.
  unfold misses. destruct (isHit s) eqn:Hhit.
  - rewrite filter_cons_False; [done|]. by rewrite Hhit.
  - by rewrite filter_cons_True.
Qed.

(** The fault counter of the last state counts the misses. *)
Lemma trace_faults c i ps hs :
  trace loose_step c i ps hs →
  from_option (λ s, faults (stats s)) (faults (v_stats c)) (last hs)
  = faults (v_stats c) + Z.of_nat (misses hs).
Proof.
  induction 1 as [|c i p ps s hs HR Ht IH]; [unfold misses; simpl; lia|].
  destruct HR as [_ [_ _ _ Hst _]].
  rewrite misses_cons.
  assert (faults (stats s)
          = faults (v_stats c) + if isHit s then 0 else 1) as Hf.
  { rewrite Hst. destruct (isHit s); simpl; lia. }
  destruct hs as [|s' hs].
  - simpl. rewrite Hf. unfold misses. destruct (isHit s); simpl; lia.
  - rewrite last_cons_cons.
    change (v_stats (after s)) with (stats s) in IH.
    destruct (last (s' :: hs)) as [sl|] eqn:Hlast.
    + simpl in *. rewrite IH, Hf. destruct (isHit s); lia.
    + by apply last_None in Hlast.
Qed.

Lemma run_loose_faults pages frameCount algorithm :
  1 ≤ frameCount ≤ 10 → recognised algorithm → pages ≠ [] →
  ∃ h, run pages frameCount algorithm = Ok h
    ∧ trace loose_step (initial frameCount) 0 pages h
    ∧ fault_count (run pages frameCount algorithm)
      = Some (Z.of_nat (misses h)).
Proof.
  intros Hn Halg Hp.
  destruct (run_loose_trace pages frameCount algorithm Hn Halg)
    as (h & Hrun & Ht).
  exists h. split_and!; try done.
  rewrite Hrun. simpl.
  pose proof (trace_faults _ _ _ _ Ht) as Hf.
  pose proof (trace_length _ _ _ _ _ Ht) as Hlen.
  destruct (last h) as [s|] eqn:Hlast.
  - simpl in *. f_equal. lia.
  - apply last_None in Hlast. subst h. by destruct pages.
Qed.

Lemma run_faults pages frameCount algorithm :
  1 ≤ frameCount ≤ 10 → recognised algorithm → pages ≠ [] →
  (algorithm = "OPTIMAL" → Forall round_trips pages) →
  ∃ h, run pages frameCount algorithm = Ok h
    ∧ trace any_step (initial frameCount) 0 pages h
    ∧ fault_count (run pages frameCount algorithm)
      = Some (Z.of_nat (misses h)).
Proof.
  intros Hn Halg Hp Hrt.
  destruct (run_trace pages frameCount algorithm Hn Halg Hrt)
    as (h & Hrun & Ht).
  destruct (run_loose_faults pages frameCount algorithm Hn Halg Hp)
    as (h' & Hrun' & _ & Hf).
  rewrite Hrun in Hrun'. injection Hrun' as <-. by exists h.
Qed.

(** What a step does to the resident set whatever page it names as
    evicted: at a miss on [N] resident pages the page named leaves the set
    and the referenced page enters it, or the set stays as it is. *)
Definition loose_paging_step (N : nat) (R : gset Z) (p : Z) (s : State)
    (R' : gset Z) : Prop :=
  if decide (p ∈ R) then
    isHit s = true ∧ pageToEvict s = Null ∧ R' = R
  else
    isHit s = false
    ∧ if decide (size R < N)%nat then
        pageToEvict s = Null ∧ R' = R ∪ {[p]}
      else
        ∃ v, pageToEvict s = Num v
          ∧ (v ∈ R ∧ R' = R ∖ {[v]} ∪ {[p]} ∨ (v ∉ R) ∧ R' = R).

Lemma loose_step_paging c i p s :
  loose_step c i p s →
  length (frames s) = length (v_frames c)
  ∧ loose_paging_step (length (v_frames c)) (resident (v_frames c)) p s
      (resident (frames s)).
Proof.
  intros [Hok Hc].
  split; [by eapply loose_length|].
  destruct Hc as [_ _ Hhit _ Ho]. unfold loose_outcome in Ho.
  unfold loose_paging_step.
  destruct (decide (Num p ∈ v_frames c)) as [Hin | Hin].
  - rewrite decide_True by by apply resident_elem.
    destruct Ho as [-> ->]. split_and!; try done.
    rewrite Hhit. by apply includes_true.
  - rewrite decide_False by by rewrite resident_elem.
    split; [rewrite Hhit; by apply includes_false|].
    destruct (decide (Null ∈ v_frames c)) as [Hnull | Hnull].
    + rewrite decide_True by by apply has_room.
      destruct Ho as (-> & k & Hk & _ & ->). split; [done|].
      by rewrite (resident_insert _ k Null).
    + rewrite decide_False by by rewrite <- has_room.
      destruct Ho as (v & -> & ->). exists v. split; [done|].
      destruct (replacement_write (v_frames c) v p)
        as [(k & Hk & _ & ->) | [Hv ->]].
      * left. split.
        -- apply resident_elem. by eapply list_elem_of_lookup_2.
        -- by rewrite (resident_insert _ k (Num v)).
      * right. split; [by rewrite resident_elem|done].
Qed.

Inductive loose_paging (N : nat) : gset Z → list Z → History → Prop :=
  | loose_paging_nil R : loose_paging N R [] []
  | loose_paging_cons R p ps s hs R' :
      loose_paging_step N R p s R' → loose_paging N R' ps hs →
      loose_paging N R (p :: ps) (s :: hs).

Lemma trace_loose_paging c i ps hs :
  trace loose_step c i ps hs →
  loose_paging (length (v_frames c)) (resident (v_frames c)) ps hs.
Proof.
  induction 1 as [|c i p ps s hs HR Ht IH]; [constructor|].
  destruct (loose_step_paging _ _ _ _ HR) as (Hlen & Hstep).
  econstructor; [exact Hstep|].
  simpl in IH. by rewrite Hlen in IH.
Qed.

(** ** Compulsory faults *)

(** The pages of a reference string, as a set. *)
Definition page_set (ps : list Z) : gset Z := list_to_set ps.

Lemma page_set_size (ps : list Z) :
  size (page_set ps) = length (remove_dups ps).
Proof.
  unfold page_set.
  rewrite <- (size_list_to_set (C:=gset Z) (remove_dups ps))
    by apply NoDup_remove_dups.
  f_equal. apply set_eq. intros z.
  by rewrite !elem_of_list_to_set, elem_of_remove_dups.
Qed.

Lemma size_add_new (X : gset Z) (p : Z) :
  p ∉ X → size (X ∪ {[p]}) = S (size X).
Proof.
  intros Hp. rewrite size_union by set_solver.
  rewrite size_singleton. lia.
Qed.

Lemma misses_le_length (h : History) : (misses h ≤ length h)%nat.
Proof. unfold misses. apply length_filter. Qed.

(** Each page not seen before costs a fault. *)
Lemma paging_distinct N R ps hs (X : gset Z) :
  loose_paging N R ps hs → R ⊆ X →
  (size (X ∪ page_set ps) ≤ size X + misses hs)%nat.
Proof.
  intros Hp. revert X.
  induction Hp as [R|R p ps s hs R' Hstep Hp IH]; intros X HRX.
  { unfold page_set, misses. simpl.
    replace (X ∪ ∅) with X by set_solver. lia. }
  rewrite misses_cons. unfold loose_paging_step in Hstep.
  unfold page_set in *. rewrite list_to_set_cons.
  destruct (decide (p ∈ X)) as [HpX | HpX].
  - replace (X ∪ ({[p]} ∪ list_to_set ps)) with (X ∪ list_to_set ps)
      by set_solver.
    assert (R' ⊆ X) as HR'.
    { repeat case_decide; destruct_and?;
        try destruct Hstep as (? & ? & [[? ?] | [? ?]]);
        destruct_and?; subst; set_solver. }
    specialize (IH X HR'). destruct (isHit s); lia.
  - rewrite decide_False in Hstep by set_solver.
    destruct Hstep as [-> Hstep].
    assert (R' ⊆ X ∪ {[p]}) as HR'.
    { case_decide; [destruct Hstep as [_ ->]; set_solver|].
      destruct Hstep as (v & _ & [[_ ->] | [_ ->]]); set_solver. }
    specialize (IH _ HR'). rewrite size_add_new in IH by done.
    replace (X ∪ ({[p]} ∪ list_to_set ps))
      with (X ∪ {[p]} ∪ list_to_set ps) by set_solver.
    lia.
Qed.

(** With room for every page of the reference string nothing is evicted,
    and each page faults once. *)
Lemma paging_fits N R ps hs :
  loose_paging N R ps hs → (size (R ∪ page_set ps) ≤ N)%nat →
  (misses hs + size R = size (R ∪ page_set ps))%nat
  ∧ Forall (λ s, pageToEvict s = Null) hs.
Proof.
  induction 1 as [R|R p ps s hs R' Hstep Hp IH]; intros Hfit.
  { unfold page_set, misses. simpl.
    replace (R ∪ ∅) with R by set_solver. by split. }
  rewrite misses_cons. unfold loose_paging_step in Hstep.
  unfold page_set in *. rewrite list_to_set_cons in *.
  destruct (decide (p ∈ R)) as [HpR | HpR].
  - destruct Hstep as (-> & Hev & ->).
    replace (R ∪ ({[p]} ∪ list_to_set ps)) with (R ∪ list_to_set ps)
      in * by set_solver.
    destruct (IH Hfit) as [Hm Hall]. split; [done|]. by constructor.
  - destruct Hstep as [-> Hstep].
    assert (size R < N)%nat as Hroom.
    { assert (R ∪ {[p]} ⊆ R ∪ ({[p]} ∪ list_to_set ps)) as Hsub
        by set_solver.
      apply subseteq_size in Hsub. rewrite size_add_new in Hsub by done.
      lia. }
    rewrite decide_True in Hstep by done. destruct Hstep as [Hev ->].
    replace (R ∪ ({[p]} ∪ list_to_set ps))
      with (R ∪ {[p]} ∪ list_to_set ps) in * by set_solver.
    destruct (IH Hfit) as [Hm Hall]. rewrite size_add_new in Hm by done.
    split; [lia|]. by constructor.
Qed.

Lemma resident_initial (frameCount : Z) :
  resident (v_frames (initial frameCount)) = ∅.
Proof.
  unfold resident, initial. simpl.
  generalize (Z.to_nat frameCount) as n.
  induction n as [|n IH]; [done|]. exact IH.
Qed.

(** X14: every distinct page costs a fault.  For a valid input and each of
    the three policies the fault count of the run is at least the number
    of distinct pages of the reference string, and at most its length. *)
Theorem faults_between_distinct_and_length (pages : list Z)
    (frameCount : Z) (algorithm : string) :
  valid_input pages frameCount → recognised algorithm →
  ∃ f, fault_count (run pages frameCount algorithm) = Some f
    ∧ Z.of_nat (length (remove_dups pages)) ≤ f ≤ Z.of_nat (length pages).
Proof.
  intros [Hp Hn] Halg.
  destruct (run_loose_faults pages frameCount algorithm Hn Halg Hp)
    as (h & Hrun & Ht & Hf).
  exists (Z.of_nat (misses h)). split; [done|].
  pose proof (trace_length _ _ _ _ _ Ht) as Hlen.
  pose proof (misses_le_length h) as Hle.
  apply trace_loose_paging in Ht. rewrite resident_initial in Ht.
  apply (paging_distinct _ _ _ _ ∅) in Ht; [|done].
  rewrite size_empty in Ht.
  replace (∅ ∪ page_set pages) with (page_set pages) in Ht by set_solver.
  rewrite page_set_size in Ht. lia.
Qed.

Lemma faults_between_distinct_and_length_witness :
  valid_input textbook_pages 3 ∧ recognised "LRU"
  ∧ ∃ f, fault_count (run textbook_pages 3 "LRU") = Some f
      ∧ Z.of_nat (length (remove_dups textbook_pages)) ≤ f
        ≤ Z.of_nat (length textbook_pages).
Proof.
  split; [exact textbook_valid|].
  split; [right; left; reflexivity|].
  apply (faults_between_distinct_and_length textbook_pages 3 "LRU").
  - exact textbook_valid.
  - right; left; reflexivity.
Defined.

(** X15: with a frame for every distinct page nothing is ever evicted.
    For a valid input whose distinct pages are no more than the frames,
    each of the three policies faults exactly once per distinct page and
    no state of the history names an evicted page. *)
Theorem enough_frames_never_evict (pages : list Z) (frameCount : Z)
    (algorithm : string) :
  valid_input pages frameCount → recognised algorithm →
  Z.of_nat (length (remove_dups pages)) ≤ frameCount →
  ∃ h, run pages frameCount algorithm = Ok h
    ∧ fault_count (run pages frameCount algorithm)
      = Some (Z.of_nat (length (remove_dups pages)))
    ∧ ∀ s, s ∈ h → pageToEvict s = Null.
Proof.
  intros [Hp Hn] Halg Hfit.
  destruct (run_loose_faults pages frameCount algorithm Hn Halg Hp)
    as (h & Hrun & Ht & Hf).
  exists h. split; [done|].
  apply trace_loose_paging in Ht. rewrite resident_initial in Ht.
  apply paging_fits in Ht.
  - replace (∅ ∪ page_set pages) with (page_set pages) in Ht by set_solver.
    rewrite size_empty, page_set_size in Ht. destruct Ht as [Hm Hall].
    split.
    + rewrite Hf. do 2 f_equal. lia.
    + by apply Forall_forall.
  - replace (∅ ∪ page_set pages) with (page_set pages) by set_solver.
    rewrite page_set_size. simpl. rewrite length_replicate. lia.
Qed.

Lemma enough_frames_never_evict_witness :
  valid_input textbook_pages 6 ∧ recognised "FIFO"
  ∧ Z.of_nat (length (remove_dups textbook_pages)) ≤ 6
  ∧ ∃ h, run textbook_pages 6 "FIFO" = Ok h
      ∧ fault_count (run textbook_pages 6 "FIFO")
        = Some (Z.of_nat (length (remove_dups textbook_pages)))
      ∧ ∀ s, s ∈ h → pageToEvict s = Null.
Proof.
  assert (valid_input textbook_pages 6) as Hv.
  { split; [discriminate|lia]. }
  assert (Z.of_nat (length (remove_dups textbook_pages)) ≤ 6) as Hd.
  { vm_compute. discriminate. }
  split; [exact Hv|]. split; [left; reflexivity|]. split; [exact Hd|].
  apply (enough_frames_never_evict textbook_pages 6 "FIFO" Hv);
    [left; reflexivity|exact Hd].
Defined.

(** ** LRU with more frames *)

(** The LRU run with [frameCount] frames hits exactly on the pages among
    the [frameCount] most recently referenced ones. *)
Lemma lru_hits (pages : list Z) (frameCount : Z) :
  1 ≤ frameCount ≤ 10 →
  ∃ h, run pages frameCount "LRU" = Ok h
    ∧ trace any_step (initial frameCount) 0 pages h
    ∧ ∀ (k : nat) s, h !! k = Some s →
        helperQueue s
        = take (Z.to_nat frameCount) (recency (take (S k) pages))
        ∧ (isHit s = true
           ↔ ∃ p, pages !! k = Some p
               ∧ p ∈ take (Z.to_nat frameCount) (recency (take k pages))).
Proof.
  intros Hn.
  destruct (runLRU_trace pages frameCount Hn) as (h & Hrun & Ht).
  exists h. split; [done|]. split.
  { eapply trace_impl; [|exact Ht].
    intros c i p s (Hl & Hc & _). split; [apply Hl|done]. }
  pose proof (lru_trace_recency _ _ _ _ [] (Z.to_nat frameCount) Ht) as Hrec.
  specialize (Hrec (NoDup_nil_2 (A:=Z))). simpl in Hrec.
  rewrite length_replicate, take_nil in Hrec.
  specialize (Hrec eq_refl eq_refl).
  intros k s Hs. split; [by apply Hrec|].
  destruct (trace_lookup _ _ _ _ _ Ht k s Hs) as (p & Hp & Hl & Hc & _).
  destruct Hc as [_ _ Hhit _ _].
  rewrite Hhit, includes_true, <- (linked_elem _ p Hl).
  assert (v_helper (before_from (initial frameCount) h k)
          = take (Z.to_nat frameCount) (recency (take k pages))) as ->.
  { destruct k as [|k]; [unfold recency; simpl; symmetry; apply take_nil|].
    simpl. assert (is_Some (h !! k)) as [s0 Hs0].
    { apply lookup_lt_is_Some. apply lookup_lt_Some in Hs. lia. }
    rewrite Hs0. simpl. by apply Hrec. }
  split.
  - intros Hin. by exists p.
  - intros (p' & Hp' & Hin). by simplify_eq.
Qed.

Lemma misses_mono (h h' : History) :
  length h = length h' →
  (∀ (k : nat) s s', h !! k = Some s → h' !! k = Some s' →
     isHit s = true → isHit s' = true) →
  (misses h' ≤ misses h)%nat.
Proof.
  revert h'. induction h as [|s h IH]; intros [|s' h'] Hlen Himp;
    try done.
  rewrite !misses_cons.
  assert (misses h' ≤ misses h)%nat as Hle.
  { apply IH; [by injection Hlen|].
    intros k t t' Ht Ht'. by apply (Himp (S k)). }
  pose proof (Himp 0%nat s s' eq_refl eq_refl) as H0.
  destruct (isHit s); [rewrite H0 by done; lia|].
  destruct (isHit s'); lia.
Qed.

Lemma fault_count_misses (pages : list Z) (frameCount : Z)
    (algorithm : string) (h : History) :
  pages ≠ [] → run pages frameCount algorithm = Ok h →
  trace any_step (initial frameCount) 0 pages h →
  fault_count (run pages frameCount algorithm) = Some (Z.of_nat (misses h)).
Proof.
  intros Hp Hrun Ht. rewrite Hrun. simpl.
  apply (trace_impl _ _ _ _ _ _ any_step_loose) in Ht.
  pose proof (trace_faults _ _ _ _ Ht) as Hf.
  pose proof (trace_length _ _ _ _ _ Ht) as Hlen.
  destruct (last h) as [s|] eqn:Hlast.
  - simpl in *. f_equal. lia.
  - apply last_None in Hlast. subst h. by destruct pages.
Qed.

(** X16: LRU has no Belady anomaly.  For a valid input, the pages resident
    after each step of the LRU run with [n] frames are resident after the
    same step of the run with [m >= n] frames, a hit of the smaller run is
    a hit of the larger one, and the larger run counts no more faults. *)
Theorem lru_more_frames_no_more_faults (pages : list Z) (n m : Z) :
  valid_input pages n → valid_input pages m → n ≤ m →
  ∃ hn hm fn fm,
    run pages n "LRU" = Ok hn ∧ run pages m "LRU" = Ok hm
    ∧ (∀ (k : nat) s s', hn !! k = Some s → hm !! k = Some s' →
         (∀ z, Num z ∈ frames s → Num z ∈ frames s')
         ∧ (isHit s = true → isHit s' = true))
    ∧ fault_count (run pages n "LRU") = Some fn
    ∧ fault_count (run pages m "LRU") = Some fm
    ∧ fm ≤ fn.
Proof.
  intros [Hp Hn] [_ Hm] Hnm.
  destruct (lru_hits pages n Hn) as (hn & Hrn & Htn & Hhn).
  destruct (lru_hits pages m Hm) as (hm & Hrm & Htm & Hhm).
  exists hn, hm, (Z.of_nat (misses hn)), (Z.of_nat (misses hm)).
  assert (∀ l : list Z, take (Z.to_nat n) l ⊆ take (Z.to_nat m) l) as Hsub.
  { intros l z Hz.
    replace (Z.to_nat n) with (Z.to_nat n `min` Z.to_nat m)%nat in Hz
      by lia.
    rewrite <- take_take in Hz. by eapply subseteq_take. }
  assert (∀ (k : nat) s s', hn !! k = Some s → hm !! k = Some s' →
            isHit s = true → isHit s' = true) as Hhit.
  { intros k s s' Hs Hs'.
    destruct (Hhn k s Hs) as [_ ->]. destruct (Hhm k s' Hs') as [_ ->].
    intros (p & Hpk & Hin). exists p. split; [done|]. by apply Hsub. }
  split_and!; try done.
  - intros k s s' Hs Hs'. split; [|by apply (Hhit k)].
    destruct (runLRU_trace pages n Hn) as (hn' & Hrn' & Htn').
    destruct (runLRU_trace pages m Hm) as (hm' & Hrm' & Htm').
    rewrite run_LRU in Hrn, Hrm.
    rewrite Hrn in Hrn'. injection Hrn' as <-.
    rewrite Hrm in Hrm'. injection Hrm' as <-.
    destruct (trace_lookup _ _ _ _ _ Htn' k s Hs) as (_ & _ & _ & _ & _ & Hl).
    destruct (trace_lookup _ _ _ _ _ Htm' k s' Hs')
      as (_ & _ & _ & _ & _ & Hl').
    intros z. rewrite <- (linked_elem _ z Hl), <- (linked_elem _ z Hl').
    simpl. destruct (Hhn k s Hs) as [-> _]. destruct (Hhm k s' Hs') as [-> _].
    apply Hsub.
  - by apply fault_count_misses.
  - by apply fault_count_misses.
  - apply inj_le. apply misses_mono; [|exact Hhit].
    apply trace_length in Htn, Htm. congruence.
Qed.

Lemma lru_more_frames_no_more_faults_witness :
  valid_input textbook_pages 3 ∧ valid_input textbook_pages 4 ∧ 3 ≤ 4
  ∧ ∃ hn hm fn fm,
      run textbook_pages 3 "LRU" = Ok hn ∧ run textbook_pages 4 "LRU" = Ok hm
      ∧ (∀ (k : nat) s s', hn !! k = Some s → hm !! k = Some s' →
           (∀ z, Num z ∈ frames s → Num z ∈ frames s')
           ∧ (isHit s = true → isHit s' = true))
      ∧ fault_count (run textbook_pages 3 "LRU") = Some fn
      ∧ fault_count (run textbook_pages 4 "LRU") = Some fm
      ∧ fm ≤ fn.
Proof.
  assert (valid_input textbook_pages 4) as Hv.
  { split; [discriminate|lia]. }
  split; [exact textbook_valid|]. split; [exact Hv|]. split; [lia|].
  apply (lru_more_frames_no_more_faults textbook_pages 3 4 textbook_valid Hv).
  lia.
Defined.

(** ** The least number of faults *)

(** The least value of [f] over a list, [0] for the empty one. *)
Definition min_over (f : Z → nat) (l : list Z) : nat :=
  match l with
  | [] => 0
  | u :: l' => foldr (λ v m, f v `min` m)%nat (f u) l'
  end.

(** The least number of faults with which the reference string [ps] can be
    served from the resident set [R] of [N] frames, when pages are loaded
    on a fault only and evicted only from full frames: at a replacement
    every resident page is tried as the victim. *)
Fixpoint least_faults (N : nat) (ps : list Z) (R : gset Z) : nat :=
  match ps with
  | [] => 0
  | q :: r =>
      if decide (q ∈ R) then least_faults N r R
      else if decide (size R < N)%nat then S (least_faults N r (R ∪ {[q]}))
      else S (min_over (λ u, least_faults N r (R ∖ {[u]} ∪ {[q]}))
                (elements R))
  end.

(** Page [v] is next referenced in [r] no sooner than page [q]: never, or
    at an index that is not before the one of [q]. *)
Definition no_sooner (r : list Z) (q v : Z) : Prop :=
  Js.indexOf v r = -1 ∨ 0 ≤ Js.indexOf q r ≤ Js.indexOf v r.

Lemma min_over_le (f : Z → nat) (l : list Z) (u : Z) :
  u ∈ l → (min_over f l ≤ f u)%nat.
Proof.
  destruct l as [|w l]; [by intros ?%elem_of_nil|].
  simpl. revert w. induction l as [|x l IH]; intros w Hu.
  - apply list_elem_of_singleton in Hu as ->. done.
  - simpl. apply elem_of_cons in Hu as [Hu | Hu].
    + assert (u ∈ w :: l) as Hw by (rewrite Hu; left).
      specialize (IH w Hw). lia.
    + apply elem_of_cons in Hu as [Hu | Hu]; [rewrite Hu; lia|].
      specialize (IH w ltac:(by right)). lia.
Qed.

Lemma min_over_attained (f : Z → nat) (l : list Z) :
  l ≠ [] → ∃ u, u ∈ l ∧ min_over f l = f u.
Proof.
  destruct l as [|w l]; [done|]. intros _.
  simpl. revert w. induction l as [|x l IH]; intros w.
  - exists w. split; [left|done].
  - simpl. destruct (IH w) as (u & Hu & Hmin).
    destruct (decide (f x ≤ f u)%nat) as [Hle | Hle].
    + exists x. split; [right; left|]. rewrite Hmin. lia.
    + exists u. split.
      * apply elem_of_cons in Hu as [-> | Hu]; [left|by do 2 right].
      * rewrite Hmin. lia.
Qed.

Lemma indexOf_cons (x y : Z) (l : list Z) :
  Js.indexOf x (y :: l)
  = if decide (y = x) then 0
    else if decide (Js.indexOf x l = -1) then -1
    else 1 + Js.indexOf x l.
Proof.
  unfold Js.indexOf. simpl. case_decide; [done|].
  destruct (list_find (λ y0 : Z, y0 = x) l) as [[k z]|]; simpl.
  - case_decide; lia.
  - done.
Qed.

Lemma no_sooner_tail (x a b : Z) (r : list Z) :
  x ≠ a → x ≠ b → no_sooner (x :: r) a b → no_sooner r a b.
Proof.
  intros Ha Hb. unfold no_sooner. rewrite !indexOf_cons.
  rewrite !(decide_False (P:=x = _)) by done.
  pose proof (indexOf_range a r). pose proof (indexOf_range b r).
  repeat case_decide; lia.
Qed.

Lemma no_sooner_head (a b : Z) (r : list Z) :
  no_sooner (b :: r) a b → a = b.
Proof.
  unfold no_sooner. rewrite !indexOf_cons.
  rewrite (decide_True (P:=b = b)) by done.
  pose proof (indexOf_range a r).
  destruct (decide (b = a)) as [|Hne]; [done|].
  repeat case_decide; lia.
Qed.

Lemma size_swap (Y : gset Z) (u a : Z) :
  u ∈ Y → a ∉ Y → size (Y ∖ {[u]} ∪ {[a]}) = size Y.
Proof.
  intros Hu Ha. rewrite size_union by set_solver.
  rewrite size_difference by set_solver. rewrite !size_singleton.
  assert (size Y ≠ 0%nat); [|lia].
  intros H0. apply size_empty_inv in H0. set_solver.
Qed.

Lemma elements_full (R : gset Z) (n : nat) :
  size R = S n → elements R ≠ [].
Proof.
  intros Hsz Hnil. apply elements_empty_inv in Hnil.
  apply leibniz_equiv in Hnil. subst R. by rewrite size_empty in Hsz.
Qed.

(** Two full resident sets that differ in one page: serving [ps] from one
    costs at most one fault more than from the other, and no more when its
    own page is the one referenced first. *)
Lemma least_faults_swap (N : nat) (ps : list Z) :
  ∀ (Y : gset Z) (a b : Z), a ∉ Y → b ∉ Y → S (size Y) = N →
    (least_faults N ps (Y ∪ {[a]}) ≤ S (least_faults N ps (Y ∪ {[b]})))%nat
    ∧ (no_sooner ps a b →
       (least_faults N ps (Y ∪ {[a]}) ≤ least_faults N ps (Y ∪ {[b]}))%nat).
Proof.
  induction ps as [|q r IH]; intros Y a b Ha Hb HN.
  { simpl. split; [lia|done]. }
  destruct (decide (a = b)) as [-> | Hab]; [split; [lia|done]|].
  assert (size (Y ∪ {[a]}) = N) as HA by by rewrite size_add_new.
  assert (size (Y ∪ {[b]}) = N) as HB by by rewrite size_add_new.
  pose proof (elements_full _ _ (eq_trans HA (eq_sym HN))) as HAne.
  pose proof (elements_full _ _ (eq_trans HB (eq_sym HN))) as HBne.
  cbn [least_faults].
  set (fA := λ u, least_faults N r ((Y ∪ {[a]}) ∖ {[u]} ∪ {[q]})).
  set (fB := λ u, least_faults N r ((Y ∪ {[b]}) ∖ {[u]} ∪ {[q]})).
  destruct (decide (q ∈ Y)) as [HqY | HqY].
  { rewrite !(decide_True (P:=q ∈ _)) by set_solver.
    destruct (IH Y a b Ha Hb HN) as [H1 H2]. split; [done|].
    intros Hs. apply H2. eapply no_sooner_tail; [| |exact Hs]; set_solver. }
  destruct (decide (q = a)) as [-> | Hqa].
  { rewrite (decide_True (P:=a ∈ Y ∪ {[a]})) by set_solver.
    rewrite (decide_False (P:=a ∈ Y ∪ {[b]})) by set_solver.
    rewrite (decide_False (P:=(size (Y ∪ {[b]}) < N)%nat)) by lia.
    assert (least_faults N r (Y ∪ {[a]})
            ≤ S (min_over fB (elements (Y ∪ {[b]}))))%nat as Hkey.
    { destruct (min_over_attained fB _ HBne) as (u & Hu & ->).
      apply elem_of_elements in Hu. unfold fB.
      destruct (decide (u = b)) as [-> | Hub].
      - replace ((Y ∪ {[b]}) ∖ {[b]} ∪ {[a]}) with (Y ∪ {[a]})
          by set_solver.
        lia.
      - assert (u ∈ Y) as HuY by set_solver.
        destruct (IH (Y ∖ {[u]} ∪ {[a]}) u b) as [H1 _];
          [set_solver|set_solver|by rewrite size_swap|].
        replace (Y ∖ {[u]} ∪ {[a]} ∪ {[u]}) with (Y ∪ {[a]}) in H1.
        2:{ apply set_eq. intros z. destruct (decide (z = u)); set_solver. }
        replace (Y ∖ {[u]} ∪ {[a]} ∪ {[b]})
          with ((Y ∪ {[b]}) ∖ {[u]} ∪ {[a]}) in H1 by set_solver.
        done. }
    split; [lia|by intros _]. }
  destruct (decide (q = b)) as [-> | Hqb].
  { rewrite (decide_False (P:=b ∈ Y ∪ {[a]})) by set_solver.
    rewrite (decide_False (P:=(size (Y ∪ {[a]}) < N)%nat)) by lia.
    rewrite (decide_True (P:=b ∈ Y ∪ {[b]})) by set_solver.
    split.
    - pose proof (min_over_le fA (elements (Y ∪ {[a]})) a) as Hle.
      unfold fA at 2 in Hle.
      replace ((Y ∪ {[a]}) ∖ {[a]} ∪ {[b]}) with (Y ∪ {[b]}) in Hle
        by set_solver.
      specialize (Hle ltac:(apply elem_of_elements; set_solver)). lia.
    - intros Hs. by apply no_sooner_head in Hs. }
  rewrite (decide_False (P:=q ∈ Y ∪ {[a]})) by set_solver.
  rewrite (decide_False (P:=q ∈ Y ∪ {[b]})) by set_solver.
  rewrite (decide_False (P:=(size (Y ∪ {[a]}) < N)%nat)) by lia.
  rewrite (decide_False (P:=(size (Y ∪ {[b]}) < N)%nat)) by lia.
  destruct (min_over_attained fB _ HBne) as (u' & Hu' & ->).
  apply elem_of_elements in Hu'.
  assert (∃ u, u ∈ Y ∪ {[a]} ∧ (fA u ≤ S (fB u'))%nat
            ∧ (no_sooner (q :: r) a b → (fA u ≤ fB u')%nat))
    as (u & Hu & H1 & H2).
  { unfold fA, fB. destruct (decide (u' = b)) as [-> | Hub].
    - exists a. split; [set_solver|].
      replace ((Y ∪ {[a]}) ∖ {[a]} ∪ {[q]})
        with ((Y ∪ {[b]}) ∖ {[b]} ∪ {[q]}) by set_solver.
      split; [lia|done].
    - assert (u' ∈ Y) as HuY by set_solver.
      exists u'. split; [set_solver|].
      destruct (IH (Y ∖ {[u']} ∪ {[q]}) a b) as [H1 H2];
        [set_solver|set_solver|by rewrite size_swap|].
      replace ((Y ∪ {[a]}) ∖ {[u']} ∪ {[q]})
        with (Y ∖ {[u']} ∪ {[q]} ∪ {[a]}) by set_solver.
      replace ((Y ∪ {[b]}) ∖ {[u']} ∪ {[q]})
        with (Y ∖ {[u']} ∪ {[q]} ∪ {[b]}) by set_solver.
      split; [done|]. intros Hs. apply H2.
      eapply no_sooner_tail; [| |exact Hs]; done. }
  pose proof (min_over_le fA (elements (Y ∪ {[a]})) u) as Hle.
  specialize (Hle ltac:(by apply elem_of_elements)).
  split; [lia|]. intros Hs. specialize (H2 Hs). lia.
Qed.

(** No chain of steps serves [ps] with fewer faults. *)
Lemma paging_least N R ps hs :
  paging N R ps hs → (size R ≤ N)%nat →
  (least_faults N ps R ≤ misses hs)%nat.
Proof.
  induction 1 as [R|R p ps s hs R' Hstep Hp IH]; intros Hsz; [done|].
  rewrite misses_cons. cbn [least_faults]. unfold paging_step in Hstep.
  destruct (decide (p ∈ R)) as [HpR | HpR].
  { destruct Hstep as (-> & _ & ->). by apply IH. }
  destruct Hstep as [-> Hstep].
  destruct (decide (size R < N)%nat) as [Hroom | Hfull].
  { destruct Hstep as [_ ->].
    rewrite size_add_new in IH by done. specialize (IH ltac:(lia)). lia. }
  destruct Hstep as (v & _ & Hv & ->).
  rewrite size_swap in IH by done. specialize (IH Hsz).
  pose proof (min_over_le (λ u, least_faults N ps (R ∖ {[u]} ∪ {[p]}))
                (elements R) v) as Hle.
  specialize (Hle ltac:(by apply elem_of_elements)). simpl in Hle. lia.
Qed.

(** Chains of steps whose victims are referenced no sooner than any other
    resident page. *)
Inductive opt_paging (N : nat) : gset Z → list Z → History → Prop :=
  | opt_paging_nil R : opt_paging N R [] []
  | opt_paging_cons R p ps s hs R' :
      paging_step N R p s R' →
      (∀ v, pageToEvict s = Num v → ∀ u, u ∈ R → no_sooner ps u v) →
      opt_paging N R' ps hs →
      opt_paging N R (p :: ps) (s :: hs).

(** Such a chain serves [ps] with the least number of faults. *)
Lemma opt_paging_least N R ps hs :
  opt_paging N R ps hs → (size R ≤ N)%nat →
  misses hs = least_faults N ps R.
Proof.
  induction 1 as [R|R p ps s hs R' Hstep Hfar Hp IH]; intros Hsz; [done|].
  rewrite misses_cons. cbn [least_faults]. unfold paging_step in Hstep.
  destruct (decide (p ∈ R)) as [HpR | HpR].
  { destruct Hstep as (-> & _ & ->). by apply IH. }
  destruct Hstep as [-> Hstep].
  destruct (decide (size R < N)%nat) as [Hroom | Hfull].
  { destruct Hstep as [_ ->].
    rewrite size_add_new in IH by done. f_equal. apply IH. lia. }
  destruct Hstep as (v & Hev & Hv & ->).
  rewrite size_swap in IH by done. rewrite (IH Hsz). f_equal.
  set (f := λ u, least_faults N ps (R ∖ {[u]} ∪ {[p]})).
  change (f v = min_over f (elements R)).
  assert (size R = N) as HN by lia.
  assert (size R ≠ 0)%nat as Hpos.
  { intros H0. apply size_empty_inv in H0. set_solver. }
  destruct (min_over_attained f (elements R)) as (u & Hu & Hmin).
  { apply (elements_full R (pred N)). lia. }
  apply elem_of_elements in Hu.
  pose proof (min_over_le f (elements R) v
                ltac:(by apply elem_of_elements)) as Hle.
  assert (f v ≤ f u)%nat; [|lia].
  destruct (decide (u = v)) as [-> | Huv]; [done|].
  destruct (least_faults_swap N ps (R ∖ {[u]} ∖ {[v]} ∪ {[p]}) u v)
    as [_ Hswap]; [set_solver|set_solver| |].
  { rewrite size_union by set_solver.
    rewrite !size_difference by set_solver.
    rewrite !size_singleton.
    assert (size R ≠ 1)%nat; [|lia].
    intros H1. by apply (Huv (size_singleton_inv R u v H1 Hu Hv)). }
  specialize (Hswap (Hfar v Hev u Hu)). unfold f.
  replace (R ∖ {[v]} ∪ {[p]}) with (R ∖ {[u]} ∖ {[v]} ∪ {[p]} ∪ {[u]}).
  2:{ apply set_eq. intros z. destruct (decide (z = u)); set_solver. }
  replace (R ∖ {[u]} ∪ {[p]}) with (R ∖ {[u]} ∖ {[v]} ∪ {[p]} ∪ {[v]}).
  2:{ apply set_eq. intros z. destruct (decide (z = v)); set_solver. }
  exact Hswap.
Qed.

Lemma opt_trace_paging (pages : list Z) c i ps hs :
  trace (opt_step pages) c i ps hs →
  0 ≤ i → drop (Z.to_nat i) pages = ps →
  opt_paging (length (v_frames c)) (resident (v_frames c)) ps hs.
Proof.
  induction 1 as [|c i p ps s hs HR Ht IH]; intros Hi Hdrop; [constructor|].
  destruct HR as (Hok & _ & Hc & _ & Hvictim).
  destruct (any_step_paging c i p s (conj Hok Hc)) as (_ & Hlen & Hstep).
  assert (Js.slice (i + 1) pages = ps) as Hrest.
  { unfold Js.slice. replace (Z.to_nat (i + 1)) with (Z.to_nat i + 1)%nat
      by lia.
    by rewrite <- drop_drop, Hdrop. }
  econstructor; [exact Hstep| |].
  - intros v Hev u Hu. apply resident_elem in Hu.
    destruct Hc as [_ _ _ _ Ho]. unfold outcome in Ho.
    destruct (decide (Num p ∈ v_frames c)) as [Hin | Hin];
      [destruct Ho as [_ Ho]; congruence|].
    destruct (decide (Null ∈ v_frames c)) as [Hnull | Hnull];
      [destruct Ho as [Ho _]; congruence|].
    destruct (Hvictim Hin Hnull) as (v' & Hev' & _ & Hfar).
    assert (v' = v) as -> by congruence.
    specialize (Hfar u Hu). unfold next_use in Hfar.
    rewrite Hrest in Hfar. exact Hfar.
  - simpl in IH. rewrite Hlen in IH. apply IH; [lia|].
    rewrite <- Hrest. unfold Js.slice. done.
Qed.

(** X17: OPTIMAL is optimal on pages that are safe integers (below
    [2^53] in absolute value).  For a valid input of such pages the
    OPTIMAL run counts the least number of faults with which the reference
    string can be served from the given number of frames: no chain of
    steps that loads a page on a fault only and evicts only from full
    frames has fewer misses; in particular the FIFO run and the LRU run
    count no fewer faults. *)
Theorem optimal_has_fewest_faults (pages : list Z) (frameCount : Z) :
  valid_input pages frameCount → Forall Js.safe_integer pages →
  ∃ h f,
    run pages frameCount "OPTIMAL" = Ok h
    ∧ fault_count (run pages frameCount "OPTIMAL") = Some f
    ∧ f = Z.of_nat (misses h)
    ∧ (∀ h', trace any_step (initial frameCount) 0 pages h' →
         (misses h ≤ misses h')%nat)
    ∧ ∀ algorithm, recognised algorithm →
        ∃ f', fault_count (run pages frameCount algorithm) = Some f'
              ∧ f ≤ f'.
Proof.
  intros [Hp Hn] Hsafe%safe_pages_round_trip.
  destruct (runOptimal_trace pages frameCount Hn Hsafe) as (h & Hrun & Ht).
  assert (trace any_step (initial frameCount) 0 pages h) as Hany.
  { eapply trace_impl; [|exact Ht].
    intros c i p s (Hok & _ & Hc & _). by split. }
  assert (size (resident (v_frames (initial frameCount)))
          ≤ length (v_frames (initial frameCount)))%nat as Hsz.
  { rewrite resident_initial, size_empty. lia. }
  assert (∀ h', trace any_step (initial frameCount) 0 pages h' →
            (misses h ≤ misses h')%nat) as Hleast.
  { intros h' Ht'.
    apply opt_trace_paging in Ht; [|done..].
    rewrite (opt_paging_least _ _ _ _ Ht Hsz).
    apply trace_paging in Ht'. by apply paging_least. }
  exists h, (Z.of_nat (misses h)).
  split_and!; try done.
  - by apply fault_count_misses.
  - intros algorithm Halg.
    destruct (run_faults pages frameCount algorithm Hn Halg Hp
                ltac:(done))
      as (h' & _ & Ht' & ->).
    eexists. split; [done|]. apply inj_le. by apply Hleast.
Qed.

Lemma optimal_has_fewest_faults_witness :
  valid_input textbook_pages 3 ∧ Forall Js.safe_integer textbook_pages
  ∧ ∃ h f,
      run textbook_pages 3 "OPTIMAL" = Ok h
      ∧ fault_count (run textbook_pages 3 "OPTIMAL") = Some f
      ∧ f = Z.of_nat (misses h)
      ∧ (∀ h', trace any_step (initial 3) 0 textbook_pages h' →
           (misses h ≤ misses h')%nat)
      ∧ ∀ algorithm, recognised algorithm →
          ∃ f', fault_count (run textbook_pages 3 algorithm) = Some f'
                ∧ f ≤ f'.
Proof.
  split; [exact textbook_valid|]. split; [exact textbook_safe|].
  exact (optimal_has_fewest_faults textbook_pages 3 textbook_valid
           textbook_safe).
Defined.

(** * The engine outside the validated range *)

(** Without frames FIFO and LRU fault on every reference, the frames
    staying empty. *)
Definition frameless (f : Loop → Z → Z → result Loop) : Prop :=
  ∀ l p i, l_frames l = [] →
    ∃ s, f l p i
         = Ok (mkLoop [] (helperQueue s) (l_history l ++ [s]) (stats s))
         ∧ isHit s = false ∧ frames s = [].

Lemma fifo_frameless : frameless fifo_callback.
Proof.
  intros l p i Hl. unfold fifo_callback. rewrite Hl.
  change (Js.includes (Num p) []) with false.
  change (Js.includes Null []) with false. cbn iota.
  destruct (Js.shift (l_queue l)) as [pageToEvict fifoQueue].
  assert (Js.array_set [] (Js.indexOf pageToEvict []) (Num p) = [])
    as -> by done.
  eexists (mkState _ _ _ _ _ _ _ _). split; [reflexivity|done].
Qed.

Lemma lru_frameless : frameless lru_callback.
Proof.
  intros l p i Hl. unfold lru_callback. rewrite Hl.
  change (Js.includes (Num p) []) with false.
  change (Js.includes Null []) with false. cbn iota.
  destruct (Js.pop (l_queue l)) as [pageToEvict lruStack].
  assert (Js.array_set [] (Js.indexOf pageToEvict []) (Num p) = [])
    as -> by done.
  eexists (mkState _ _ _ _ _ _ _ _). split; [reflexivity|done].
Qed.

Lemma frameless_forEach (f : Loop → Z → Z → result Loop) (ps : list Z) :
  frameless f →
  ∀ i l, l_frames l = [] →
    ∃ l' hs, Js.forEach_from f ps i l = Ok l'
      ∧ l_history l' = l_history l ++ hs
      ∧ length hs = length ps
      ∧ Forall (λ s, isHit s = false ∧ frames s = []) hs.
Proof.
  intros Hf. induction ps as [|p ps IH]; intros i l Hl.
  { exists l, []. by rewrite app_nil_r. }
  destruct (Hf l p i Hl) as (s & Hs & Hhit & Hfr).
  simpl. rewrite Hs. simpl.
  destruct (IH (i + 1) (mkLoop [] (helperQueue s) (l_history l ++ [s])
                          (stats s)) eq_refl)
    as (l' & hs & Hrun & Hh & Hlen & Hall).
  exists l', (s :: hs). split_and!.
  - done.
  - rewrite Hh. simpl. by rewrite <- app_assoc.
  - simpl. by rewrite Hlen.
  - by constructor.
Qed.

(** X18: the engine on inputs that [startSimulation] refuses.  For each of
    the three policies: a frame count that is negative or not below [2^32]
    is a [RangeError]; an empty reference string gives the empty history;
    and without frames a non-empty reference string makes OPTIMAL throw a
    [TypeError], while FIFO and LRU return a history of faults only, one
    state per reference, with no frames. *)
Theorem run_outside_the_validated_range (pages : list Z) (frameCount : Z)
    (algorithm : string) :
  recognised algorithm →
  (¬ 0 ≤ frameCount < 2 ^ 32 →
   run pages frameCount algorithm = Throw RangeError)
  ∧ (0 ≤ frameCount < 2 ^ 32 → pages = [] →
     run pages frameCount algorithm = Ok [])
  ∧ (frameCount = 0 → pages ≠ [] →
     if decide (algorithm = "OPTIMAL") then
       run pages frameCount algorithm = Throw TypeError
     else
       ∃ h, run pages frameCount algorithm = Ok h
         ∧ length h = length pages
         ∧ ∀ s, s ∈ h → isHit s = false ∧ frames s = []).
Proof.
  intros Halg. split_and!.
  - intros Hn.
    destruct Halg as [-> | [-> | ->]];
      rewrite ?run_FIFO, ?run_LRU, ?run_OPTIMAL;
      unfold runFIFO, runLRU, runOptimal, Js.new_Array_fill_null;
      by rewrite decide_False.
  - intros Hn ->.
    destruct Halg as [-> | [-> | ->]];
      rewrite ?run_FIFO, ?run_LRU, ?run_OPTIMAL;
      unfold runFIFO, runLRU, runOptimal, Js.new_Array_fill_null;
      by rewrite decide_True.
  - intros -> Hp.
    destruct Halg as [-> | [-> | ->]].
    + rewrite decide_False by done. rewrite run_FIFO.
      unfold runFIFO, Js.new_Array_fill_null, Js.forEach. simpl.
      destruct (frameless_forEach fifo_callback pages fifo_frameless 0
                  (mkLoop [] [] [] (mkStats 0 0 0)) eq_refl)
        as (l' & hs & -> & Hh & Hlen & Hall).
      simpl in *. exists hs. rewrite Hh. split_and!; try done.
      by apply Forall_forall.
    + rewrite decide_False by done. rewrite run_LRU.
      unfold runLRU, Js.new_Array_fill_null, Js.forEach. simpl.
      destruct (frameless_forEach lru_callback pages lru_frameless 0
                  (mkLoop [] [] [] (mkStats 0 0 0)) eq_refl)
        as (l' & hs & -> & Hh & Hlen & Hall).
      simpl in *. exists hs. rewrite Hh. split_and!; try done.
      by apply Forall_forall.
    + rewrite decide_True by done. rewrite run_OPTIMAL.
      destruct pages as [|p pages]; [done|]. reflexivity.
Qed.

Lemma run_outside_the_validated_range_witness :
  recognised "LRU"
  ∧ (¬ 0 ≤ 0 < 2 ^ 32 → run [5; 7] 0 "LRU" = Throw RangeError)
  ∧ (0 ≤ 0 < 2 ^ 32 → [5; 7] = [] → run [5; 7] 0 "LRU" = Ok [])
  ∧ (0 = 0 → [5; 7] ≠ [] →
     if decide ("LRU" = "OPTIMAL") then
       run [5; 7] 0 "LRU" = Throw TypeError
     else
       ∃ h, run [5; 7] 0 "LRU" = Ok h
         ∧ length h = length [5; 7]
         ∧ ∀ s, s ∈ h → isHit s = false ∧ frames s = []).
Proof.
  split; [right; left; reflexivity|].
  apply (run_outside_the_validated_range [5; 7] 0 "LRU").
  right; left; reflexivity.
Defined.

(** * Where the pages sit *)

(** The pages first, the empty slots after them. *)
Definition packed (F : list value) : Prop :=
  ∃ (l : list Z) (m : nat), F = (Num <$> l) ++ replicate m Null.

Lemma packed_step c i p s :
  loose c i p s → packed (v_frames c) → packed (frames s).
Proof.
  intros [_ _ _ _ Ho] (l & m & HF). unfold loose_outcome in Ho.
  rewrite HF in Ho.
  destruct (decide (Num p ∈ _)) as [Hin | Hin].
  { destruct Ho as [-> _]. by exists l, m. }
  destruct (decide (Null ∈ _)) as [Hnull | Hnull].
  - destruct Ho as (_ & k & Hk & Hmin & ->).
    assert (k = length l) as ->.
    { destruct (decide (k < length l)%nat) as [Hlt | Hge].
      - rewrite lookup_app_l in Hk by by rewrite length_fmap.
        rewrite list_lookup_fmap in Hk.
        destruct (l !! k); simpl in Hk; congruence.
      - destruct (decide (length l < k)%nat) as [Hgt | Hle]; [|lia].
        destruct (Hmin (length l) Hgt).
        apply lookup_lt_Some in Hk.
        rewrite length_app, length_fmap, length_replicate in Hk.
        rewrite lookup_app_r by by rewrite length_fmap.
        rewrite length_fmap, Nat.sub_diag.
        apply lookup_replicate_2. lia. }
    apply lookup_lt_Some in Hk.
    rewrite length_app, length_fmap, length_replicate in Hk.
    destruct m as [|m]; [lia|].
    exists (l ++ [p]), m.
    rewrite insert_app_r_alt by by rewrite length_fmap.
    rewrite length_fmap, Nat.sub_diag. simpl.
    by rewrite fmap_app, <- app_assoc.
  - destruct Ho as (v & _ & ->).
    destruct (replacement_write ((Num <$> l) ++ replicate m Null) v p)
      as [(k & Hk & _ & ->) | [_ ->]]; [|by exists l, m].
    assert (k < length l)%nat as Hlt.
    { destruct (decide (k < length l)%nat) as [|Hge]; [done|].
      rewrite lookup_app_r in Hk by (rewrite length_fmap; lia).
      apply lookup_replicate in Hk as [? _]. done. }
    exists (<[k := p]> l), m.
    rewrite insert_app_l by by rewrite length_fmap.
    by rewrite list_fmap_insert.
Qed.

Lemma trace_packed c i ps hs :
  trace loose_step c i ps hs → packed (v_frames c) →
  Forall (λ s, packed (frames s)) hs.
Proof.
  induction 1 as [|c i p ps s hs [_ Hc] Ht IH]; intros Hp; [constructor|].
  pose proof (packed_step _ _ _ _ Hc Hp) as Hs.
  constructor; [done|]. by apply IH.
Qed.

Lemma trace_frames_length c i ps hs :
  trace loose_step c i ps hs →
  Forall (λ s, length (frames s) = length (v_frames c)) hs.
Proof.
  induction 1 as [|c i p ps s hs [_ Hc] Ht IH]; [constructor|].
  apply loose_length in Hc. constructor; [done|].
  simpl in IH. by rewrite Hc in IH.
Qed.

(** X19: the frames fill from the left.  In every state of a run the
    pages occupy the first slots and the empty slots come after them: an
    empty frame never has a page to its right. *)
Theorem frames_fill_from_the_left (pages : list Z) (frameCount : Z)
    (algorithm : string) :
  valid_input pages frameCount → recognised algorithm →
  ∃ h, run pages frameCount algorithm = Ok h
    ∧ ∀ s, s ∈ h →
        ∃ (l : list Z) (m : nat),
          frames s = (Num <$> l) ++ replicate m Null
          ∧ Z.of_nat (length l + m) = frameCount.
Proof.
  intros [_ Hn] Halg.
  destruct (run_loose_trace pages frameCount algorithm Hn Halg)
    as (h & Hrun & Ht).
  exists h. split; [done|]. intros s Hs.
  pose proof (trace_packed _ _ _ _ Ht) as Hall.
  pose proof (trace_frames_length _ _ _ _ Ht) as Hlen.
  rewrite Forall_forall in Hall, Hlen.
  destruct (Hall ltac:(by exists [], (Z.to_nat frameCount)) s Hs)
    as (l & m & HF).
  exists l, m. split; [done|].
  specialize (Hlen s Hs). simpl in Hlen.
  rewrite HF, length_app, length_fmap, !length_replicate in Hlen. lia.
Qed.

Lemma frames_fill_from_the_left_witness :
  valid_input four_frames_pages 4 ∧ recognised "OPTIMAL"
  ∧ ∃ h, run four_frames_pages 4 "OPTIMAL" = Ok h
      ∧ ∀ s, s ∈ h →
          ∃ (l : list Z) (m : nat),
            frames s = (Num <$> l) ++ replicate m Null
            ∧ Z.of_nat (length l + m) = 4.
Proof.
  split; [exact four_frames_valid|].
  split; [right; right; reflexivity|].
  apply (frames_fill_from_the_left four_frames_pages 4 "OPTIMAL").
  - exact four_frames_valid.
  - right; right; reflexivity.
Defined.

(** * The narration of a step *)

(** The text [createState] receives for a reference of page [p] at step
    [i] on frames [F], as the three callbacks build it. *)
Definition narration (policy : string) (F : list value) (i p : Z)
    (s : State) : string :=
  msg_prefix i p
  +:+ (if Js.includes (Num p) F then msg_hit p
       else if Js.includes Null F then msg_load p (Js.indexOf Null F)
       else msg_evict p (pageToEvict s) policy
              (Js.indexOf (pageToEvict s) F)).

Definition narrated (policy : string) (c : Vars) (i p : Z) (s : State)
    : Prop :=
  message s = narration policy (v_frames c) i p s.

(** The name of the policy in the narration of a replacement. *)
Definition policy_name (algorithm : string) : string :=
  if decide (algorithm = "OPTIMAL") then "Optimal" else algorithm.

Lemma fifo_narrated (l : Loop) (p i : Z) s F q st :
  fifo_callback l p i = Ok (mkLoop F q (l_history l ++ [s]) st) →
  narrated "FIFO" (vars_of l) i p s.
Proof.
  unfold fifo_callback, narrated, narration, Js.push. simpl.
  destruct (Js.includes (Num p) (l_frames l)).
  { intros [= _ _ Hh _]. by apply app_inj_tail in Hh as [_ <-]. }
  destruct (Js.includes Null (l_frames l)).
  { intros [= _ _ Hh _]. by apply app_inj_tail in Hh as [_ <-]. }
  destruct (Js.shift (l_queue l)) as [pageToEvict fifoQueue].
  intros [= _ _ Hh _]. by apply app_inj_tail in Hh as [_ <-].
Qed.

Lemma lru_narrated (l : Loop) (p i : Z) s F q st :
  lru_callback l p i = Ok (mkLoop F q (l_history l ++ [s]) st) →
  narrated "LRU" (vars_of l) i p s.
Proof.
  unfold lru_callback, narrated, narration, Js.push. simpl.
  destruct (Js.includes (Num p) (l_frames l)).
  { intros [= _ _ Hh _]. by apply app_inj_tail in Hh as [_ <-]. }
  destruct (Js.includes Null (l_frames l)).
  { intros [= _ _ Hh _]. by apply app_inj_tail in Hh as [_ <-]. }
  destruct (Js.pop (l_queue l)) as [pageToEvict lruStack].
  intros [= _ _ Hh _]. by apply app_inj_tail in Hh as [_ <-].
Qed.

Lemma optimal_narrated (pages : list Z) (l : OLoop) (p i : Z) s F st
    (helper : list Z) :
  optimal_callback pages l p i = Ok (mkOLoop F (o_history l ++ [s]) st) →
  narrated "Optimal" (mkVars (o_frames l) helper (o_stats l)) i p s.
Proof.
  unfold optimal_callback, narrated, narration, Js.push. simpl.
  destruct (Js.includes (Num p) (o_frames l)).
  { intros [= _ Hh _]. by apply app_inj_tail in Hh as [_ <-]. }
  destruct (Js.includes Null (o_frames l)).
  { intros [= _ Hh _]. by apply app_inj_tail in Hh as [_ <-]. }
  destruct (Js.reduce _ _) as [key|e]; [|done]. simpl.
  intros [= _ Hh _]. by apply app_inj_tail in Hh as [_ <-].
Qed.

Section Narrated.
Variable f : Loop → Z → Z → result Loop.
Variable R : Vars → Z → Z → State → Prop.
Variable policy : string.
Hypothesis f_spec : ∀ l p i, linked (vars_of l) →
  ∃ s, f l p i
       = Ok (mkLoop (frames s) (helperQueue s) (l_history l ++ [s]) (stats s))
     ∧ R (vars_of l) i p s.
Hypothesis R_linked : ∀ c i p s, R c i p s → linked (after s).
Hypothesis f_narrated : ∀ l p i s F q st,
  f l p i = Ok (mkLoop F q (l_history l ++ [s]) st) →
  narrated policy (vars_of l) i p s.

Lemma narrated_forEach (ps : list Z) :
  ∀ (i : Z) (l : Loop), linked (vars_of l) →
    ∃ hs l', Js.forEach_from f ps i l = Ok l'
      ∧ l_history l' = l_history l ++ hs
      ∧ trace (narrated policy) (vars_of l) i ps hs.
Proof.
  induction ps as [|p ps IH]; intros i l Hl; simpl.
  - exists [], l. split_and!; [done| |constructor]. by rewrite app_nil_r.
  - destruct (f_spec l p i Hl) as (s & Hf & Hs).
    pose proof (f_narrated _ _ _ _ _ _ _ Hf) as Hmsg.
    rewrite Hf. simpl.
    destruct (IH (i + 1) (mkLoop (frames s) (helperQueue s)
                            (l_history l ++ [s]) (stats s))
                (R_linked _ _ _ _ Hs))
      as (hs & l' & -> & Hh & Ht).
    exists (s :: hs), l'. split_and!; [done| |].
    + rewrite Hh. simpl. by rewrite <- app_assoc.
    + by constructor.
Qed.
End Narrated.

Lemma optimal_narrated_forEach (pages ps : list Z) :
  ∀ (i : Z) (l : OLoop) (helper : list Z),
    frames_ok (o_frames l) → (0 < length (o_frames l))%nat →
    ∃ hs l', Js.forEach_from (optimal_callback pages) ps i l = Ok l'
      ∧ o_history l' = o_history l ++ hs
      ∧ trace (narrated "Optimal")
          (mkVars (o_frames l) helper (o_stats l)) i ps hs.
Proof.
  induction ps as [|p ps IH]; intros i l helper Hok Hpos; simpl.
  - exists [], l. split_and!; [done| |constructor]. by rewrite app_nil_r.
  - destruct (optimal_callback_spec pages l p i helper Hok Hpos)
      as (s & Hf & Hs).
    pose proof (optimal_narrated _ _ _ _ _ _ _ helper Hf) as Hmsg.
    rewrite Hf. simpl.
    destruct Hs as (_ & _ & Hc & _).
    destruct (IH (i + 1) (mkOLoop (frames s) (o_history l ++ [s]) (stats s))
                (helperQueue s))
      as (hs & l' & -> & Hh & Ht).
    { by eapply loose_frames_ok in Hc. }
    { apply loose_length in Hc. simpl in *. lia. }
    exists (s :: hs), l'. split_and!; [done| |].
    + rewrite Hh. simpl. by rewrite <- app_assoc.
    + by constructor.
Qed.

Lemma run_narrated (pages : list Z) (frameCount : Z) (algorithm : string) :
  1 ≤ frameCount ≤ 10 → recognised algorithm →
  ∃ h, run pages frameCount algorithm = Ok h
    ∧ trace (narrated (policy_name algorithm))
        (initial frameCount) 0 pages h.
Proof.
  intros Hn [-> | [-> | ->]].
  - rewrite run_FIFO. unfold runFIFO, Js.new_Array_fill_null, Js.forEach.
    rewrite decide_True by lia. simpl.
    destruct (narrated_forEach fifo_callback fifo_step "FIFO"
                fifo_callback_spec) with (ps := pages) (i := 0)
      (l := mkLoop (replicate (Z.to_nat frameCount) Null) [] []
              (mkStats 0 0 0))
      as (hs & l' & -> & Hh & Ht).
    + by intros c i p s (_ & _ & _ & Hl).
    + apply fifo_narrated.
    + apply (linked_initial frameCount). lia.
    + simpl. exists hs. split; [by rewrite Hh|done].
  - rewrite run_LRU. unfold runLRU, Js.new_Array_fill_null, Js.forEach.
    rewrite decide_True by lia. simpl.
    destruct (narrated_forEach lru_callback lru_step "LRU"
                lru_callback_spec) with (ps := pages) (i := 0)
      (l := mkLoop (replicate (Z.to_nat frameCount) Null) [] []
              (mkStats 0 0 0))
      as (hs & l' & -> & Hh & Ht).
    + by intros c i p s (_ & _ & _ & Hl).
    + apply lru_narrated.
    + apply (linked_initial frameCount). lia.
    + simpl. exists hs. split; [by rewrite Hh|done].
  - rewrite run_OPTIMAL.
    unfold runOptimal, Js.new_Array_fill_null, Js.forEach.
    rewrite decide_True by lia. simpl.
    destruct (optimal_narrated_forEach pages pages 0
                (mkOLoop (replicate (Z.to_nat frameCount) Null) []
                   (mkStats 0 0 0)) [])
      as (hs & l' & -> & Hh & Ht).
    { apply frames_ok_replicate. }
    { simpl. rewrite length_replicate. lia. }
    simpl. exists hs. split; [by rewrite Hh|done].
Qed.

(** What the narration of a state says, and that it is true: the step
    number and the page; on a hit that the page is in memory; on a fault
    with an empty slot the first empty frame, where the page now is; on a
    replacement the evicted page, the policy and the frame the evicted
    page was in, where the page now is.  A number is printed as
    [Js.toString] has it: in decimal digits below [10^21], in exponent
    notation from there on. *)
Definition narration_rule (policy : string) (pages : list Z)
    (frameCount : Z) (h : History) : Prop :=
  follows pages frameCount h
  ∧ ∀ (n : nat) s, h !! n = Some s →
    let F := v_frames (before frameCount h n) in
    let text := λ rest,
      message s = "Step " +:+ Js.toString (Z.of_nat n + 1) +:+ " (Page "
                  +:+ Js.toString (page s) +:+ "): " +:+ rest in
    (isHit s = true →
     text ("Page " +:+ Js.toString (page s)
           +:+ " is already in memory. (HIT)"))
    ∧ (isHit s = false → Null ∈ F →
       ∃ k : nat,
         text ("Page " +:+ Js.toString (page s)
               +:+ " caused a FAULT. Loaded into empty Frame "
               +:+ Js.toString (Z.of_nat k) +:+ ".")
         ∧ F !! k = Some Null
         ∧ (∀ j : nat, (j < k)%nat → F !! j ≠ Some Null)
         ∧ frames s !! k = Some (Num (page s)))
    ∧ (isHit s = false → Null ∉ F →
       ∃ (v : Z) (k : nat),
         text ("Page " +:+ Js.toString (page s)
               +:+ " caused a FAULT. Page "
               +:+ Js.toString v +:+ " (" +:+ policy
               +:+ ") was evicted from Frame "
               +:+ Js.toString (Z.of_nat k) +:+ ".")
         ∧ pageToEvict s = Num v
         ∧ F !! k = Some (Num v)
         ∧ frames s !! k = Some (Num (page s))).

Lemma msg_prefix_text (i p : Z) (rest : string) :
  msg_prefix i p +:+ rest
  = "Step " +:+ Js.toString (i + 1) +:+ " (Page " +:+ Js.toString p
    +:+ "): " +:+ rest.
Proof. unfold msg_prefix. by rewrite !append_assoc. Qed.

(** The pages in the frames are pages of the reference string. *)
Lemma trace_resident_pages (P : Z → Prop) c i ps hs :
  trace loose_step c i ps hs →
  (∀ z, Num z ∈ v_frames c → P z) → Forall P ps →
  ∀ (n : nat) z, Num z ∈ v_frames (before_from c hs n) → P z.
Proof.
  induction 1 as [|c i p ps s hs [Hok Hc] Ht IH]; intros Hc0 Hps n z Hz.
  { apply Hc0. by destruct n. }
  destruct n as [|n]; [by apply Hc0|].
  apply Forall_cons in Hps as [Hp Hps].
  assert (∀ z, Num z ∈ v_frames (after s) → P z) as Hafter.
  { intros z' Hz'.
    destruct (loose_frames_elem _ _ _ _ z' Hc Hz') as [-> | ?];
      [done|by apply Hc0]. }
  destruct n as [|n]; [by apply Hafter|].
  unfold before_from in Hz.
  change ((s :: hs) !! S n) with (hs !! n) in Hz.
  destruct (hs !! n) as [s'|] eqn:Hn; [|by apply Hc0].
  apply (IH Hafter Hps (S n) z). unfold before_from. by rewrite Hn.
Qed.

(** X20: the narration of every step is true.  For a valid input, under
    FIFO and LRU, and under OPTIMAL when the pages are safe integers
    (below [2^53] in absolute value), the message of state [n] names step
    [n + 1] and the referenced page, says HIT on a hit, on a fault with an
    empty slot names the first empty frame, which then holds the page, and
    on a replacement names the evicted page, the policy and the frame the
    evicted page was in, which then holds the page.  A page is named as
    the program prints a number; when the pages are safe integers that is
    the decimal numeral of every page named. *)
Theorem narration_is_true (pages : list Z) (frameCount : Z)
    (algorithm : string) :
  valid_input pages frameCount → recognised algorithm →
  (algorithm = "OPTIMAL" → Forall Js.safe_integer pages) →
  ∃ h, run pages frameCount algorithm = Ok h
    ∧ narration_rule (policy_name algorithm) pages frameCount h
    ∧ (Forall Js.safe_integer pages →
       ∀ s, s ∈ h → Js.toString (page s) = pretty (page s)
         ∧ ∀ v, pageToEvict s = Num v → Js.toString v = pretty v).
Proof.
  intros [_ Hn] Halg Hsafe.
  destruct (run_narrated pages frameCount algorithm Hn Halg)
    as (h & Hrun & Htn).
  destruct (run_trace pages frameCount algorithm Hn Halg) as (h' & Hrun' & Ht).
  { intros Ho. by apply safe_pages_round_trip, Hsafe. }
  rewrite Hrun in Hrun'. injection Hrun' as <-.
  exists h. split; [done|]. split; [split|].
  { by apply trace_any_follows. }
  - intros n s Hs.
    destruct (trace_lookup _ _ _ _ _ Ht n s Hs) as (p & Hp & Hok & Hc).
    destruct (trace_lookup _ _ _ _ _ Htn n s Hs) as (p' & Hp' & Hmsg).
    assert (p' = p) as -> by congruence.
    fold (before frameCount h n) in Hok, Hc, Hmsg.
    unfold narrated, narration in Hmsg. rewrite Z.add_0_l in Hmsg.
    rewrite msg_prefix_text in Hmsg.
    destruct Hc as [_ Hpage Hhit _ Ho]. subst p. unfold outcome in Ho.
    cbn zeta. set (F := v_frames (before frameCount h n)) in *.
    rewrite <- Hhit in Hmsg.
    split_and!.
    + intros Hh. by rewrite Hh in Hmsg.
    + intros Hh Hnull. rewrite Hh in Hmsg.
      rewrite Hh in Hhit. symmetry in Hhit. apply includes_false in Hhit.
      rewrite decide_False, decide_True in Ho by done.
      destruct Ho as (_ & k & Hk & Hmin & Hfr).
      destruct (indexOf_elem _ _ Hnull) as (k' & Hidx & Hk' & Hmin').
      assert (k' = k) as ->.
      { destruct (Nat.lt_trichotomy k' k) as [Hlt | [-> | Hgt]]; [|done|].
        - by destruct (Hmin k' Hlt).
        - by destruct (Hmin' k Hgt). }
      exists k. rewrite (proj2 (includes_true Null F) Hnull), Hidx in Hmsg.
      split_and!; try done.
      rewrite Hfr. apply list_lookup_insert_eq. by eapply lookup_lt_Some.
    + intros Hh Hnull. rewrite Hh in Hmsg.
      rewrite Hh in Hhit. symmetry in Hhit. apply includes_false in Hhit.
      rewrite !decide_False in Ho by done.
      destruct Ho as (v & k & Hev & Hk & Hfr).
      assert (Num v ∈ F) as Hv by by eapply list_elem_of_lookup_2.
      destruct (indexOf_elem _ _ Hv) as (k' & Hidx & Hk' & _).
      assert (k' = k) as -> by by eapply frames_ok_slot.
      exists v, k.
      rewrite (proj2 (includes_false Null F) Hnull), Hev, Hidx in Hmsg.
      split_and!; try done.
      rewrite Hfr. apply list_lookup_insert_eq. by eapply lookup_lt_Some.
  - intros Hall s Hs.
    apply list_elem_of_lookup in Hs as [n Hs].
    destruct (trace_lookup _ _ _ _ _ Ht n s Hs) as (p & Hp & Hok & Hc).
    fold (before frameCount h n) in Hok, Hc.
    assert (∀ z, Num z ∈ v_frames (before frameCount h n) →
              Js.safe_integer z) as Hres.
    { intros z. apply (trace_resident_pages _ _ 0 pages h); [|
        |done].
      - eapply trace_impl; [|exact Ht]. apply any_step_loose.
      - intros z' Hz'. by apply initial_no_page in Hz'. }
    pose proof Hc as [_ Hpage _ _ Ho].
    assert (Js.safe_integer (page s)) as Hps.
    { rewrite Hpage. rewrite Forall_forall in Hall. apply Hall.
      by eapply list_elem_of_lookup_2. }
    split; [by apply toString_safe|].
    intros v Hev. apply toString_safe. apply Hres.
    unfold outcome in Ho. repeat case_decide.
    + destruct Ho as [_ Ho]. congruence.
    + destruct Ho as [Ho _]. congruence.
    + destruct Ho as (v' & k & Hev' & Hk & _).
      assert (v' = v) as -> by congruence.
      by eapply list_elem_of_lookup_2.
Qed.

Lemma narration_is_true_witness :
  valid_input textbook_pages 3 ∧ recognised "OPTIMAL"
  ∧ ("OPTIMAL" = "OPTIMAL" → Forall Js.safe_integer textbook_pages)
  ∧ ∃ h, run textbook_pages 3 "OPTIMAL" = Ok h
      ∧ narration_rule (policy_name "OPTIMAL") textbook_pages 3 h
      ∧ (Forall Js.safe_integer textbook_pages →
         ∀ s, s ∈ h → Js.toString (page s) = pretty (page s)
           ∧ ∀ v, pageToEvict s = Num v → Js.toString v = pretty v).
Proof.
  split; [exact textbook_valid|].
  split; [right; right; reflexivity|].
  split; [intros _; exact textbook_safe|].
  apply (narration_is_true textbook_pages 3 "OPTIMAL").
  - exact textbook_valid.
  - right; right; reflexivity.
  - intros _. exact textbook_safe.
Defined.

(** * Redrawing during a playback *)

Lemma set_timer_draw (t b : bool) (a : Animator.t) :
  set_timer t (drawCurrentState b a) = drawCurrentState b (set_timer t a).
Proof.
  unfold drawCurrentState, length_of. simpl.
  case_decide; [done|].
  destruct (stateHistory a !! Z.to_nat (currentIndex a)); [|done].
  simpl. by destruct (negb b && _).
Qed.

(** A redraw before a logging draw changes nothing. *)
Lemma draw_draw (b : bool) (a : Animator.t) :
  drawCurrentState false (drawCurrentState b a) = drawCurrentState false a.
Proof.
  destruct a as [h c p d t l e m].
  unfold drawCurrentState, length_of. simpl.
  destruct (decide (c < 0 ∨ c >= Z.of_nat (length h))) as [Hr | Hr]; simpl.
  { by rewrite decide_True. }
  destruct (h !! Z.to_nat c) as [s|] eqn:Hs; simpl.
  2:{ rewrite decide_False by done. by rewrite Hs. }
  destruct b; simpl.
  - rewrite decide_False by done. rewrite Hs. simpl.
    by destruct (bool_decide (c > l)).
  - destruct (bool_decide (c > l)) eqn:Hgt; simpl.
    + rewrite decide_False by done. rewrite Hs. simpl.
      by rewrite bool_decide_eq_false_2 by lia.
    + rewrite decide_False by done. rewrite Hs. simpl. by rewrite Hgt.
Qed.

Lemma timeout_draw (b : bool) (a : Animator.t) :
  timer a = true → timeout (drawCurrentState b a) = timeout a.
Proof.
  intros Ht. unfold timeout.
  destruct (draw_fields b a) as (_ & _ & _ & ->). rewrite Ht.
  unfold nextStep. cbn zeta.
  by rewrite set_timer_draw, draw_draw.
Qed.

(** X21: a redraw during a playback shows the next state early.  While a
    playback is running with state [j] on the screen, exporting a
    screenshot draws state [j + 1] and adds its narration to the log, and
    a resize draws it without logging; the pending tick then leaves the
    controller as it would have without the redraw. *)
Theorem redraw_while_playing_shows_next_state (h : History) (j : Z)
    (a : Animator.t) :
  running h j a →
  ∃ s a1 a2,
    h !! Z.to_nat (j + 1) = Some s
    ∧ App.exportScreenshot (Some a) = Some a1
    ∧ App.onResize (Some a) = Some a2
    ∧ statusMessage a1 = message s ∧ statusMessage a2 = message s
    ∧ executionLog a1 = executionLog a +:+ (message s +:+ newline)
    ∧ executionLog a2 = executionLog a
    ∧ timeout a1 = timeout a ∧ timeout a2 = timeout a.
Proof.
  intros (Hh & Hp & Ht & Hc & Hll & Hj0 & Hj & Hlog).
  destruct (draw_logs false a) as (s & Hs & Hlogd & _).
  { unfold logs, length_of in *. lia. }
  rewrite Hh, Hc in Hs.
  exists s, (drawCurrentState false a), (drawCurrentState true a).
  split_and!; try done.
  - unfold drawCurrentState, length_of in *.
    rewrite decide_False by lia. rewrite Hh, Hc, Hs. simpl.
    by destruct (bool_decide _).
  - unfold drawCurrentState, length_of in *.
    rewrite decide_False by lia. by rewrite Hh, Hc, Hs.
  - apply draw_silent. unfold logs. by intros [? _].
  - by apply timeout_draw.
  - by apply timeout_draw.
Qed.

Lemma redraw_while_playing_shows_next_state_witness :
  running three_faults 0 (autoplay three_faults 0)
  ∧ ∃ s a1 a2,
      three_faults !! Z.to_nat (0 + 1) = Some s
      ∧ App.exportScreenshot (Some (autoplay three_faults 0)) = Some a1
      ∧ App.onResize (Some (autoplay three_faults 0)) = Some a2
      ∧ statusMessage a1 = message s ∧ statusMessage a2 = message s
      ∧ executionLog a1
        = executionLog (autoplay three_faults 0)
          +:+ (message s +:+ newline)
      ∧ executionLog a2 = executionLog (autoplay three_faults 0)
      ∧ timeout a1 = timeout (autoplay three_faults 0)
      ∧ timeout a2 = timeout (autoplay three_faults 0).
Proof.
  split; [exact running_three_faults|].
  exact (redraw_while_playing_shows_next_state three_faults 0
           (autoplay three_faults 0) running_three_faults).
Defined.

(** * The buttons *)

(** The part of [UIManager] that enables and disables the controls: the
    [disabled] flag of each control and the text of the play button (its
    style classes follow the text and are left out). *)
Module Ui.

Record t : Type := mk {
  playPauseButton : bool;
  stepBackwardButton : bool;
  stepForwardButton : bool;
  exportLogButton : bool;
  exportPngButton : bool;
  startButton : bool;
  algorithmSelect : bool;
  framesInput : bool;
  refStringInput : bool;
  playPauseText : string
}.

Definition toggleControls (isSimulating : bool) (u : t) : t :=
  let exportPng := negb isSimulating in
  let exportPng := if negb isSimulating then true else exportPng in
  mk (negb isSimulating) (negb isSimulating) (negb isSimulating)
     (negb isSimulating) exportPng
     isSimulating isSimulating isSimulating isSimulating
     (playPauseText u).

Definition setPlayButtonState (isPlaying : bool) (u : t) : t :=
  mk (playPauseButton u) (stepBackwardButton u) (stepForwardButton u)
     (exportLogButton u) (exportPngButton u) (startButton u)
     (algorithmSelect u) (framesInput u) (refStringInput u)
     (if isPlaying then "Pause" else "Play").

Definition updateStepButtonStates (currentIndex totalSteps : Z) (u : t)
    : t :=
  mk (playPauseButton u) (bool_decide (currentIndex <= 0))
     (bool_decide (currentIndex >= totalSteps - 1))
     (exportLogButton u) (exportPngButton u) (startButton u)
     (algorithmSelect u) (framesInput u) (refStringInput u)
     (playPauseText u).

(** [startButton.disabled = false; playPauseButton.disabled = false] *)
Definition allow_restart (u : t) : t :=
  mk false (stepBackwardButton u) (stepForwardButton u)
     (exportLogButton u) (exportPngButton u) false
     (algorithmSelect u) (framesInput u) (refStringInput u)
     (playPauseText u).

(** What the methods of the controller do to the controls; [a] is the
    controller when the method is called. *)
Definition drawCurrentState (a : Animator.t) (u : t) : t :=
  if decide (currentIndex a < 0 ∨ currentIndex a >= length_of a) then u
  else updateStepButtonStates (currentIndex a) (length_of a) u.

Definition pause (a : Animator.t) (u : t) : t :=
  if negb (isPlaying a) then u else setPlayButtonState false u.

Definition nextStep (a : Animator.t) (u : t) : t :=
  let u := drawCurrentState a u in
  let a := Animator.drawCurrentState false a in
  if decide (currentIndex a >= length_of a - 1) then
    let u := pause a u in
    allow_restart (toggleControls false u)
  else u.

Definition play (a : Animator.t) (u : t) : t :=
  if isPlaying a then u
  else
    let a :=
      if decide (currentIndex a >= length_of a - 1) then
        clear_log (set_lastLoggedIndex (-1) (set_currentIndex 0 a))
      else a in
    let a := set_isPlaying true a in
    let u := setPlayButtonState true u in
    let u := toggleControls true u in
    nextStep a u.

Definition stepForward (a : Animator.t) (u : t) : t :=
  if decide (currentIndex a >= length_of a - 1) then u
  else drawCurrentState (set_currentIndex (currentIndex a + 1) a) u.

Definition stepBackward (a : Animator.t) (u : t) : t :=
  if decide (currentIndex a <= 0) then u
  else drawCurrentState (set_currentIndex (currentIndex a - 1) a) u.

Definition timeout (a : Animator.t) (u : t) : t :=
  if timer a then nextStep (set_timer false a) u else u.

Definition exec (a : Animator.t) (o : op) (u : t) : t :=
  match o with
  | Play => play a u
  | Pause => pause a u
  | Timeout => timeout a u
  | StepForward => stepForward a u
  | StepBackward => stepBackward a u
  | SetSpeed _ => u
  | Draw _ => drawCurrentState a u
  end.

(** The controller and the controls after a sequence of calls. *)
Fixpoint exec_all (ops : list op) (a : Animator.t) (u : t)
    : Animator.t * t :=
  match ops with
  | [] => (a, u)
  | o :: ops => exec_all ops (Animator.exec a o) (exec a o u)
  end.

(** The controls [startSimulation] leaves, from the controls [u] before:
    [toggleControls(true)], [setPlayButtonState(true)], the first draw
    and [play]. *)
Definition start (stateHistory : History) (sliderValue : Z) (u : t) : t :=
  let a := setSpeed sliderValue (new stateHistory) in
  let u := toggleControls true u in
  let u := setPlayButtonState true u in
  let u := drawCurrentState a u in
  play (Animator.drawCurrentState false a) u.

End Ui.

(** What holds of the controls whatever is called: the play button is
    enabled and says what a click will not do; the three inputs are locked
    with the start button; exporting is possible exactly while they are
    locked; and they are locked while a playback is running. *)
Definition controls_ok (a : Animator.t) (u : Ui.t) : Prop :=
  Ui.playPauseText u = (if isPlaying a then "Pause" else "Play")
  ∧ Ui.playPauseButton u = false
  ∧ Ui.algorithmSelect u = Ui.startButton u
  ∧ Ui.framesInput u = Ui.startButton u
  ∧ Ui.refStringInput u = Ui.startButton u
  ∧ Ui.exportLogButton u = negb (Ui.startButton u)
  ∧ Ui.exportPngButton u = negb (Ui.startButton u)
  ∧ (isPlaying a = true → Ui.startButton u = true).

Lemma controls_ok_fields a a' u :
  isPlaying a' = isPlaying a → controls_ok a u → controls_ok a' u.
Proof. unfold controls_ok. by intros ->. Qed.

Lemma controls_ok_draw b a u :
  controls_ok a u →
  controls_ok (drawCurrentState b a) (Ui.drawCurrentState a u).
Proof.
  intros Hok.
  apply (controls_ok_fields a); [apply (draw_fields b a)|].
  unfold Ui.drawCurrentState. by case_decide.
Qed.

Lemma controls_ok_pause a u :
  controls_ok a u → controls_ok (pause a) (Ui.pause a u).
Proof.
  intros (Htext & Hpp & Ha & Hf & Hr & Hel & Hep & Hlock).
  unfold pause, Ui.pause, controls_ok.
  destruct (isPlaying a) eqn:Hp; simpl; rewrite ?Hp; by split_and!.
Qed.

Lemma controls_ok_nextStep a u :
  controls_ok a u → controls_ok (nextStep a) (Ui.nextStep a u).
Proof.
  intros Hok. apply (controls_ok_draw false) in Hok.
  unfold nextStep, Ui.nextStep. cbn zeta.
  set (a1 := drawCurrentState false a) in *.
  set (u1 := Ui.drawCurrentState a u) in *.
  case_decide as Hend.
  - apply controls_ok_pause in Hok.
    destruct Hok as (Htext & _).
    assert (isPlaying (pause a1) = false) as Hp.
    { unfold pause. by destruct (isPlaying a1) eqn:Hp1. }
    rewrite Hp in Htext.
    unfold controls_ok. simpl. rewrite Hp. by split_and!.
  - destruct (isPlaying a1) eqn:Hp1; [|done].
    eapply controls_ok_fields; [|exact Hok]. simpl. by rewrite Hp1.
Qed.

(** [play] on a paused controller sets every control. *)
Lemma controls_ok_play a u :
  isPlaying a = false → controls_ok (play a) (Ui.play a u).
Proof.
  intros Hp. unfold play, Ui.play. rewrite Hp. cbn zeta.
  apply controls_ok_nextStep. unfold controls_ok. by case_decide.
Qed.

Lemma controls_ok_exec a o u :
  controls_ok a u → controls_ok (exec a o) (Ui.exec a o u).
Proof.
  intros Hok. destruct o; simpl.
  - destruct (isPlaying a) eqn:Hp; [|by apply controls_ok_play].
    unfold play, Ui.play. by rewrite Hp.
  - by apply controls_ok_pause.
  - unfold timeout, Ui.timeout. destruct (timer a); [|done].
    apply controls_ok_nextStep. by eapply controls_ok_fields.
  - unfold stepForward, Ui.stepForward. case_decide; [done|].
    apply controls_ok_draw. by eapply controls_ok_fields.
  - unfold stepBackward, Ui.stepBackward. case_decide; [done|].
    apply controls_ok_draw. by eapply controls_ok_fields.
  - by eapply controls_ok_fields.
  - by apply controls_ok_draw.
Qed.

Lemma Ui_exec_all_fst ops a u :
  (Ui.exec_all ops a u).1 = exec_all ops a.
Proof.
  revert a u. induction ops as [|o ops IH]; intros a u; [done|].
  simpl. by rewrite IH.
Qed.

Lemma controls_ok_start (h : History) (sliderValue : Z) (u : Ui.t) :
  controls_ok
    (play (drawCurrentState false (setSpeed sliderValue (new h))))
    (Ui.start h sliderValue u).
Proof.
  unfold Ui.start. cbn zeta. apply controls_ok_play.
  by destruct (draw_fields false (setSpeed sliderValue (new h)))
    as (_ & _ & -> & _).
Qed.

(** What the end of a playback leaves: the controller paused on the last
    state with the finished status, the start button and the play button
    enabled, the step and export buttons disabled. *)
Definition just_finished (a : Animator.t) (u : Ui.t) : Prop :=
  isPlaying a = false
  ∧ currentIndex a >= length_of a - 1
  ∧ statusMessage a = "Simulation finished."
  ∧ Ui.playPauseButton u = false
  ∧ Ui.stepBackwardButton u = true
  ∧ Ui.stepForwardButton u = true
  ∧ Ui.exportLogButton u = true
  ∧ Ui.exportPngButton u = true.

Lemma draw_keeps_lock a u :
  Ui.startButton (Ui.drawCurrentState a u) = Ui.startButton u.
Proof. unfold Ui.drawCurrentState. by case_decide. Qed.

Lemma pause_keeps_lock a u :
  Ui.startButton (Ui.pause a u) = Ui.startButton u.
Proof. unfold Ui.pause. by destruct (isPlaying a). Qed.

Lemma nextStep_unlocks a u :
  Ui.startButton u = true → Ui.startButton (Ui.nextStep a u) = false →
  just_finished (nextStep a) (Ui.nextStep a u).
Proof.
  unfold nextStep, Ui.nextStep. cbn zeta.
  set (a1 := drawCurrentState false a).
  intros Hlock Hopen. case_decide as Hend.
  - unfold just_finished. simpl. split_and!; try done.
    + unfold pause. by destruct (isPlaying a1) eqn:Hp.
    + unfold pause, length_of in *. by destruct (isPlaying a1).
  - rewrite draw_keeps_lock in Hopen. congruence.
Qed.

(** X22: the controls follow the controller.  From [startSimulation] on,
    whatever calls are made on the controller: the play button is enabled
    and reads Pause exactly while a playback is running; the algorithm,
    frame and reference-string inputs are locked exactly when the start
    button is; the export buttons are enabled exactly when it is disabled;
    and it is disabled while a playback is running. *)
Theorem controls_follow_the_controller (h : History) (sliderValue : Z)
    (u : Ui.t) (ops : list op) :
  let started :=
    play (drawCurrentState false (setSpeed sliderValue (new h))) in
  let end_ := Ui.exec_all ops started (Ui.start h sliderValue u) in
  end_.1 = exec_all ops started ∧ controls_ok end_.1 end_.2.
Proof.
  cbn zeta. split; [apply Ui_exec_all_fst|].
  generalize (controls_ok_start h sliderValue u).
  generalize (Ui.start h sliderValue u) as u'.
  generalize (play (drawCurrentState false (setSpeed sliderValue (new h))))
    as a.
  induction ops as [|o ops IH]; intros a u' Hok; [done|].
  simpl. apply IH. by apply controls_ok_exec.
Qed.

(** X23: only the end of a playback unlocks the configuration.  A call
    that finds the start button disabled and leaves it enabled is a [play]
    or a timer tick that has just shown the last state: the controller is
    paused there with the finished status, and the step and export buttons
    are disabled.  Pausing, stepping (also onto the last state), redrawing
    and changing the speed never enable the start button. *)
Theorem configuration_unlocks_only_at_the_end (a : Animator.t) (u : Ui.t)
    (o : op) :
  Ui.startButton u = true → Ui.startButton (Ui.exec a o u) = false →
  (o = Play ∨ o = Timeout) ∧ just_finished (exec a o) (Ui.exec a o u).
Proof.
  intros Hlock Hopen. destruct o; simpl in *.
  - split; [by left|]. unfold play, Ui.play in *.
    destruct (isPlaying a); [congruence|]. cbn zeta in *.
    by apply nextStep_unlocks.
  - rewrite pause_keeps_lock in Hopen. congruence.
  - split; [by right|]. unfold timeout, Ui.timeout in *.
    destruct (timer a); [|congruence]. by apply nextStep_unlocks.
  - unfold Ui.stepForward in Hopen. case_decide; [congruence|].
    rewrite draw_keeps_lock in Hopen. congruence.
  - unfold Ui.stepBackward in Hopen. case_decide; [congruence|].
    rewrite draw_keeps_lock in Hopen. congruence.
  - congruence.
  - rewrite draw_keeps_lock in Hopen. congruence.
Qed.

(** Controls to start from: the configuration enabled, the rest not. *)
Definition idle_controls : Ui.t :=
  Ui.mk true true true true true false false false false "Play".

Lemma configuration_unlocks_only_at_the_end_witness :
  let a := play (drawCurrentState false (setSpeed 1100 (new two_faults))) in
  let u := Ui.start two_faults 1100 idle_controls in
  Ui.startButton u = true ∧ Ui.startButton (Ui.exec a Timeout u) = false
  ∧ (Timeout = Play ∨ Timeout = Timeout)
  ∧ just_finished (exec a Timeout) (Ui.exec a Timeout u).
Proof.
  cbn zeta.
  assert (Ui.startButton (Ui.start two_faults 1100 idle_controls) = true)
    as H1 by (vm_compute; reflexivity).
  assert (Ui.startButton
            (Ui.exec
               (play (drawCurrentState false
                        (setSpeed 1100 (new two_faults))))
               Timeout (Ui.start two_faults 1100 idle_controls)) = false)
    as H2 by (vm_compute; reflexivity).
  split; [exact H1|]. split; [exact H2|].
  exact (configuration_unlocks_only_at_the_end _ _ Timeout H1 H2).
Defined.

(** * Pausing just before the end *)

Lemma draw_status (b : bool) (a : Animator.t) s :
  0 ≤ currentIndex a →
  stateHistory a !! Z.to_nat (currentIndex a) = Some s →
  statusMessage (drawCurrentState b a) = message s.
Proof.
  intros H0 Hs. unfold drawCurrentState, length_of.
  pose proof (lookup_lt_Some _ _ _ Hs) as Hlt.
  rewrite decide_False by lia. rewrite Hs. simpl.
  by destruct (negb b && _).
Qed.

(** X24: a playback paused while the state before the last one is shown
    cannot be stepped to the last state.  The tick that draws the state
    before the last one leaves the index on the last state and the step
    forward button enabled; the button then pauses and does nothing else,
    however often it is pressed: the state before the last one stays on
    the screen, the last narration is not logged, and the button stays
    enabled. *)
Theorem late_pause_hides_last_state (h : History) (j : Z) (a : Animator.t)
    (u : Ui.t) :
  running h j a → j + 2 = Z.of_nat (length h) - 1 →
  ∃ s a2,
    h !! Z.to_nat (j + 1) = Some s
    ∧ App.stepForward (Some (timeout a)) = Some a2
    ∧ App.stepForward (Some a2) = Some a2
    ∧ currentIndex a2 = j + 2
    ∧ statusMessage a2 = message s
    ∧ executionLog a2 = lines (message <$> take (Z.to_nat (j + 2)) h)
    ∧ Ui.stepForwardButton (Ui.timeout a u) = false
    ∧ Ui.stepForwardButton
        (Ui.stepForward (pause (timeout a))
           (Ui.pause (timeout a) (Ui.timeout a u))) = false.
Proof.
  intros Hrun Hlast.
  pose proof Hrun as (Hh & Hp & Ht & Hc & Hll & Hj0 & Hj & Hlog).
  destruct (timeout_running h j a Hrun) as [Hrun1 | Hfin].
  2:{ destruct Hfin as (Hh1 & _ & _ & _ & _ & Hlen & _).
      unfold length_of in Hlen. rewrite Hh1 in Hlen. lia. }
  destruct Hrun1 as (Hh1 & Hp1 & Ht1 & Hc1 & Hll1 & _ & _ & Hlog1).
  destruct (lookup_lt_is_Some_2 h (Z.to_nat (j + 1))) as [s Hs]; [lia|].
  assert (statusMessage (timeout a) = message s) as Hst.
  { unfold timeout. rewrite Ht. unfold nextStep. cbn zeta.
    set (d := drawCurrentState false (set_timer false a)).
    assert (statusMessage d = message s) as Hd.
    { apply draw_status; simpl; [lia|]. by rewrite Hh, Hc. }
    destruct (draw_fields false (set_timer false a))
      as (Hdh & Hdc & Hdp & _).
    fold d in Hdh, Hdc, Hdp. simpl in *.
    unfold length_of. rewrite Hdh, Hdc, Hh, Hc, Hdp, Hp.
    by rewrite decide_False by lia. }
  assert (pause (timeout a)
          = set_timer false (set_isPlaying false (timeout a))) as Hpause.
  { unfold pause. by rewrite Hp1. }
  assert (Animator.stepForward (pause (timeout a)) = pause (timeout a))
    as Hstep.
  { unfold Animator.stepForward. rewrite Hpause. unfold length_of. simpl.
    rewrite Hh1, Hc1. by rewrite decide_True by lia. }
  assert (pause (pause (timeout a)) = pause (timeout a)) as Hpp.
  { unfold pause at 1. by rewrite Hpause. }
  exists s, (pause (timeout a)).
  split_and!; try done.
  - unfold App.stepForward. by rewrite Hstep.
  - unfold App.stepForward. by rewrite Hpp, Hstep.
  - rewrite Hpause. simpl. lia.
  - by rewrite Hpause.
  - rewrite Hpause. simpl. rewrite Hlog1. do 3 f_equal. lia.
  - unfold Ui.timeout. rewrite Ht. unfold Ui.nextStep. cbn zeta.
    destruct (draw_fields false (set_timer false a)) as (Hdh & Hdc & _).
    unfold length_of. rewrite Hdh, Hdc. simpl. rewrite Hh, Hc.
    rewrite decide_False by lia.
    unfold Ui.drawCurrentState, length_of. simpl. rewrite Hh, Hc.
    rewrite decide_False by lia. simpl.
    by rewrite bool_decide_eq_false_2 by lia.
  - unfold Ui.stepForward. rewrite decide_True.
    2:{ rewrite Hpause. unfold length_of. simpl. rewrite Hh1, Hc1. lia. }
    unfold Ui.pause. rewrite Hp1. simpl.
    unfold Ui.timeout. rewrite Ht. unfold Ui.nextStep. cbn zeta.
    destruct (draw_fields false (set_timer false a)) as (Hdh & Hdc & _).
    unfold length_of. rewrite Hdh, Hdc. simpl. rewrite Hh, Hc.
    rewrite decide_False by lia.
    unfold Ui.drawCurrentState, length_of. simpl. rewrite Hh, Hc.
    rewrite decide_False by lia. simpl.
    by rewrite bool_decide_eq_false_2 by lia.
Qed.

Lemma late_pause_hides_last_state_witness :
  let a := play (start three_faults) in
  running three_faults 0 a ∧ 0 + 2 = Z.of_nat (length three_faults) - 1
  ∧ ∃ s a2,
      three_faults !! Z.to_nat (0 + 1) = Some s
      ∧ App.stepForward (Some (timeout a)) = Some a2
      ∧ App.stepForward (Some a2) = Some a2
      ∧ currentIndex a2 = 0 + 2
      ∧ statusMessage a2 = message s
      ∧ executionLog a2
        = lines (message <$> take (Z.to_nat (0 + 2)) three_faults)
      ∧ Ui.stepForwardButton (Ui.timeout a idle_controls) = false
      ∧ Ui.stepForwardButton
          (Ui.stepForward (pause (timeout a))
             (Ui.pause (timeout a) (Ui.timeout a idle_controls))) = false.
Proof.
  cbn zeta.
  assert (0 + 2 = Z.of_nat (length three_faults) - 1) as Hlen
    by (vm_compute; reflexivity).
  split; [exact running_three_faults|]. split; [exact Hlen|].
  exact (late_pause_hides_last_state three_faults 0
           (play (start three_faults)) idle_controls
           running_three_faults Hlen).
Defined.

(** * Ties in OPTIMAL *)

Section ReduceLast.
Variables (g : Z → option Js.num) (d : Z → Js.num).

Let pick (a b : Z) : Z := if Js.gt (g a) (g b) then a else b.

(** [reduce] with the comparison of [runOptimal] keeps the accumulator
    only when it is strictly greater: the key it returns is the last one
    of maximal value. *)
Lemma fold_pick_last (rest : list Z) :
  ∀ a, g a = Some (d a) → (∀ k, k ∈ rest → g k = Some (d k)) →
    ∃ l1 l2, a :: rest = l1 ++ fold_left pick rest a :: l2
      ∧ ∀ k, k ∈ l2 → ¬ num_le (d (fold_left pick rest a)) (d k).
Proof.
  induction rest as [|b rest IH]; intros a Ha Hrest.
  { exists [], []. split; [done|]. by intros k ?%elem_of_nil. }
  assert (g b = Some (d b)) as Hb by (apply Hrest; by left).
  cbn [fold_left].
  destruct (IH (pick a b)) as (l1 & l2 & Hsplit & Hlast).
  { unfold pick. by destruct (Js.gt (g a) (g b)). }
  { intros k Hk. apply Hrest. by right. }
  unfold pick in Hsplit at 1. rewrite Ha, Hb in Hsplit.
  destruct (Js.gt (Some (d a)) (Some (d b))) eqn:Hgt.
  - destruct l1 as [|x l1]; simpl in Hsplit.
    + injection Hsplit as Hr Hl2. exists [], (b :: rest).
      split; [by rewrite <- Hr|].
      intros k Hk. rewrite <- Hr.
      apply elem_of_cons in Hk as [-> | Hk].
      * unfold num_le. by rewrite Hgt.
      * rewrite Hr. apply Hlast. by rewrite <- Hl2.
    + injection Hsplit as <- Hrest'. exists (a :: b :: l1), l2.
      split; [|done]. simpl. do 2 f_equal. exact Hrest'.
  - exists (a :: l1), l2. split; [|done]. simpl. f_equal. exact Hsplit.
Qed.
End ReduceLast.

Lemma filter_none {A : Type} (P : A → Prop) `{∀ x, Decision (P x)}
    (l : list A) :
  (∀ x, x ∈ l → ¬ P x) → filter P l = [].
Proof.
  induction l as [|x l IH]; intros Hl; [done|].
  rewrite filter_cons_False by (apply Hl; left).
  apply IH. intros y Hy. apply Hl. by right.
Qed.

(** The keys of an object whose keys are all array indices come in
    ascending order. *)
Lemma keys_sorted (o : Obj.t) :
  (∀ k, k ∈ o.*1 → Obj.is_array_index k) →
  StronglySorted Z.le (Obj.keys o).
Proof.
  intros Hidx. unfold Obj.keys.
  rewrite (filter_none (λ k, ¬ Obj.is_array_index k)).
  - rewrite app_nil_r. apply StronglySorted_merge_sort; apply _.
  - intros k Hk Hn. by apply Hn, Hidx.
Qed.

(** At a replacement of [runOptimal] no resident page with a greater
    number is as far as the victim. *)
Definition tie_step (pages : list Z) (c : Vars) (i : Z) (s : State)
    : Prop :=
  ∀ v, pageToEvict s = Num v →
    ∀ q, Num q ∈ v_frames c →
      num_le (distance pages i v) (distance pages i q) → q ≤ v.

Lemma array_index_safe (z : Z) : Obj.is_array_index z → Js.safe_integer z.
Proof.
  unfold Obj.is_array_index, Js.safe_integer. intros Hz.
  assert (2 ^ 32 - 1 < 2 ^ 53) by done. lia.
Qed.

Lemma optimal_tie (pages : list Z) (l : OLoop) (p i : Z) s F st
    (helper : list Z) :
  (∀ z, Num z ∈ o_frames l → Obj.is_array_index z) →
  optimal_callback pages l p i = Ok (mkOLoop F (o_history l ++ [s]) st) →
  tie_step pages (mkVars (o_frames l) helper (o_stats l)) i s.
Proof.
  intros Hidx. unfold optimal_callback, tie_step, Js.push. simpl.
  destruct (Js.includes (Num p) (o_frames l)).
  { intros [= _ Hh _]. by apply app_inj_tail in Hh as [_ <-]. }
  destruct (Js.includes Null (o_frames l)).
  { intros [= _ Hh _]. by apply app_inj_tail in Hh as [_ <-]. }
  set (fu := futureUses pages i (pagesInFrames (o_frames l))).
  destruct (Js.reduce _ _) as [key|e] eqn:Hred; [|done]. simpl.
  intros [= _ Hh _]. apply app_inj_tail in Hh as [_ <-]. simpl.
  intros v Hv q Hq Hfar.
  assert (∀ k, k ∈ Obj.keys fu →
            Obj.get fu k = Some (distance pages i k)) as Hget.
  { intros k Hk. apply futureUses_get.
    by apply (proj1 (futureUses_keys pages i _ k)). }
  assert (StronglySorted Z.le (Obj.keys fu)) as Hsorted.
  { apply keys_sorted. intros k Hk. apply Hidx.
    apply (proj1 (pagesInFrames_elem _ k)).
    apply (proj1 (futureUses_keys pages i _ k)).
    by apply (proj2 (Obj_keys_elem fu k)). }
  assert (q ∈ Obj.keys fu) as Hqk.
  { apply (proj2 (futureUses_keys pages i _ q)).
    by apply (proj2 (pagesInFrames_elem _ q)). }
  unfold Js.reduce in Hred.
  destruct (Obj.keys fu) as [|a rest] eqn:Hks; [done|].
  injection Hred as Hkey.
  destruct (fold_pick_last (Obj.get fu) (distance pages i) rest a)
    as (l1 & l2 & Hsplit & Hlast).
  { apply Hget. left. }
  { intros k Hk. apply Hget. by right. }
  cbn zeta in Hsplit, Hlast. rewrite Hkey in Hsplit, Hlast.
  assert (Input.parseInt_String key = key) as Hback.
  { apply safe_round_trips, array_index_safe, Hidx.
    apply (proj1 (pagesInFrames_elem _ key)).
    apply (proj1 (futureUses_keys pages i _ key)).
    fold fu. rewrite Hks, Hsplit. apply elem_of_app. right. left. }
  rewrite Hback in Hv. injection Hv as <-.
  rewrite Hsplit in Hsorted, Hqk.
  apply elem_of_app in Hqk as [Hq1 | Hq2].
  - eapply StronglySorted_app_1_elem_of; [exact Hsorted|exact Hq1|left].
  - apply elem_of_cons in Hq2 as [-> | Hq2]; [lia|].
    by destruct (Hlast q Hq2).
Qed.

Lemma common_frames_elem c i p s (z : Z) :
  common c i p s → Num z ∈ frames s → z = p ∨ Num z ∈ v_frames c.
Proof.
  intros [_ _ _ _ Ho] Hz. unfold outcome in Ho.
  assert (∀ (k : nat), (k < length (v_frames c))%nat →
            Num z ∈ <[k := Num p]> (v_frames c) →
            z = p ∨ Num z ∈ v_frames c) as Hins.
  { intros k Hk Hin. apply list_elem_of_lookup in Hin as [j Hj].
    destruct (decide (j = k)) as [-> | Hne].
    - rewrite list_lookup_insert_eq in Hj by done. left. congruence.
    - rewrite list_lookup_insert_ne in Hj by done.
      right. by eapply list_elem_of_lookup_2. }
  repeat case_decide.
  - destruct Ho as [Hfr _]. rewrite Hfr in Hz. by right.
  - destruct Ho as (_ & k & Hk & _ & Hfr). rewrite Hfr in Hz.
    apply (Hins k); [by eapply lookup_lt_Some|done].
  - destruct Ho as (v & k & _ & Hk & Hfr). rewrite Hfr in Hz.
    apply (Hins k); [by eapply lookup_lt_Some|done].
Qed.

Lemma optimal_tie_forEach (pages ps : list Z) :
  ∀ (i : Z) (l : OLoop) (helper : list Z),
    frames_ok (o_frames l) → (0 < length (o_frames l))%nat →
    (∀ z, Num z ∈ o_frames l → Obj.is_array_index z) →
    Forall Obj.is_array_index ps →
    ∃ hs l', Js.forEach_from (optimal_callback pages) ps i l = Ok l'
      ∧ o_history l' = o_history l ++ hs
      ∧ trace (λ c i p s, opt_step pages c i p s ∧ tie_step pages c i s)
          (mkVars (o_frames l) helper (o_stats l)) i ps hs.
Proof.
  induction ps as [|p ps IH]; intros i l helper Hok Hpos Hidx Hps; simpl.
  - exists [], l. split_and!; [done| |constructor]. by rewrite app_nil_r.
  - apply Forall_cons in Hps as [Hp Hps].
    destruct (optimal_callback_spec pages l p i helper Hok Hpos)
      as (s & Hf & Hs).
    apply opt_loose_strict in Hs.
    2:{ intros z Hz. by apply safe_round_trips, array_index_safe, Hidx. }
    pose proof (optimal_tie _ _ _ _ _ _ _ helper Hidx Hf) as Htie.
    rewrite Hf. simpl.
    pose proof Hs as (_ & _ & Hc & _).
    destruct (IH (i + 1) (mkOLoop (frames s) (o_history l ++ [s]) (stats s))
                (helperQueue s))
      as (hs & l' & -> & Hh & Ht); simpl.
    { by eapply common_frames_ok in Hc. }
    { apply common_length in Hc. simpl in *. lia. }
    { intros z Hz.
      destruct (common_frames_elem _ _ _ _ z Hc Hz) as [-> | Hz'];
        [done|by apply Hidx]. }
    { done. }
    exists (s :: hs), l'. split_and!; [done| |].
    + rewrite Hh. simpl. by rewrite <- app_assoc.
    + constructor; [|done]. by split.
Qed.

(** X25: how OPTIMAL breaks ties.  For a valid input whose pages are
    array indices (from [0] to [2^32 - 2]), when several pages in the
    frames are never referenced again, the OPTIMAL run evicts the one with
    the greatest page number: [reduce] goes through the keys of
    [futureUses] in ascending order and keeps the later of two equally
    distant pages. *)
Theorem optimal_evicts_greatest_on_ties (pages : list Z) (frameCount : Z) :
  valid_input pages frameCount → Forall Obj.is_array_index pages →
  ∃ h, run pages frameCount "OPTIMAL" = Ok h
    ∧ ∀ (n : nat) s v, h !! n = Some s → pageToEvict s = Num v →
        ∀ q, Num q ∈ v_frames (before frameCount h n) →
          next_use pages (Z.of_nat n) q = -1 →
          next_use pages (Z.of_nat n) v = -1 ∧ q ≤ v.
Proof.
  intros [_ Hn] Hidx. rewrite run_OPTIMAL.
  unfold runOptimal, Js.new_Array_fill_null, Js.forEach.
  rewrite decide_True by lia. simpl.
  destruct (optimal_tie_forEach pages pages 0
              (mkOLoop (replicate (Z.to_nat frameCount) Null) []
                 (mkStats 0 0 0)) [])
    as (hs & l' & -> & Hh & Ht); simpl.
  { apply frames_ok_replicate. }
  { rewrite length_replicate. lia. }
  { intros z Hz. apply elem_of_replicate in Hz as [? _]. done. }
  { done. }
  simpl in Hh. exists hs. split; [by rewrite Hh|].
  intros n s v Hs Hev q Hq Hnever.
  destruct (trace_lookup _ _ _ _ _ Ht n s Hs) as (p & _ & Hopt & Htie).
  fold (initial frameCount) in Hopt, Htie.
  fold (before frameCount hs n) in Hopt, Htie.
  rewrite Z.add_0_l in Hopt, Htie.
  assert (num_le (distance pages (Z.of_nat n) v)
            (distance pages (Z.of_nat n) q)) as Hfar.
  { apply distance_le. by left. }
  split; [|by apply (Htie v Hev q Hq)].
  destruct Hopt as (_ & _ & Hc & _ & Hvictim).
  destruct Hc as [_ _ _ _ Ho]. unfold outcome in Ho.
  destruct (decide (Num p ∈ _)) as [Hin | Hin];
    [destruct Ho as [_ Ho]; congruence|].
  destruct (decide (Null ∈ _)) as [Hnull | Hnull];
    [destruct Ho as [Ho _]; congruence|].
  destruct (Hvictim Hin Hnull) as (v' & Hev' & _ & Hmax).
  assert (v' = v) as -> by congruence.
  destruct (Hmax q Hq) as [Hv | Hv]; [done|lia].
Qed.

Lemma optimal_evicts_greatest_on_ties_witness :
  valid_input textbook_pages 3 ∧ Forall Obj.is_array_index textbook_pages
  ∧ ∃ h, run textbook_pages 3 "OPTIMAL" = Ok h
      ∧ ∀ (n : nat) s v, h !! n = Some s → pageToEvict s = Num v →
          ∀ q, Num q ∈ v_frames (before 3 h n) →
            next_use textbook_pages (Z.of_nat n) q = -1 →
            next_use textbook_pages (Z.of_nat n) v = -1 ∧ q ≤ v.
Proof.
  assert (Forall Obj.is_array_index textbook_pages) as Hidx.
  { unfold textbook_pages.
    repeat (apply Forall_cons_2; [unfold Obj.is_array_index; lia|]).
    apply Forall_nil_2. }
  split; [exact textbook_valid|]. split; [exact Hidx|].
  exact (optimal_evicts_greatest_on_ties textbook_pages 3
           textbook_valid Hidx).
Defined.

(** * What a step never does *)

(** A slot that holds a page holds a page after the step, and an evicted
    page was in the frames, is not the referenced page and is gone after
    the step. *)
Definition keeps_slots (F : list value) (s : State) : Prop :=
  (∀ (k : nat) z, F !! k = Some (Num z) →
     ∃ z', frames s !! k = Some (Num z'))
  ∧ ∀ v, pageToEvict s = Num v →
      Num v ∈ F ∧ (Num v ∉ frames s) ∧ v ≠ page s.

Lemma any_step_keeps_slots c i p s :
  any_step c i p s → keeps_slots (v_frames c) s.
Proof.
  intros [Hok [_ Hpage _ _ Ho]]. unfold outcome in Ho. subst p.
  unfold keeps_slots.
  assert (∀ (k0 k : nat) z, v_frames c !! k = Some (Num z) →
            ∃ z', (<[k0 := Num (page s)]> (v_frames c)) !! k
                  = Some (Num z')) as Hins.
  { intros k0 k z Hk. destruct (decide (k = k0)) as [-> | Hne].
    - exists (page s). apply list_lookup_insert_eq.
      by eapply lookup_lt_Some.
    - exists z. by rewrite list_lookup_insert_ne. }
  destruct (decide (Num (page s) ∈ v_frames c)) as [Hin | Hin].
  { destruct Ho as [-> ->]. split; [by eauto|done]. }
  destruct (decide (Null ∈ v_frames c)) as [Hnull | Hnull].
  { destruct Ho as (-> & k0 & _ & _ & ->). split; [by apply Hins|done]. }
  destruct Ho as (v & k0 & -> & Hk0 & ->). split; [by apply Hins|].
  intros v' [= <-].
  assert (Num v ∈ v_frames c) as Hv by by eapply list_elem_of_lookup_2.
  split_and!; [done| |by intros ->].
  intros Hgone. apply list_elem_of_lookup in Hgone as [j Hj].
  destruct (decide (j = k0)) as [-> | Hne].
  - rewrite list_lookup_insert_eq in Hj by by eapply lookup_lt_Some.
    injection Hj as Hpv. rewrite Hpv in Hin. done.
  - rewrite list_lookup_insert_ne in Hj by done.
    by apply Hne, (frames_ok_slot (v_frames c) j k0 v).
Qed.

(** X26: a frame is never emptied, and an evicted page is gone.  In every
    run under FIFO and LRU, and under OPTIMAL when the pages are safe
    integers (below [2^53] in absolute value), the history has one state
    per reference, a slot that holds a page before a step holds a page
    after it, and a page named as evicted was in the frames before the
    step, is not the page referenced, and is in no frame after the
    step. *)
Theorem slots_are_never_emptied (pages : list Z) (frameCount : Z)
    (algorithm : string) :
  valid_input pages frameCount → recognised algorithm →
  (algorithm = "OPTIMAL" → Forall Js.safe_integer pages) →
  ∃ h, run pages frameCount algorithm = Ok h
    ∧ length h = length pages
    ∧ ∀ (n : nat) s, h !! n = Some s →
        keeps_slots (v_frames (before frameCount h n)) s.
Proof.
  intros [_ Hn] Halg Hsafe.
  destruct (run_trace pages frameCount algorithm Hn Halg) as (h & Hrun & Ht).
  { intros Ho. by apply safe_pages_round_trip, Hsafe. }
  exists h. split; [done|]. split; [by eapply trace_length|].
  intros n s Hs.
  destruct (trace_lookup _ _ _ _ _ Ht n s Hs) as (p & _ & Hstep).
  by eapply any_step_keeps_slots.
Qed.

Lemma slots_are_never_emptied_witness :
  valid_input four_frames_pages 4 ∧ recognised "OPTIMAL"
  ∧ ("OPTIMAL" = "OPTIMAL" → Forall Js.safe_integer four_frames_pages)
  ∧ ∃ h, run four_frames_pages 4 "OPTIMAL" = Ok h
      ∧ length h = length four_frames_pages
      ∧ ∀ (n : nat) s, h !! n = Some s →
          keeps_slots (v_frames (before 4 h n)) s.
Proof.
  split; [exact four_frames_valid|].
  split; [right; right; reflexivity|].
  split; [intros _; exact four_frames_safe|].
  apply (slots_are_never_emptied four_frames_pages 4 "OPTIMAL").
  - exact four_frames_valid.
  - right; right; reflexivity.
  - intros _. exact four_frames_safe.
Defined.

(** * OPTIMAL with more frames *)

(** The resident sets a fault can lead to. *)
Definition after_miss (N : nat) (R : gset Z) (q : Z) (R1 : gset Z) : Prop :=
  ((size R < N)%nat ∧ R1 = R ∪ {[q]})
  ∨ (size R = N ∧ ∃ u, u ∈ R ∧ R1 = R ∖ {[u]} ∪ {[q]}).

Lemma least_faults_miss (N : nat) (q : Z) (r : list Z) (R : gset Z) :
  q ∉ R → (0 < N)%nat → (size R ≤ N)%nat →
  ∃ R1, after_miss N R q R1
    ∧ least_faults N (q :: r) R = S (least_faults N r R1).
Proof.
  intros Hq HN HR. cbn [least_faults]. rewrite decide_False by done.
  destruct (decide (size R < N)%nat) as [Hlt | Hge].
  { exists (R ∪ {[q]}). split; [by left|done]. }
  assert (size R = N) as HRN by lia.
  destruct (min_over_attained
              (λ u, least_faults N r (R ∖ {[u]} ∪ {[q]})) (elements R))
    as (u & Hu & ->).
  { apply (elements_full R (pred N)). lia. }
  apply elem_of_elements in Hu.
  exists (R ∖ {[u]} ∪ {[q]}). split; [|done]. right. eauto.
Qed.

Lemma least_faults_miss_le (N : nat) (q : Z) (r : list Z) (R R1 : gset Z) :
  q ∉ R → after_miss N R q R1 →
  (least_faults N (q :: r) R ≤ S (least_faults N r R1))%nat.
Proof.
  intros Hq Hafter. cbn [least_faults]. rewrite decide_False by done.
  destruct Hafter as [[Hlt ->] | (HRN & u & Hu & ->)].
  { by rewrite decide_True. }
  rewrite decide_False by lia.
  pose proof (min_over_le (λ u, least_faults N r (R ∖ {[u]} ∪ {[q]}))
                (elements R) u) as Hle.
  specialize (Hle ltac:(by apply elem_of_elements)). simpl in Hle. lia.
Qed.

Lemma after_miss_size (N : nat) (R : gset Z) (q : Z) (R1 : gset Z) :
  q ∉ R → after_miss N R q R1 → (size R1 ≤ N)%nat ∧ R1 ⊆ R ∪ {[q]}.
Proof.
  intros Hq [[Hlt ->] | (HRN & u & Hu & ->)].
  - rewrite size_add_new by done. split; [lia|done].
  - rewrite size_swap by done. split; [lia|set_solver].
Qed.

(** More frames and more resident pages never cost more faults. *)
Lemma least_faults_mono (N N' : nat) (ps : list Z) :
  (0 < N)%nat → (N ≤ N')%nat →
  ∀ R R' : gset Z, R ⊆ R' → (size R ≤ N)%nat → (size R' ≤ N')%nat →
    (least_faults N' ps R' ≤ least_faults N ps R)%nat.
Proof.
  intros HN0 HN. induction ps as [|q r IH]; intros R R' Hsub HR HR';
    [done|].
  destruct (decide (q ∈ R)) as [HqR | HqR].
  { cbn [least_faults]. rewrite !decide_True by set_solver. by apply IH. }
  destruct (least_faults_miss N q r R HqR HN0 HR) as (R1 & Hafter & ->).
  destruct (after_miss_size N R q R1 HqR Hafter) as [Hsz1 Hsub1].
  destruct (decide (q ∈ R')) as [HqR' | HqR'].
  { cbn [least_faults]. rewrite decide_True by done.
    etrans; [apply (IH R1 R')|lia]; [set_solver|done..]. }
  assert (∃ R1', after_miss N' R' q R1' ∧ R1 ⊆ R1') as (R1' & Hafter' & Hs').
  { destruct (decide (size R' < N')%nat) as [Hlt' | Hge'].
    { exists (R' ∪ {[q]}). split; [by left|set_solver]. }
    assert (size R' = N') as HRN' by lia.
    destruct Hafter as [[Hlt ->] | (HRN & u & Hu & ->)].
    - assert (size (R' ∖ R) ≠ 0)%nat as Hdiff.
      { rewrite size_difference by done. lia. }
      apply size_non_empty_iff in Hdiff.
      apply set_choose in Hdiff as [u' Hu'].
      exists (R' ∖ {[u']} ∪ {[q]}). split; [|set_solver].
      right. split; [done|]. exists u'. split; [set_solver|done].
    - exists (R' ∖ {[u]} ∪ {[q]}). split; [|set_solver].
      right. split; [done|]. exists u. split; [set_solver|done]. }
  destruct (after_miss_size N' R' q R1' HqR' Hafter') as [Hsz1' _].
  etrans; [by apply (least_faults_miss_le N' q r R' R1')|].
  apply le_n_S. by apply IH.
Qed.

Lemma optimal_misses (pages : list Z) (frameCount : Z) :
  pages ≠ [] → 1 ≤ frameCount ≤ 10 → Forall Js.safe_integer pages →
  fault_count (run pages frameCount "OPTIMAL")
  = Some (Z.of_nat (least_faults (Z.to_nat frameCount) pages ∅)).
Proof.
  intros Hp Hn Hsafe%safe_pages_round_trip.
  destruct (runOptimal_trace pages frameCount Hn Hsafe) as (h & Hrun & Ht).
  assert (trace any_step (initial frameCount) 0 pages h) as Hany.
  { eapply trace_impl; [|exact Ht].
    intros c i p s (Hok & _ & Hc & _). by split. }
  rewrite (fault_count_misses pages frameCount "OPTIMAL" h Hp Hrun Hany).
  apply opt_trace_paging in Ht; [|done..].
  rewrite resident_initial in Ht. simpl in Ht.
  rewrite length_replicate in Ht.
  rewrite (opt_paging_least _ _ _ _ Ht); [done|].
  rewrite size_empty. lia.
Qed.

(** X27: OPTIMAL has no Belady anomaly on pages that are safe integers
    (below [2^53] in absolute value).  For a valid input of such pages the
    OPTIMAL run with more frames counts no more faults than the run with
    fewer. *)
Theorem optimal_more_frames_no_more_faults (pages : list Z) (n m : Z) :
  valid_input pages n → valid_input pages m → n ≤ m →
  Forall Js.safe_integer pages →
  ∃ fn fm,
    fault_count (run pages n "OPTIMAL") = Some fn
    ∧ fault_count (run pages m "OPTIMAL") = Some fm
    ∧ fm ≤ fn.
Proof.
  intros [Hp Hn] [_ Hm] Hnm Hsafe.
  rewrite !optimal_misses by done.
  eexists _, _. split_and!; [done..|].
  apply inj_le. apply least_faults_mono; [lia|lia|done|..];
    rewrite size_empty; lia.
Qed.

Lemma optimal_more_frames_no_more_faults_witness :
  valid_input textbook_pages 3 ∧ valid_input textbook_pages 4 ∧ 3 ≤ 4
  ∧ Forall Js.safe_integer textbook_pages
  ∧ ∃ fn fm,
      fault_count (run textbook_pages 3 "OPTIMAL") = Some fn
      ∧ fault_count (run textbook_pages 4 "OPTIMAL") = Some fm
      ∧ fm ≤ fn.
Proof.
  assert (valid_input textbook_pages 4) as Hv.
  { split; [discriminate|lia]. }
  assert (3 ≤ 4) as Hle by lia.
  split; [exact textbook_valid|]. split; [exact Hv|]. split; [exact Hle|].
  split; [exact textbook_safe|].
  exact (optimal_more_frames_no_more_faults textbook_pages 3 4
           textbook_valid Hv Hle textbook_safe).
Defined.

(** * Replacements on safe pages, and on any pages *)

(** X28: on pages that are safe integers (below [2^53] in absolute
    value) OPTIMAL evicts the page referenced farthest ahead.  For a valid
    input of such pages the OPTIMAL run returns a history with one state
    per reference, hits recorded exactly on the pages in the frames, in
    which, at every replacement fault, the evicted page is a page of the
    frames whose next reference in the rest of the reference string is
    farthest: either it is never referenced again, or no page of the
    frames is next referenced later than it; the new page takes its
    slot. *)
Theorem optimal_evicts_farthest (pages : list Z) (frameCount : Z) :
  valid_input pages frameCount → Forall Js.safe_integer pages →
  ∃ h, run pages frameCount "OPTIMAL" = Ok h
       ∧ optimal_rule pages frameCount h.
Proof.
  intros [_ Hn] Hsafe%safe_pages_round_trip.
  destruct (runOptimal_trace pages frameCount Hn Hsafe) as (h & Hrun & Ht).
  exists h. split; [done|]. split.
  { apply trace_any_follows. eapply trace_impl; [|exact Ht].
    intros c i p s (Hok & _ & Hc & _). by split. }
  intros n s Hs.
  destruct (trace_lookup _ _ _ _ _ Ht n s Hs)
    as (p & _ & _ & _ & Hc & _ & Hv).
  fold (before frameCount h n) in Hc, Hv. cbn zeta.
  destruct Hc as [_ Hpage Hhit _ Ho]. subst p.
  split; [done|].
  rewrite Hhit, includes_false. rewrite Z.add_0_l in Hv. exact Hv.
Qed.

Lemma optimal_evicts_farthest_witness :
  valid_input textbook_pages 3 ∧ Forall Js.safe_integer textbook_pages
  ∧ ∃ h, run textbook_pages 3 "OPTIMAL" = Ok h
         ∧ optimal_rule textbook_pages 3 h.
Proof.
  split; [exact textbook_valid|]. split; [exact textbook_safe|].
  exact (optimal_evicts_farthest textbook_pages 3 textbook_valid
           textbook_safe).
Defined.

(** X29: the evicted page is replaced in its own slot.  For every valid
    input under FIFO and LRU, and under OPTIMAL when the pages are safe
    integers (below [2^53] in absolute value), the history has one state
    per reference, hits recorded exactly on the pages in the frames; a
    state has an evicted page exactly when its step is a replacement fault
    (a miss on frames with no empty slot); the evicted page is then a
    number [v], and the frames of the state are the frames before the step
    with the slot of [v] now holding the referenced page, every other slot
    unchanged.  On a hit and on a compulsory fault [pageToEvict] is
    [null]. *)
Theorem evicted_iff_replacement (pages : list Z) (frameCount : Z)
    (algorithm : string) :
  valid_input pages frameCount → recognised algorithm →
  (algorithm = "OPTIMAL" → Forall Js.safe_integer pages) →
  ∃ h, run pages frameCount algorithm = Ok h
    ∧ eviction_rule pages frameCount h.
Proof.
  intros [_ Hn] Halg Hsafe.
  destruct (run_trace pages frameCount algorithm Hn Halg) as (h & Hrun & Ht).
  { intros Ho. by apply safe_pages_round_trip, Hsafe. }
  exists h. split; [done|]. split; [by apply trace_any_follows|].
  intros n s Hs.
  destruct (trace_lookup _ _ _ _ _ Ht n s Hs) as (p & Hp & _ & Hc).
  fold (before frameCount h n) in Hc.
  destruct Hc as [_ Hpage Hhit _ Ho]. subst p. cbn zeta.
  unfold outcome in Ho.
  destruct (decide (Num (page s) ∈ v_frames (before frameCount h n)))
    as [Hin|Hin].
  { destruct Ho as [_ Hev].
    apply includes_true in Hin. rewrite Hin in Hhit.
    split; [|done]. rewrite Hev, Hhit. split; [done|]. by intros [? _]. }
  apply includes_false in Hin. rewrite Hin in Hhit.
  destruct (decide (Null ∈ v_frames (before frameCount h n))) as [Hnull|Hnull].
  { destruct Ho as [Hev _]. split; [|done]. rewrite Hev. tauto. }
  destruct Ho as (v & k & Hev & Hk & Hfr).
  split; [by rewrite Hev|]. intros _.
  exists v, k. rewrite Hfr. split_and!; [done..| | |].
  - apply list_lookup_insert_eq. by eapply lookup_lt_Some.
  - apply length_insert.
  - intros j Hj. by apply list_lookup_insert_ne.
Qed.

Lemma evicted_iff_replacement_witness :
  valid_input textbook_pages 3 ∧ recognised "OPTIMAL"
  ∧ ("OPTIMAL" = "OPTIMAL" → Forall Js.safe_integer textbook_pages)
  ∧ ∃ h, run textbook_pages 3 "OPTIMAL" = Ok h
         ∧ eviction_rule textbook_pages 3 h.
Proof.
  split; [exact textbook_valid|].
  split; [right; right; reflexivity|].
  split; [intros _; exact textbook_safe|].
  apply (evicted_iff_replacement textbook_pages 3 "OPTIMAL").
  - exact textbook_valid.
  - right; right; reflexivity.
  - intros _. exact textbook_safe.
Defined.

(** X30: what a replacement does whatever the pages are.  For every valid
    input and each policy the history has one state per reference, hits
    recorded exactly on the pages in the frames; a state names an evicted
    page exactly when its step is a miss on frames with no empty slot, and
    the page named is a number; when a slot of the frames before the step
    holds the page named, the frames of the state are those frames with
    that slot holding the referenced page; when no slot holds it, the
    frames of the state are the frames before the step. *)
Theorem replacement_writes_slot_of_named_page (pages : list Z)
    (frameCount : Z) (algorithm : string) :
  valid_input pages frameCount → recognised algorithm →
  ∃ h, run pages frameCount algorithm = Ok h
    ∧ naming_rule pages frameCount h.
Proof.
  intros [_ Hn] Halg.
  destruct (run_loose_trace pages frameCount algorithm Hn Halg)
    as (h & Hrun & Ht).
  exists h. split; [done|]. split; [by apply trace_follows|].
  intros n s Hs.
  destruct (trace_lookup _ _ _ _ _ Ht n s Hs) as (p & Hp & Hok & Hc).
  fold (before frameCount h n) in Hok, Hc.
  destruct Hc as [_ Hpage Hhit _ Ho]. subst p. cbn zeta.
  unfold loose_outcome in Ho.
  destruct (decide (Num (page s) ∈ v_frames (before frameCount h n)))
    as [Hin|Hin].
  { destruct Ho as [_ Hev].
    apply includes_true in Hin. rewrite Hin in Hhit.
    rewrite Hev, Hhit. split_and!; [|by left|done..].
    split; [done|]. by intros [? _]. }
  apply includes_false in Hin. rewrite Hin in Hhit.
  destruct (decide (Null ∈ v_frames (before frameCount h n))) as [Hnull|Hnull].
  { destruct Ho as [Hev _]. rewrite Hev.
    split_and!; [tauto|by left|done..]. }
  destruct Ho as (v & Hev & Hfr). rewrite Hev.
  split_and!; [done|right; by exists v| |].
  - intros v' [= <-] Hv.
    destruct (replacement_write (v_frames (before frameCount h n)) v
                (page s)) as [(k & Hk & _ & Hset) | [Hnot _]]; [|done].
    exists k. by rewrite <- Hset.
  - intros v' [= <-] Hv.
    destruct (replacement_write (v_frames (before frameCount h n)) v
                (page s)) as [(k & Hk & _ & _) | [_ Hset]];
      [|by rewrite <- Hset].
    destruct Hv. by eapply list_elem_of_lookup_2.
Qed.

Lemma replacement_writes_slot_of_named_page_witness :
  valid_input textbook_pages 3 ∧ recognised "OPTIMAL"
  ∧ ∃ h, run textbook_pages 3 "OPTIMAL" = Ok h
      ∧ naming_rule textbook_pages 3 h.
Proof.
  split; [exact textbook_valid|].
  split; [right; right; reflexivity|].
  apply (replacement_writes_slot_of_named_page textbook_pages 3 "OPTIMAL").
  - exact textbook_valid.
  - right; right; reflexivity.
Defined.

(** ** Past the safe integers

    What the runs do on pages from [10^21] on, where the key of a page
    does not read back as the page. *)

(** OPTIMAL counts more faults than FIFO and LRU. *)
Example optimal_counts_more_faults_than_fifo :
  fault_count (run [10 ^ 21; 2; 3; 3] 2 "OPTIMAL") = Some 4
  ∧ fault_count (run [10 ^ 21; 2; 3; 3] 2 "FIFO") = Some 3
  ∧ fault_count (run [10 ^ 21; 2; 3; 3] 2 "LRU") = Some 3.
Proof. by vm_compute. Qed.

(** OPTIMAL counts more faults on three frames than on two. *)
Example optimal_counts_more_faults_on_more_frames :
  fault_count (run [1; 2 * 10 ^ 21; 10 ^ 21; 2; 1] 2 "OPTIMAL") = Some 4
  ∧ fault_count (run [1; 2 * 10 ^ 21; 10 ^ 21; 2; 1] 3 "OPTIMAL") = Some 5.
Proof. by vm_compute. Qed.

(** The narration prints the page in exponent notation, and names a
    frame [-1]. *)
Example narration_past_safe_integers :
  ∀ h, run [10 ^ 21; 2; 3] 2 "OPTIMAL" = Ok h →
    message <$> h
    = ["Step 1 (Page 1e+21): Page 1e+21 caused a FAULT. "
       +:+ "Loaded into empty Frame 0.";
       "Step 2 (Page 2): Page 2 caused a FAULT. "
       +:+ "Loaded into empty Frame 1.";
       "Step 3 (Page 3): Page 3 caused a FAULT. "
       +:+ "Page 1 (Optimal) was evicted from Frame -1."].
Proof. intros h Hrun. vm_compute in Hrun. injection Hrun as <-. done. Qed.

(** The page named as evicted can be the referenced page itself. *)
Example optimal_names_the_referenced_page :
  ∀ h, run [10 ^ 21; 1] 1 "OPTIMAL" = Ok h →
    (λ s, (page s, frames s, pageToEvict s)) <$> h
    = [(10 ^ 21, [Num (10 ^ 21)], Null); (1, [Num (10 ^ 21)], Num 1)].
Proof. intros h Hrun. vm_compute in Hrun. injection Hrun as <-. done. Qed.
